(** * Mayushii, cogs/raffle.py: the giveaway cog

    A shallow embedding of the [Raffle] cog: the sqlite ledger behind the
    SQLAlchemy session, the cog's own fields ([raffle], [roles], [queue]),
    and its commands written in a small state-and-exception monad, followed
    by the properties of the giveaway lifecycle, the entry processor and the
    winner draw. *)

From Stdlib Require Import ZArith Bool String Lia Arith PeanoNat List.
Import ListNotations.
Open Scope Z_scope.

(** ** The membership provider (discord) *)

(** [discord.Role]: compared by id. *)
Record Role := mkRole { role_id : Z; role_name : string }.

(** [discord.Member]: the id and the roles held. *)
Record Member := mkMember { member_id : Z; member_roles : list Role }.

(** The invocation context of a command: its author, and the verdicts of the
    two checks of utils.checks that guard [join] ([not_new], [not_blacklisted]
    are declared outside this file of the repository). *)
Record Context := mkContext {
  author : Member;
  not_new : bool;
  not_blacklisted : bool
}.

(** What the cog reads from outside while one command runs.  The loop of
    [get_winner] has no bound of its own: [fuel] is the number of its rounds
    that a run is followed for. *)
Record Env := mkEnv {
  guild_roles : list Role;            (* bot.guild.roles *)
  get_member : Z -> option Member;    (* bot.guild.get_member *)
  default_roles : list Z;             (* bot.config["default_roles"] *)
  random : nat -> nat;                (* the generator behind random.choice *)
  dm_ok : Member -> bool;             (* user.send succeeds *)
  fuel : nat                          (* rounds of the loop of get_winner *)
}.

(** [discord.utils.get(roles, id=i)]: the first role with that id. *)
Definition utils_get (rs : list Role) (i : Z) : option Role :=
  find (fun r => role_id r =? i) rs.

(** [role in member.roles]. *)
Definition role_in (r : Role) (rs : list Role) : bool :=
  existsb (fun r' => role_id r' =? role_id r) rs.

(** ** The ledger (utils.database tables) *)

Module Giveaway.
Record t := mk { id : Z; name : string; win_count : Z; ongoing : bool }.
Definition with_ongoing (b : bool) (g : t) : t :=
  mk (id g) (name g) (win_count g) b.
Definition with_win_count (k : Z) (g : t) : t :=
  mk (id g) (name g) k (ongoing g).
End Giveaway.

Module Entry.
Record t := mk { id : Z; giveaway : Z; winner : bool }.
Definition with_winner (b : bool) (e : t) : t := mk (id e) (giveaway e) b.
(** Primary key (id, giveaway). *)
Definition same_key (a b : t) : bool :=
  (id a =? id b) && (giveaway a =? giveaway b).
End Entry.

Module GiveawayRole.
Record t := mk { id : Z; giveaway : Z }.
Definition has_key (i g : Z) (r : t) : bool :=
  (id r =? i) && (giveaway r =? g).
End GiveawayRole.

Record Ledger := mkLedger {
  giveaways : list Giveaway.t;
  entries : list Entry.t;
  giveaway_roles : list GiveawayRole.t;
  blacklist : list Z
}.

Definition empty_ledger : Ledger := mkLedger [] [] [] [].

(** Modelled from the spec: the default of the [ongoing] column of Giveaway,
    declared in utils/database (not in this file of the repository).  "Persists
    a new Giveaway with ongoing=true": the cog never sets the flag on
    creation, the column default does. *)
Definition default_ongoing : bool := true.

(** Modelled from the spec: the default of the [winner] column of Entry,
    declared in utils/database.  "Winner flag (default false)". *)
Definition default_winner : bool := false.

Definition with_giveaways (f : list Giveaway.t -> list Giveaway.t) (l : Ledger) :=
  mkLedger (f (giveaways l)) (entries l) (giveaway_roles l) (blacklist l).
Definition with_entries (f : list Entry.t -> list Entry.t) (l : Ledger) :=
  mkLedger (giveaways l) (f (entries l)) (giveaway_roles l) (blacklist l).
Definition with_giveaway_roles
    (f : list GiveawayRole.t -> list GiveawayRole.t) (l : Ledger) :=
  mkLedger (giveaways l) (entries l) (f (giveaway_roles l)) (blacklist l).
Definition with_blacklist (f : list Z -> list Z) (l : Ledger) :=
  mkLedger (giveaways l) (entries l) (giveaway_roles l) (f (blacklist l)).

(** [query(Giveaway).get(g)]. *)
Definition find_giveaway (g : Z) (l : Ledger) : option Giveaway.t :=
  find (fun r => Giveaway.id r =? g) (giveaways l).

(** The [entries] relationship of giveaway [g], in insertion order. *)
Definition raffle_entries (g : Z) (l : Ledger) : list Entry.t :=
  filter (fun e => Entry.giveaway e =? g) (entries l).

(** The [roles] relationship of giveaway [g]. *)
Definition raffle_roles (g : Z) (l : Ledger) : list GiveawayRole.t :=
  filter (fun r => GiveawayRole.giveaway r =? g) (giveaway_roles l).

(** [query(Entry).get((user, g))]. *)
Definition get_entry (user g : Z) (l : Ledger) : option Entry.t :=
  find (fun e => (Entry.id e =? user) && (Entry.giveaway e =? g)) (entries l).

(** The integer primary key a new Giveaway row receives: one more than the
    largest key in the table. *)
Definition next_id (l : Ledger) : Z :=
  1 + fold_right Z.max 0 (map Giveaway.id (giveaways l)).

(** The rows [filter_by(ongoing=True)] selects. *)
Definition ongoing_giveaways (l : Ledger) : list Giveaway.t :=
  filter Giveaway.ongoing (giveaways l).

(** ** The cog *)

(** Every message the cog sends, one constructor per [send] of the source. *)
Inductive Reply :=
| NotAllowed                      (* You are not allowed to participate! *)
| AlreadyParticipating            (* You are already participating! *)
| NowParticipating (m : Member)   (* ... now you are participating ... *)
| AlreadyOngoing                  (* There is an already ongoing giveaway! *)
| Proposed (n : string) (k : Z) (rs : list Role)  (* Say `yes` to confirm ... *)
| Started (n : string) (k : Z)    (* Started giveaway ... *)
| AlrightThen                     (* Alright then. *)
| AreYouSure                      (* Are you sure you want to cancel ... *)
| Cancelled                       (* Giveaway cancelled. *)
| Continues                       (* And the raffle continues. *)
| NotEnough                       (* Not enough participants for giveaway! *)
| NoUsers                         (* No users to choose... *)
| AndTheWinnerIs                  (* And the winner is....!! *)
| Mention (m : Member)            (* {user.mention} *)
| Congratulations                 (* Congratulations *)
| FailedDM (m : Member)           (* Failed to send message to winner ... *)
| Finished (n : nat)              (* Giveaway finished with n participants. *)
| BlacklistAlready (m : Member)   (* ... is already in the blacklist *)
| BlacklistAdded (m : Member)     (* Added ... to the blacklist *)
| BlacklistMissing (m : Member)   (* ... is not in the blacklist. *)
| BlacklistRemoved (m : Member)   (* Removed ... from the blacklist *)
| Updated (k : Z).                (* Updated number of winners to k *)

(** The cog object together with the database file it writes.
    [db] is the committed content of giveaway.db; [s] is the content as the
    session sees it, with the changes not yet committed; [raffle] holds the
    primary key of the Giveaway object in the current slot; [roles] is the
    list of resolved role objects; [queue] and [unfinished] are the items and
    the unfinished-task counter of the asyncio queue; [sent] is the
    transcript of messages; [rolls] counts the calls to random.choice. *)
Record Cog := mkCog {
  db : Ledger;
  s : Ledger;
  raffle : option Z;
  roles : list (option Role);
  queue : list Context;
  unfinished : nat;
  sent : list Reply;
  rolls : nat
}.

Definition set_db (l : Ledger) (c : Cog) : Cog :=
  mkCog l (s c) (raffle c) (roles c) (queue c) (unfinished c) (sent c) (rolls c).
Definition set_s (l : Ledger) (c : Cog) : Cog :=
  mkCog (db c) l (raffle c) (roles c) (queue c) (unfinished c) (sent c) (rolls c).
Definition set_raffle (r : option Z) (c : Cog) : Cog :=
  mkCog (db c) (s c) r (roles c) (queue c) (unfinished c) (sent c) (rolls c).
Definition set_roles (rs : list (option Role)) (c : Cog) : Cog :=
  mkCog (db c) (s c) (raffle c) rs (queue c) (unfinished c) (sent c) (rolls c).
Definition set_queue (q : list Context) (n : nat) (c : Cog) : Cog :=
  mkCog (db c) (s c) (raffle c) (roles c) q n (sent c) (rolls c).
Definition set_sent (m : list Reply) (c : Cog) : Cog :=
  mkCog (db c) (s c) (raffle c) (roles c) (queue c) (unfinished c) m (rolls c).
Definition set_rolls (n : nat) (c : Cog) : Cog :=
  mkCog (db c) (s c) (raffle c) (roles c) (queue c) (unfinished c) (sent c) n.

(** ** The monad of commands: state, exceptions, and not returning *)

Inductive Exn :=
| AttributeError          (* attribute access on None *)
| ObjectDeletedError      (* the row behind a mapped object is gone *)
| MultipleResultsFound    (* scalar() on more than one row *)
| NoOnGoingRaffle         (* utils.exceptions *)
| CheckFailure            (* a failed check of utils.checks *)
| IntegrityError          (* a commit that breaks a primary key *)
| OverflowError           (* a commit of an integer sqlite cannot hold *)
| ValueError.             (* task_done() called too many times *)

Inductive Res (A : Type) :=
| Ok (a : A) (c : Cog)        (* returned [a] *)
| Raise (e : Exn) (c : Cog)   (* raised [e], the effects so far stay *)
| Never.                      (* has not returned: it waits for ever, or
                                 is still in the loop of get_winner when
                                 the rounds followed are used up *)
Arguments Ok {A} a c.
Arguments Raise {A} e c.
Arguments Never {A}.

Definition M (A : Type) := Cog -> Res A.

Definition ret {A} (a : A) : M A := fun c => Ok a c.
Definition bind {A B} (m : M A) (k : A -> M B) : M B :=
  fun c => match m c with
           | Ok a c' => k a c'
           | Raise e c' => Raise e c'
           | Never => Never
           end.
Definition raise {A} (e : Exn) : M A := fun c => Raise e c.
Definition gets {A} (f : Cog -> A) : M A := fun c => Ok (f c) c.
Definition update (f : Cog -> Cog) : M unit := fun c => Ok tt (f c).

Notation "x <- m ;; k" := (bind m (fun x => k))
  (at level 61, m at next level, right associativity).
Notation "m ;; k" := (bind m (fun _ => k))
  (at level 61, right associativity).

Definition when (b : bool) (m : M unit) : M unit := if b then m else ret tt.

Fixpoint for_each {A} (xs : list A) (body : A -> M unit) : M unit :=
  match xs with
  | [] => ret tt
  | x :: xs' => body x ;; for_each xs' body
  end.

(** ** Session, channel and queue primitives *)

(** [self.s.commit()]: the pending changes become the file's content. *)
Definition commit : M unit := update (fun c => set_db (s c) c).

(** A change made through the session, pending until the next commit. *)
Definition in_session (f : Ledger -> Ledger) : M unit :=
  update (fun c => set_s (f (s c)) c).

(** [await ctx.send(...)]. *)
Definition send (r : Reply) : M unit :=
  update (fun c => set_sent (sent c ++ [r]) c).

(** The object in [self.raffle], for an attribute access [self.raffle.x]. *)
Definition the_raffle : M Giveaway.t :=
  r <- gets raffle ;;
  match r with
  | None => raise AttributeError
  | Some g =>
      row <- gets (fun c => find_giveaway g (s c)) ;;
      match row with
      | None => raise ObjectDeletedError
      | Some x => ret x
      end
  end.

Definition update_giveaway (g : Z) (f : Giveaway.t -> Giveaway.t) : Ledger -> Ledger :=
  with_giveaways (map (fun r => if Giveaway.id r =? g then f r else r)).

(** [self.raffle.ongoing = b]. *)
Definition set_ongoing (b : bool) : M unit :=
  g <- the_raffle ;;
  in_session (update_giveaway (Giveaway.id g) (Giveaway.with_ongoing b)).

(** [await self.queue.put(ctx)]: the queue is unbounded. *)
Definition queue_put (ctx : Context) : M unit :=
  update (fun c => set_queue (queue c ++ [ctx]) (S (unfinished c)) c).

(** [await self.queue.get()]: waits for ever on an empty queue. *)
Definition queue_get : M Context :=
  fun c => match queue c with
           | [] => Never
           | ctx :: rest => Ok ctx (set_queue rest (unfinished c) c)
           end.

(** [self.queue.task_done()]. *)
Definition task_done : M unit :=
  fun c => match unfinished c with
           | O => Raise ValueError c
           | S n => Ok tt (set_queue (queue c) n c)
           end.

(** [queue_empty]: [while not self.queue.empty(): pass].  The body changes
    nothing and yields to nobody, so the loop ends at once on an empty queue
    and never otherwise. *)
Definition queue_empty : M unit :=
  fun c => match queue c with
           | [] => Ok tt c
           | _ :: _ => Never
           end.

(** The check [ongoing_raffle]. *)
Definition ongoing_raffle : M unit :=
  r <- gets raffle ;;
  match r with
  | None => raise NoOnGoingRaffle
  | Some _ =>
      g <- the_raffle ;;
      if Giveaway.ongoing g then ret tt else raise NoOnGoingRaffle
  end.

(** ** Internal functions *)

Definition is_nil {A} (l : list A) : bool :=
  match l with [] => true | _ => false end.

(** [any(role in ctx.author.roles for role in self.roles)]. *)
Definition holds_cached (m : Member) (cached : list (option Role)) : bool :=
  existsb (fun r => match r with
                    | Some role => role_in role (member_roles m)
                    | None => false
                    end) cached.

(** [any(discord.utils.get(ctx.author.roles, id=role_id) for role_id in
    self.bot.config["default_roles"])]. *)
Definition holds_default (env : Env) (m : Member) : bool :=
  existsb (fun i => match utils_get (member_roles m) i with
                    | Some _ => true
                    | None => false
                    end) (default_roles env).

(** [process_entry] from the role check on, for the request [ctx] taken
    from the queue. *)
Definition enter (env : Env) (ctx : Context) : M unit :=
  g <- the_raffle ;;
  declared <- gets (fun c => raffle_roles (Giveaway.id g) (s c)) ;;
  cached <- gets roles ;;
  if negb (is_nil declared)
     && negb (holds_cached (author ctx) cached || holds_default env (author ctx))
  then send NotAllowed
  else
    let user_id := member_id (author ctx) in
    g <- the_raffle ;;
    entry <- gets (fun c => get_entry user_id (Giveaway.id g) (s c)) ;;
    match entry with
    | Some _ => send AlreadyParticipating
    | None =>
        in_session (with_entries
          (fun es => es ++ [Entry.mk user_id (Giveaway.id g) default_winner])) ;;
        commit ;;
        send (NowParticipating (author ctx)) ;;
        task_done
    end.

Definition process_entry (env : Env) : M unit :=
  ctx <- queue_get ;;
  enter env ctx.

(** [entry.winner = True]. *)
Definition mark_winner (e : Entry.t) : Ledger -> Ledger :=
  with_entries (map (fun x => if Entry.same_key x e
                              then Entry.with_winner true x else x)).

(** [self.s.delete(entry)]. *)
Definition delete_entry (e : Entry.t) : Ledger -> Ledger :=
  with_entries (filter (fun x => negb (Entry.same_key x e))).

(** The loop of [get_winner] over [pool], the list [self.raffle.entries] as
    it was loaded, at most [rounds] times round.  [self.s.delete(entry)]
    marks the row for deletion in the session and leaves the loaded list as
    it is, so every round chooses from the same [pool]; the rows marked are
    deleted by the commit that ends the loop.  The loop ends by that commit
    only, or at once on an empty list: when the rounds are used up the run
    has not returned. *)
Fixpoint get_winner_loop (env : Env) (pool : list Entry.t) (rounds : nat)
    : M (option Member) :=
  match pool with
  | [] => ret None
  | e0 :: _ =>
      match rounds with
      | O => fun _ => Never
      | S rounds' =>
          n <- gets rolls ;;
          update (set_rolls (S n)) ;;
          let entry := nth (random env n mod length pool)%nat pool e0 in
          match get_member env (Entry.id entry) with
          | Some winner =>
              in_session (mark_winner entry) ;;
              commit ;;
              ret (Some winner)
          | None =>
              in_session (delete_entry entry) ;;
              get_winner_loop env pool rounds'
          end
      end
  end.

(** [get_winner]: the entries of the giveaway in the slot are loaded on the
    first access, every commit having expired them. *)
Definition get_winner (env : Env) : M (option Member) :=
  g <- the_raffle ;;
  pool <- gets (fun c => raffle_entries (Giveaway.id g) (s c)) ;;
  get_winner_loop env pool (fuel env).

(** The primary key (id, giveaway) of the role table: no two rows alike. *)
Fixpoint distinct_keys (rows : list GiveawayRole.t) : bool :=
  match rows with
  | [] => true
  | r :: rest =>
      negb (existsb (GiveawayRole.has_key (GiveawayRole.id r)
                                          (GiveawayRole.giveaway r)) rest)
      && distinct_keys rest
  end.

(** A [self.s.commit()] that fails with [e]: the pending changes are lost
    and nothing is written.  The cog never calls [rollback()], so the session
    takes no further operation: the run of the cog ends with this exception
    ([proceeds]), until the process is started again. *)
Definition failed_commit {A} (e : Exn) : M A :=
  update (fun c => set_s (db c) c) ;;
  raise e.

(** [self.s.add_all(rows); self.s.commit()] on the role table: a commit that
    would break the primary key fails. *)
Definition add_all_roles (rows : list GiveawayRole.t) : M unit :=
  table <- gets (fun c => giveaway_roles (s c)) ;;
  if distinct_keys (table ++ rows) then
    in_session (with_giveaway_roles (fun rs => rs ++ rows)) ;;
    commit
  else failed_commit IntegrityError.

(** The integers an INTEGER column of sqlite holds: signed, 64 bits. *)
Definition fits (v : Z) : bool := (- 2 ^ 63 <=? v) && (v <? 2 ^ 63).

(** [self.s.commit()] when the pending change binds the integer [v]: the
    sqlite driver refuses a Python int outside signed 64 bits. *)
Definition commit_int (v : Z) : M unit :=
  if fits v then commit else failed_commit OverflowError.

(** [create_raffle].  A new Giveaway row has the next primary key. *)
Definition create_raffle (env : Env) (name : string) (winners : Z)
    (role_ids : list Z) : M Z :=
  new_id <- gets (fun c => next_id (s c)) ;;
  in_session (with_giveaways
    (fun gs => gs ++ [Giveaway.mk new_id name winners default_ongoing])) ;;
  commit_int winners ;;
  (if is_nil role_ids then ret tt
   else
     add_all_roles (map (fun i => GiveawayRole.mk i new_id) role_ids) ;;
     (* self.roles = [get(guild.roles, id=role_id) for role_id in
        self.raffle.roles]: the rows of the giveaway in the slot, none of
        which is the id of a guild role *)
     g <- the_raffle ;;
     rows <- gets (fun c => raffle_roles (Giveaway.id g) (s c)) ;;
     update (set_roles (map (fun _ => None) rows))) ;;
  ret new_id.

(** ** Startup *)

(** Modelled from the spec: the [delete()] of a GiveawayRole row, which the
    class declaration in utils/database (not in this file of the repository)
    would supply.  "Any AllowedRole referencing a role no longer present is
    deleted from the ledger": the row leaves the session's view of the
    table. *)
Definition row_delete (r : GiveawayRole.t) : Ledger -> Ledger :=
  with_giveaway_roles
    (filter (fun x => negb (GiveawayRole.has_key (GiveawayRole.id r)
                                                 (GiveawayRole.giveaway r) x))).

(** [self.s.query(GiveawayRole).get((i, g))]. *)
Definition get_role (i g : Z) (l : Ledger) : option GiveawayRole.t :=
  find (GiveawayRole.has_key i g) (giveaway_roles l).

(** The body of the loop of [__init__], for the row [role] of the giveaway
    [g] in the slot. *)
Definition reconcile (env : Env) (g : Z) (role : GiveawayRole.t) : M unit :=
  match utils_get (guild_roles env) (GiveawayRole.id role) with
  | None =>
      row <- gets (fun c => get_role (GiveawayRole.id role) g (s c)) ;;
      match row with
      | None => raise AttributeError
      | Some x => in_session (row_delete x) ;; commit
      end
  | Some drole => update (fun c => set_roles (roles c ++ [Some drole]) c)
  end.

(** The body of [__init__] once the session is open. *)
Definition init (env : Env) : M unit :=
  found <- gets (fun c => ongoing_giveaways (s c)) ;;
  (* .scalar() *)
  match found with
  | [] => update (set_raffle None)
  | [g] => update (set_raffle (Some (Giveaway.id g)))
  | _ :: _ :: _ => raise MultipleResultsFound
  end ;;
  update (set_roles []) ;;
  r <- gets raffle ;;
  match r with
  | None => ret tt
  | Some g =>
      rows <- gets (fun c => raffle_roles g (s c)) ;;
      for_each rows (reconcile env g)
  end ;;
  update (set_queue [] O).

(** Loading the cog on the database file [l]. *)
Definition startup (env : Env) (l : Ledger) : Res unit :=
  init env (mkCog l l None [] [] O [] O).

(** ** Commands *)

Definition join (env : Env) (ctx : Context) : M unit :=
  ongoing_raffle ;;
  (if not_new ctx then ret tt else raise CheckFailure) ;;
  (if not_blacklisted ctx then ret tt else raise CheckFailure) ;;
  queue_put ctx ;;
  process_entry env.

(** [create]; [answer] is what [wait_for_answer] returns. *)
Definition create (env : Env) (name : string) (winners : Z)
    (rs : list Role) (answer : bool) : M unit :=
  r <- gets raffle ;;
  match r with
  | Some _ => send AlreadyOngoing
  | None =>
      send (Proposed name winners rs) ;;
      if answer then
        new_id <- create_raffle env name winners (map role_id rs) ;;
        update (set_raffle (Some new_id)) ;;
        send (Started name winners)
      else send AlrightThen
  end.

Definition cancel (answer : bool) : M unit :=
  ongoing_raffle ;;
  send AreYouSure ;;
  if answer then
    set_ongoing false ;;
    update (set_raffle None) ;;
    commit ;;
    send Cancelled
  else send Continues.

(** [for i in range(0, n): winners.append(self.get_winner())]. *)
Fixpoint draw (env : Env) (n : nat) : M (list (option Member)) :=
  match n with
  | O => ret []
  | S n' =>
      w <- get_winner env ;;
      ws <- draw env n' ;;
      ret (w :: ws)
  end.

(** [list(filter(lambda a: a is not None, winners))]. *)
Fixpoint resolved (ws : list (option Member)) : list Member :=
  match ws with
  | [] => []
  | Some m :: rest => m :: resolved rest
  | None :: rest => resolved rest
  end.

(** The part of [finish] after the draw. *)
Definition report (env : Env) (winners : list Member) : M unit :=
  g <- the_raffle ;;
  let short := Z.of_nat (length winners) <? Giveaway.win_count g in
  when short (send NotEnough) ;;
  if short && is_nil winners then
    send NoUsers ;;
    set_ongoing true
  else
    send AndTheWinnerIs ;;
    for_each winners (fun user => send (Mention user)) ;;
    send Congratulations ;;
    for_each winners (fun user =>
      if dm_ok env user then ret tt else send (FailedDM user)) ;;
    commit ;;
    g <- the_raffle ;;
    n <- gets (fun c => length (raffle_entries (Giveaway.id g) (s c))) ;;
    send (Finished n) ;;
    update (set_raffle None).

(** The part of [finish] up to the draw: the winners it resolves. *)
Definition close_and_draw (env : Env) : M (list Member) :=
  ongoing_raffle ;;
  set_ongoing false ;;
  commit ;;
  queue_empty ;;
  g <- the_raffle ;;
  drawn <- draw env (Z.to_nat (Giveaway.win_count g)) ;;
  ret (resolved drawn).

Definition finish (env : Env) : M unit :=
  winners <- close_and_draw env ;;
  report env winners.

Definition blacklist_add (member : Member) : M unit :=
  listed <- gets (fun c => existsb (Z.eqb (member_id member)) (blacklist (s c))) ;;
  if listed then send (BlacklistAlready member)
  else
    in_session (with_blacklist (fun b => b ++ [member_id member])) ;;
    commit ;;
    send (BlacklistAdded member).

Definition blacklist_remove (member : Member) : M unit :=
  listed <- gets (fun c => existsb (Z.eqb (member_id member)) (blacklist (s c))) ;;
  if listed then
    in_session (with_blacklist
      (filter (fun i => negb (i =? member_id member)))) ;;
    commit ;;
    send (BlacklistRemoved member)
  else send (BlacklistMissing member).

(** [modify winner_count]; the check is the one of the [modify] group. *)
Definition winner_count (value : Z) : M unit :=
  ongoing_raffle ;;
  g <- the_raffle ;;
  in_session (update_giveaway (Giveaway.id g) (Giveaway.with_win_count value)) ;;
  commit_int value ;;
  send (Updated value).

(** ** Runs of the cog *)

Inductive Command :=
| Join (ctx : Context)
| Create (name : string) (winners : Z) (rs : list Role) (answer : bool)
| Cancel (answer : bool)
| Finish
| BlacklistAdd (member : Member)
| BlacklistRemove (member : Member)
| WinnerCount (value : Z).

Definition run (env : Env) (cmd : Command) : M unit :=
  match cmd with
  | Join ctx => join env ctx
  | Create name winners rs answer => create env name winners rs answer
  | Cancel answer => cancel answer
  | Finish => finish env
  | BlacklistAdd member => blacklist_add member
  | BlacklistRemove member => blacklist_remove member
  | WinnerCount value => winner_count value
  end.

(** The state a computation leaves the cog in, when it ends at all. *)
Definition after {A} (r : Res A) : option Cog :=
  match r with
  | Ok _ c => Some c
  | Raise _ c => Some c
  | Never => None
  end.

(** The exceptions of a failed commit. *)
Definition fatal (e : Exn) : bool :=
  match e with
  | IntegrityError | OverflowError => true
  | _ => false
  end.

(** The state the next command runs in: there is none when the computation
    does not end, or ends in a failed commit, which leaves the session of the
    cog unusable. *)
Definition proceeds {A} (r : Res A) : option Cog :=
  match r with
  | Ok _ c => Some c
  | Raise e c => if fatal e then None else Some c
  | Never => None
  end.

(** The states of the cog met when commands run one after the other, from a
    first start on an empty database; the process may be started again at
    any time, on what was committed, also after a command that left the
    session unusable.  [P] restricts the commands issued. *)
Inductive reachable_by (P : Command -> Prop) : Cog -> Prop :=
| reach_install env c :
    startup env empty_ledger = Ok tt c ->
    reachable_by P c
| reach_run env cmd c c' :
    reachable_by P c -> P cmd ->
    proceeds (run env cmd c) = Some c' ->
    reachable_by P c'
| reach_restart env c c' :
    reachable_by P c ->
    startup env (db c) = Ok tt c' ->
    reachable_by P c'
| reach_crash env env' cmd e c c1 c' :
    reachable_by P c -> P cmd ->
    run env cmd c = Raise e c1 -> fatal e = true ->
    startup env' (db c1) = Ok tt c' ->
    reachable_by P c'.

Definition reachable : Cog -> Prop := reachable_by (fun _ => True).

(** ** Judgements on commands *)

(** [m] returns from [c], with a result and a state that satisfy [Q]. *)
Definition returns {A} (m : M A) (c : Cog) (Q : A -> Cog -> Prop) : Prop :=
  exists a c', m c = Ok a c' /\ Q a c'.

(** Whatever way [m] ends, [I] still holds. *)
Definition keeps {A} (I : Cog -> Prop) (m : M A) : Prop :=
  forall c c', I c -> after (m c) = Some c' -> I c'.

(** What a step of the draw leaves alone: everything but the entries, of
    which there are no more than before, and the count of random choices;
    the Giveaway rows of the file are as before or as the session has
    them. *)
Definition draw_frame (c c' : Cog) : Prop :=
  raffle c' = raffle c /\ roles c' = roles c /\ queue c' = queue c /\
  unfinished c' = unfinished c /\ sent c' = sent c /\
  giveaways (s c') = giveaways (s c) /\
  giveaway_roles (s c') = giveaway_roles (s c) /\
  blacklist (s c') = blacklist (s c) /\
  (length (entries (s c')) <= length (entries (s c)))%nat /\
  (giveaways (db c') = giveaways (db c) \/
   giveaways (db c') = giveaways (s c')).

(** The state [get_winner] returns a winner in: [e] marked, committed. *)
Definition won (e : Entry.t) (c : Cog) : Cog :=
  set_db (mark_winner e (s c))
    (set_s (mark_winner e (s c)) (set_rolls (S (rolls c)) c)).

(** The state [get_winner] goes round again in: [e] deleted. *)
Definition dropped (e : Entry.t) (c : Cog) : Cog :=
  set_s (delete_entry e (s c)) (set_rolls (S (rolls c)) c).

(** [random.choice(pool)]. *)
Definition choice (env : Env) (c : Cog) (pool : list Entry.t) (e0 : Entry.t) :=
  nth (random env (rolls c) mod length pool)%nat pool e0.

(** What [get_winner] has done for the giveaway [g] in the slot when it
    returns, from [c] to its result [w] and the state [c'] it returns in: no
    entry of another member appears; [None] comes only of a giveaway without
    an entry, and without a change; a winner is the member behind an entry
    there was, and an entry of theirs is still there. *)
Definition winner_post (env : Env) (g : Z) (c : Cog) (w : option Member)
    (c' : Cog) : Prop :=
  draw_frame c c' /\
  incl (map Entry.id (raffle_entries g (s c')))
       (map Entry.id (raffle_entries g (s c))) /\
  match w with
  | None => raffle_entries g (s c) = [] /\ c' = c
  | Some m =>
      (exists e, In e (raffle_entries g (s c)) /\
                 get_member env (Entry.id e) = Some m) /\
      (exists e, In e (raffle_entries g (s c')) /\
                 get_member env (Entry.id e) = Some m)
  end.

(** What the loop of [finish] promises for [n] rounds on the giveaway [g]:
    [n] results; each winner is the member behind an entry there was; and the
    winners are [n] when some entry is of a member of the guild, none
    otherwise. *)
Definition draw_post (env : Env) (g : Z) (n : nat) (c : Cog)
    (ws : list (option Member)) (c' : Cog) : Prop :=
  draw_frame c c' /\
  length ws = n /\
  (forall m, In m (resolved ws) ->
     exists e, In e (raffle_entries g (s c)) /\
               get_member env (Entry.id e) = Some m) /\
  ((exists e, In e (raffle_entries g (s c)) /\
              get_member env (Entry.id e) <> None) ->
   length (resolved ws) = n) /\
  ((forall x, In x (raffle_entries g (s c)) ->
              get_member env (Entry.id x) = None) ->
   resolved ws = []).

(** ** The lifecycle *)

(** The giveaway [g] is in the slot and ongoing: state OPEN. *)
Definition is_open (c : Cog) (g : Z) : Prop :=
  raffle c = Some g /\
  exists r, find_giveaway g (s c) = Some r /\ Giveaway.ongoing r = true.

(** The ongoing flag of giveaway [g] in a ledger. *)
Definition ongoing_flag (g : Z) (l : Ledger) : option bool :=
  option_map Giveaway.ongoing (find_giveaway g l).

(** The target winner count of giveaway [g] in a ledger. *)
Definition win_count_of (g : Z) (l : Ledger) : option Z :=
  option_map Giveaway.win_count (find_giveaway g l).

(** State NONE reached from giveaway [g]: the slot is empty and the flag of
    [g] is false, in the session and in the file. *)
Definition is_none_after (c : Cog) (g : Z) : Prop :=
  raffle c = None /\
  ongoing_flag g (s c) = Some false /\ ongoing_flag g (db c) = Some false.

(** [c'] differs from [c] by the messages sent at most. *)
Definition silent (c c' : Cog) : Prop :=
  db c' = db c /\ s c' = s c /\ raffle c' = raffle c /\ roles c' = roles c /\
  queue c' = queue c /\ unfinished c' = unfinished c /\ rolls c' = rolls c.

(** The state [finish] draws in: the flag of [g] lowered, committed. *)
Definition closed (g : Z) (c : Cog) : Cog :=
  set_db (update_giveaway g (Giveaway.with_ongoing false) (s c))
    (set_s (update_giveaway g (Giveaway.with_ongoing false) (s c)) c).

(** ** Sample runs *)

(** A guild that knows every member id, one role, no default roles, a
    generator that always gives 0. *)
Definition member (i : Z) : Member := mkMember i [].
Definition helpers : Role := mkRole 5 "helpers".
Definition guild : Env :=
  mkEnv [helpers] (fun i => Some (member i)) [] (fun _ => O) (fun _ => true)
        1%nat.

(** The cog loaded on an empty database. *)
Definition installed : Cog := mkCog empty_ledger empty_ledger None [] [] O [] O.

(** The commands [cmds] one after the other. *)
Fixpoint runs (env : Env) (cmds : list Command) (c : Cog) : option Cog :=
  match cmds with
  | [] => Some c
  | cmd :: rest =>
      match proceeds (run env cmd c) with
      | Some c' => runs env rest c'
      | None => None
      end
  end.

(** Giveaway "Spring" for [k] winners, just created, and joined by the
    members [ids]. *)
Definition spring_ledger (k : Z) (ids : list Z) : Ledger :=
  mkLedger [Giveaway.mk 1 "Spring" k true]
           (map (fun i => Entry.mk i 1 false) ids) [] [].
Definition spring_sent (k : Z) (ids : list Z) : list Reply :=
  Proposed "Spring" k [] :: Started "Spring" k ::
  map (fun i => NowParticipating (member i)) ids.
Definition spring (k : Z) (ids : list Z) : Cog :=
  mkCog (spring_ledger k ids) (spring_ledger k ids) (Some 1) [] [] O
        (spring_sent k ids) O.

(** The request of member [i] to join, past the checks of utils.checks. *)
Definition request (i : Z) : Context := mkContext (member i) true true.

(** The entries of giveaway [g] whose member the guild still has. *)
Definition resolvable (env : Env) (g : Z) (l : Ledger) : list Entry.t :=
  filter (fun e => match get_member env (Entry.id e) with
                   | Some _ => true
                   | None => false
                   end) (raffle_entries g l).

(** The guild after member 200 left, with a generator that gives 1 first
    and 0 ever after. *)
Definition guild_without_200 : Env :=
  mkEnv [helpers] (fun i => if i =? 200 then None else Some (member i)) []
        (fun n => match n with O => 1 | S _ => 0 end)%nat (fun _ => true)
        2%nat.

(** The state after [create] of giveaway "A" with the role [helpers] was
    confirmed, from [installed]: the rows are in the file, the slot is
    empty. *)
Definition stranded_ledger : Ledger :=
  mkLedger [Giveaway.mk 1 "A" 1 true] [] [GiveawayRole.mk 5 1] [].
Definition stranded : Cog :=
  mkCog stranded_ledger stranded_ledger None [] [] O
        [Proposed "A" 1 [helpers]] O.

(** The winner counts a run of commands supplies are all positive. *)
Definition positive_count (cmd : Command) : Prop :=
  match cmd with
  | Create _ winners _ _ => 0 < winners
  | WinnerCount value => 0 < value
  | _ => True
  end.

(** Every Giveaway row the cog sees or has committed has a positive target
    winner count. *)
Definition counts_positive (c : Cog) : Prop :=
  (forall r, In r (giveaways (s c)) -> 0 < Giveaway.win_count r) /\
  (forall r, In r (giveaways (db c)) -> 0 < Giveaway.win_count r).

(** ** Invariants *)

(** A property of the cog that the steps shared by the commands keep:
    messages, random choices, the queue counter, a commit, the ongoing flag,
    the entries, the blacklist, emptying the slot. *)
Record stable (I : Cog -> Prop) : Prop := {
  st_sent : forall c m, I c -> I (set_sent m c);
  st_rolls : forall c n, I c -> I (set_rolls n c);
  st_unfinished : forall c n, I c -> I (set_queue (queue c) n c);
  st_commit : forall c, I c -> I (set_db (s c) c);
  st_ongoing : forall c g b, I c ->
    I (set_s (update_giveaway g (Giveaway.with_ongoing b) (s c)) c);
  st_entries : forall c f, I c -> I (set_s (with_entries f (s c)) c);
  st_blacklist : forall c f, I c -> I (set_s (with_blacklist f (s c)) c);
  st_slot_none : forall c, I c -> I (set_raffle None c)
}.

(** A stable property which moreover does not look at the slot, the resolved
    roles or the queue, and which deleting a role row and the loss of the
    pending changes in a failed commit keep. *)
Record plain (I : Cog -> Prop) : Prop := {
  pl_stable : stable I;
  pl_queue : forall c q n, I c -> I (set_queue q n c);
  pl_roles : forall c rs, I c -> I (set_roles rs c);
  pl_raffle : forall c g, I c -> I (set_raffle g c);
  pl_row_delete : forall c x, I c -> I (set_s (row_delete x (s c)) c);
  pl_rollback : forall c, I c -> I (set_s (db c) c)
}.

(** ** Startup reconciliation *)

(** The role of the row no longer resolves in the guild. *)
Definition stale (env : Env) (r : GiveawayRole.t) : bool :=
  match utils_get (guild_roles env) (GiveawayRole.id r) with
  | None => true
  | Some _ => false
  end.

(** The row [x] is one of [rows]. *)
Definition among (rows : list GiveawayRole.t) (x : GiveawayRole.t) : bool :=
  existsb (GiveawayRole.has_key (GiveawayRole.id x) (GiveawayRole.giveaway x)) rows.

(** The role objects the rows resolve to, in order. *)
Definition resolved_roles (env : Env) (rows : list GiveawayRole.t)
    : list (option Role) :=
  flat_map (fun r => match utils_get (guild_roles env) (GiveawayRole.id r) with
                     | Some drole => [Some drole]
                     | None => []
                     end) rows.

(** What the loop of [__init__] over [rows] changes from [c] to [c']: the
    stale rows are gone from the role table, the other rows are resolved. *)
Definition reconciled (env : Env) (rows : list GiveawayRole.t) (c c' : Cog)
    : Prop :=
  giveaway_roles (s c') =
    filter (fun x => negb (among rows x && stale env x)) (giveaway_roles (s c)) /\
  roles c' = roles c ++ resolved_roles env rows /\
  giveaways (s c') = giveaways (s c) /\ entries (s c') = entries (s c) /\
  blacklist (s c') = blacklist (s c) /\ raffle c' = raffle c /\
  queue c' = queue c /\ unfinished c' = unfinished c /\
  sent c' = sent c /\ rolls c' = rolls c /\
  (db c = s c -> db c' = s c').

(** A database with one stale role row: giveaway "A" with the roles 5, which
    the guild has, and 6, which it has not. *)
Definition stale_ledger : Ledger :=
  mkLedger [Giveaway.mk 1 "A" 1 true] []
           [GiveawayRole.mk 6 1; GiveawayRole.mk 5 1] [].

(** ** The role gate *)




(** The entries of member [user] in giveaway [g]. *)
Definition entries_of (user g : Z) (l : Ledger) : list Entry.t :=
  filter (fun e => (Entry.id e =? user) && (Entry.giveaway e =? g)) (entries l).

(** The ids of the resolved roles. *)
Definition cache_ids (cached : list (option Role)) : list (option Z) :=
  map (option_map role_id) cached.

(** The resolved roles are those of the rows of the giveaway in the slot,
    when it declares any. *)
Definition cache_ok (c : Cog) : Prop :=
  forall g, raffle c = Some g -> raffle_roles g (s c) <> [] ->
    cache_ids (roles c) =
    map (fun r => Some (GiveawayRole.id r)) (raffle_roles g (s c)).

(** The role table holds no row twice, and its rows are of giveaways whose
    key has been given out. *)
Definition ledger_ok (l : Ledger) : Prop :=
  NoDup (giveaway_roles l) /\
  forall r, In r (giveaway_roles l) -> GiveawayRole.giveaway r < next_id l.

Definition ledgers_ok (c : Cog) : Prop := ledger_ok (s c) /\ ledger_ok (db c).

(** What holds of the cog between two commands. *)
Definition inv (c : Cog) : Prop := ledgers_ok c /\ queue c = [] /\ cache_ok c.

(** From [c0] to [c] the queue, the resolved roles and the role table are
    the same, and the slot is the same or empty. *)
Definition role_frame (c0 c : Cog) : Prop :=
  queue c = queue c0 /\ roles c = roles c0 /\
  giveaway_roles (s c) = giveaway_roles (s c0) /\
  (raffle c = raffle c0 \/ raffle c = None).

(** The cog once [join] took its own request from the queue. *)
Definition waiting (c : Cog) : Cog := set_queue [] (S (unfinished c)) c.

(** The role check of [process_entry] turns the member away. *)
Definition turned_away (env : Env) (c : Cog) (g : Z) (m : Member) : bool :=
  negb (is_nil (raffle_roles g (s c)))
  && negb (holds_cached m (roles c) || holds_default env m).

(** The cog loaded again on the database of [stranded]: giveaway "A" is in
    the slot, with its role resolved. *)
Definition restarted : Cog :=
  mkCog stranded_ledger stranded_ledger (Some 1) [Some helpers] [] O [] O.

(** The request of a member who holds the role [helpers]. *)
Definition helper_request (i : Z) : Context :=
  mkContext (mkMember i [helpers]) true true.

(** ** One ongoing giveaway *)

(** The commands that declare no allowed role when they create. *)
Definition no_roles (cmd : Command) : Prop :=
  match cmd with
  | Create _ _ rs _ => rs = []
  | _ => True
  end.

(** The Giveaway rows have distinct keys, and a row with the ongoing flag is
    the one in the slot. *)
Definition single_ledger (slot : option Z) (l : Ledger) : Prop :=
  NoDup (map Giveaway.id (giveaways l)) /\
  forall r, In r (giveaways l) -> Giveaway.ongoing r = true ->
            slot = Some (Giveaway.id r).

Definition single (c : Cog) : Prop :=
  single_ledger (raffle c) (s c) /\ single_ledger (raffle c) (db c).

(** ** Further properties: definitions *)

(** No giveaway is ongoing for the cog: the slot is empty, or the giveaway in
    it has its flag lowered. *)
Definition no_ongoing (c : Cog) : Prop :=
  raffle c = None \/
  exists g r, raffle c = Some g /\ find_giveaway g (s c) = Some r /\
              Giveaway.ongoing r = false.

(** [self.s.query(BlackList).get(member.id)] finds a row. *)
Definition listed (m : Member) (l : Ledger) : bool :=
  existsb (Z.eqb (member_id m)) (blacklist l).

(** A cog with giveaway "Spring" open and members 3 and 4 blacklisted. *)
Definition spring_with_blacklist : Cog :=
  mkCog (with_blacklist (fun _ => [3; 4]) (spring_ledger 2 [100]))
        (with_blacklist (fun _ => [3; 4]) (spring_ledger 2 [100]))
        (Some 1) [] [] O [] O.

(** A property of the ledger that every write of the cog keeps: an entry
    added for a member without one, in a giveaway there is; an entry marked
    as winner or deleted; a Giveaway row changed but for its key; a Giveaway
    row added under the next key; role rows added that break no primary key,
    for a giveaway there is; role rows deleted; a member added to the
    blacklist who was not listed; a member removed from it. *)
Record written (P : Ledger -> Prop) : Prop := {
  wr_entry : forall l user g,
    P l -> get_entry user g l = None ->
    In g (map Giveaway.id (giveaways l)) ->
    P (with_entries (fun es => es ++ [Entry.mk user g default_winner]) l);
  wr_mark : forall l e, P l -> P (mark_winner e l);
  wr_delete : forall l e, P l -> P (delete_entry e l);
  wr_giveaway : forall l g f,
    (forall r, Giveaway.id (f r) = Giveaway.id r) ->
    P l -> P (update_giveaway g f l);
  wr_create : forall l name k,
    P l ->
    P (with_giveaways
         (fun gs => gs ++ [Giveaway.mk (next_id l) name k default_ongoing]) l);
  wr_roles : forall l rows,
    P l -> distinct_keys (giveaway_roles l ++ rows) = true ->
    (forall r, In r rows ->
       In (GiveawayRole.giveaway r) (map Giveaway.id (giveaways l))) ->
    P (with_giveaway_roles (fun rs => rs ++ rows) l);
  wr_roles_filter : forall l f, P l -> P (with_giveaway_roles (filter f) l);
  wr_blacklist_add : forall l i,
    P l -> existsb (Z.eqb i) (blacklist l) = false ->
    P (with_blacklist (fun b => b ++ [i]) l);
  wr_blacklist_remove : forall l i,
    P l -> P (with_blacklist (filter (fun j => negb (j =? i))) l)
}.

(** [P] holds of what the session sees and of what is committed. *)
Definition both (P : Ledger -> Prop) (c : Cog) : Prop := P (s c) /\ P (db c).

(** No member has two entries in a giveaway. *)
Definition entries_unique (l : Ledger) : Prop :=
  forall user g, (length (entries_of user g l) <= 1)%nat.

(** Every entry and every role row is of a giveaway that has a row. *)
Definition rows_refer (l : Ledger) : Prop :=
  (forall e, In e (entries l) ->
     In (Entry.giveaway e) (map Giveaway.id (giveaways l))) /\
  (forall r, In r (giveaway_roles l) ->
     In (GiveawayRole.giveaway r) (map Giveaway.id (giveaways l))).

(** No two Giveaway rows have the same key. *)
Definition keys_distinct (l : Ledger) : Prop :=
  NoDup (map Giveaway.id (giveaways l)).

(** No member is listed twice. *)
Definition blacklist_distinct (l : Ledger) : Prop := NoDup (blacklist l).

(** The cog after a member was blacklisted while giveaway "Spring" was
    open and joined. *)
Definition spring_blacklisted : Cog :=
  mkCog (with_blacklist (fun _ => [3]) (spring_ledger 2 [100]))
        (with_blacklist (fun _ => [3]) (spring_ledger 2 [100]))
        (Some 1) [] [] O
        (spring_sent 2 [100] ++ [BlacklistAdded (member 3)]) O.

(** The giveaway [g] is in the slot, whatever its flag. *)
Definition in_slot (c : Cog) (g : Z) : Prop :=
  raffle c = Some g /\ exists r, find_giveaway g (s c) = Some r.

(** Member [m] has an entry of giveaway [g] marked as winner in [l]. *)
Definition marked (env : Env) (g : Z) (m : Member) (l : Ledger) : Prop :=
  exists e, In e (raffle_entries g l) /\ Entry.winner e = true /\
            get_member env (Entry.id e) = Some m.

(** Giveaway "Spring" for [k] winners joined by members who have all left
    the guild since. *)
Definition deserted : Env :=
  mkEnv [helpers] (fun _ => None) [] (fun _ => O) (fun _ => true) 1%nat.

(** Giveaway "Autumn", open and joined by members 100 and 200, after
    giveaway "Spring" was finished with member 100 as its winner. *)
Definition autumn : Cog :=
  Eval vm_compute in
  match runs guild [Create "Spring" 1 [] true; Join (request 100); Finish;
                    Create "Autumn" 1 [] true;
                    Join (request 100); Join (request 200)] installed with
  | Some c => c
  | None => installed
  end.

(** A guild like [guild] where member 200 takes no direct message. *)
Definition guild_dm_closed : Env :=
  mkEnv [helpers] (fun i => Some (member i)) [] (fun _ => 1%nat)
        (fun m => negb (member_id m =? 200)) 1%nat.

(** The messages of [finish] when it announces the winners [ws], with [n]
    entries left. *)
Definition announcement (env : Env) (ws : list Member) (n : nat)
    : list Reply :=
  [AndTheWinnerIs] ++ map Mention ws ++ [Congratulations] ++
  map FailedDM (filter (fun user => negb (dm_ok env user)) ws) ++
  [Finished n].

(** The list [pool] was loaded from the entries of giveaway [g], of which
    the session [l] has deleted none but entries of members the guild no
    longer has. *)
Definition loaded (env : Env) (g : Z) (pool : list Entry.t) (l : Ledger)
    : Prop :=
  (forall x, In x (raffle_entries g l) -> In x pool) /\
  (forall x, In x pool -> get_member env (Entry.id x) <> None ->
             In x (raffle_entries g l)).

(** A guild where role 9 is a default role, and the request of a member who
    holds that role and no other. *)
Definition guild_with_default : Env :=
  mkEnv [helpers] (fun i => Some (member i)) [9] (fun _ => O) (fun _ => true)
        1%nat.
Definition veteran_request (i : Z) : Context :=
  mkContext (mkMember i [mkRole 9 "veterans"]) true true.

(** * Properties *)

(** ** Reasoning about commands *)

Lemma returns_bind {A B} (m : M A) (k : A -> M B) c Q :
  returns m c (fun a c' => returns (k a) c' Q) -> returns (bind m k) c Q.
Proof.
  intros (a & c' & Hm & b & c'' & Hk & HQ).
  exists b, c''. unfold bind. rewrite Hm. auto.
Qed.

Lemma proceeds_after {A} (r : Res A) c : proceeds r = Some c -> after r = Some c.
Proof.
  destruct r as [a c0|e c0|]; simpl; auto. destruct (fatal e); auto. discriminate.
Qed.

Lemma keeps_bind {A B} I (m : M A) (k : A -> M B) :
  keeps I m -> (forall a, keeps I (k a)) -> keeps I (bind m k).
Proof.
  intros Hm Hk c c' HI. unfold bind.
  destruct (m c) as [a c1|e c1|] eqn:E; simpl; intros H.
  - eapply Hk; [eapply Hm; [exact HI | rewrite E; reflexivity] | exact H].
  - eapply Hm; [exact HI | rewrite E; exact H].
  - discriminate.
Qed.

Lemma keeps_ret {A} I (a : A) : keeps I (ret a).
Proof. intros c c' HI H. inversion H; subst; exact HI. Qed.

Lemma keeps_raise {A} I e : keeps I (@raise A e).
Proof. intros c c' HI H. inversion H; subst; exact HI. Qed.

Lemma keeps_gets {A} I (f : Cog -> A) : keeps I (gets f).
Proof. intros c c' HI H. inversion H; subst; exact HI. Qed.

Lemma keeps_update I f : (forall c, I c -> I (f c)) -> keeps I (update f).
Proof. intros Hf c c' HI H. inversion H; subst; auto. Qed.

Lemma keeps_never {A} I : keeps I (fun _ : Cog => @Never A).
Proof. intros c c' _ H. discriminate. Qed.

Lemma keeps_when I b m : keeps I m -> keeps I (when b m).
Proof. destruct b; simpl; auto using keeps_ret. Qed.

Lemma keeps_for_each {A} I (xs : list A) body :
  (forall x, keeps I (body x)) -> keeps I (for_each xs body).
Proof.
  intros H. induction xs; simpl.
  - apply keeps_ret.
  - apply keeps_bind; auto.
Qed.

(** ** The ledger *)

Lemma find_giveaway_id g l r : find_giveaway g l = Some r -> Giveaway.id r = g.
Proof.
  unfold find_giveaway. intros H. apply find_some in H. destruct H as [_ H].
  apply Z.eqb_eq in H. exact H.
Qed.

Lemma find_update_giveaway g f l :
  (forall r, Giveaway.id (f r) = Giveaway.id r) ->
  find_giveaway g (update_giveaway g f l) = option_map f (find_giveaway g l).
Proof.
  intros Hf. unfold find_giveaway, update_giveaway. simpl.
  induction (giveaways l) as [|r rs IH]; simpl; [reflexivity|].
  destruct (Giveaway.id r =? g) eqn:E.
  - rewrite Hf, E. reflexivity.
  - rewrite E. exact IH.
Qed.

Lemma next_id_update_giveaway g f l :
  (forall r, Giveaway.id (f r) = Giveaway.id r) ->
  next_id (update_giveaway g f l) = next_id l.
Proof.
  intros Hf. unfold next_id, update_giveaway. cbn [giveaways with_giveaways].
  rewrite map_map.
  replace (map (fun x => Giveaway.id (if Giveaway.id x =? g then f x else x))
               (giveaways l))
    with (map Giveaway.id (giveaways l)); [reflexivity|].
  apply map_ext. intros r. destruct (Giveaway.id r =? g); auto.
Qed.

Lemma the_raffle_ok c g r :
  raffle c = Some g -> find_giveaway g (s c) = Some r -> the_raffle c = Ok r c.
Proof.
  intros Hr Hf. unfold the_raffle, bind, gets, ret. rewrite Hr. simpl.
  rewrite Hf. reflexivity.
Qed.

Lemma the_raffle_none c : raffle c = None -> the_raffle c = Raise AttributeError c.
Proof. intros Hr. unfold the_raffle, bind, gets. rewrite Hr. reflexivity. Qed.

(** ** [get_winner] *)

(** One round of the loop, spelt out. *)
Lemma get_winner_loop_eq env pool rounds c :
  get_winner_loop env pool rounds c =
  match pool with
  | [] => Ok None c
  | e0 :: _ =>
      match rounds with
      | O => Never
      | S rounds' =>
          let e := choice env c pool e0 in
          match get_member env (Entry.id e) with
          | Some w => Ok (Some w) (won e c)
          | None => get_winner_loop env pool rounds' (dropped e c)
          end
      end
  end.
Proof.
  destruct pool as [|e0 rest]; [destruct rounds; reflexivity|].
  destruct rounds as [|rounds]; [reflexivity|].
  cbn [get_winner_loop]. unfold bind, gets, update, choice. cbv zeta.
  destruct (get_member env _); reflexivity.
Qed.

(** [get_winner] runs the loop on the entries the session has. *)
Lemma get_winner_eq env c g r :
  raffle c = Some g -> find_giveaway g (s c) = Some r ->
  get_winner env c = get_winner_loop env (raffle_entries g (s c)) (fuel env) c.
Proof.
  intros Hr Hf. unfold get_winner. unfold bind at 1.
  rewrite (the_raffle_ok _ _ _ Hr Hf). unfold bind, gets.
  rewrite (find_giveaway_id _ _ _ Hf). reflexivity.
Qed.

Lemma same_key_refl e : Entry.same_key e e = true.
Proof. unfold Entry.same_key. rewrite !Z.eqb_refl. reflexivity. Qed.

Lemma same_key_id a b : Entry.same_key a b = true -> Entry.id a = Entry.id b.
Proof.
  unfold Entry.same_key. intros H. apply andb_true_iff in H.
  destruct H as [H _]. apply Z.eqb_eq in H. exact H.
Qed.

Lemma raffle_entries_delete g e l :
  raffle_entries g (delete_entry e l) =
  filter (fun x => negb (Entry.same_key x e)) (raffle_entries g l).
Proof.
  unfold raffle_entries, delete_entry. simpl.
  induction (entries l) as [|x xs IH]; simpl; [reflexivity|].
  destruct (Entry.same_key x e) eqn:K, (Entry.giveaway x =? g) eqn:E; simpl;
    rewrite ?E, ?K; simpl; rewrite IH; reflexivity.
Qed.

Lemma raffle_entries_mark g e l :
  raffle_entries g (mark_winner e l) =
  map (fun x => if Entry.same_key x e then Entry.with_winner true x else x)
      (raffle_entries g l).
Proof.
  unfold raffle_entries, mark_winner. simpl.
  induction (entries l) as [|x xs IH]; simpl; [reflexivity|].
  destruct (Entry.same_key x e) eqn:K; simpl;
    destruct (Entry.giveaway x =? g); simpl; rewrite ?K, IH; reflexivity.
Qed.

Lemma draw_frame_refl c : draw_frame c c.
Proof. unfold draw_frame. repeat split; auto. Qed.

Lemma draw_frame_trans a b c : draw_frame a b -> draw_frame b c -> draw_frame a c.
Proof.
  unfold draw_frame. intros H1 H2.
  destruct H1 as (?&?&?&?&?&?&?&?&?&Hd1), H2 as (?&?&?&?&?&?&?&?&?&Hd2).
  repeat split; try congruence; [lia|].
  destruct Hd2 as [Hd2|Hd2]; [|right; exact Hd2].
  destruct Hd1 as [Hd1|Hd1]; [left|right]; congruence.
Qed.

Lemma draw_frame_won e c : draw_frame c (won e c).
Proof.
  unfold draw_frame, won. simpl. repeat split; auto.
  rewrite length_map. lia.
Qed.

Lemma draw_frame_dropped e c : draw_frame c (dropped e c).
Proof.
  unfold draw_frame, dropped. simpl. repeat split; auto.
  apply filter_length_le.
Qed.

Lemma draw_frame_find g c c' :
  draw_frame c c' -> find_giveaway g (s c') = find_giveaway g (s c).
Proof.
  unfold draw_frame, find_giveaway. intros (?&?&?&?&?&H&?). rewrite H. reflexivity.
Qed.

Lemma loaded_refl env g l : loaded env g (raffle_entries g l) l.
Proof. split; auto. Qed.

Lemma loaded_dropped env g pool e c :
  loaded env g pool (s c) -> get_member env (Entry.id e) = None ->
  loaded env g pool (s (dropped e c)).
Proof.
  intros [H1 H2] He. change (s (dropped e c)) with (delete_entry e (s c)).
  split; intros x; rewrite raffle_entries_delete, filter_In.
  - intros [Hx _]. auto.
  - intros Hx Hm. split; [auto|].
    destruct (Entry.same_key x e) eqn:K; [|reflexivity].
    apply same_key_id in K. congruence.
Qed.

Lemma choice_in_pool env c pool e0 :
  pool <> [] -> In (choice env c pool e0) pool.
Proof.
  intros Hne. unfold choice. apply nth_In. apply Nat.mod_upper_bound.
  destruct pool; [congruence | simpl; lia].
Qed.

(** What the loop of [get_winner] has done when it returns. *)
Lemma get_winner_loop_post env g pool rounds :
  forall c w c',
    loaded env g pool (s c) ->
    get_winner_loop env pool rounds c = Ok w c' ->
    draw_frame c c' /\
    incl (map Entry.id (raffle_entries g (s c')))
         (map Entry.id (raffle_entries g (s c))) /\
    match w with
    | None => pool = [] /\ c' = c
    | Some m =>
        (exists e, In e (raffle_entries g (s c)) /\
                   get_member env (Entry.id e) = Some m) /\
        (exists e, In e (raffle_entries g (s c')) /\
                   get_member env (Entry.id e) = Some m)
    end.
Proof.
  induction rounds as [|rounds IH]; intros c w c' Hl;
    rewrite get_winner_loop_eq; destruct pool as [|e0 rest] eqn:E;
    try discriminate;
    try (intros H; inversion H; subst;
         split; [apply draw_frame_refl|]; split; [apply incl_refl|]; auto).
  cbv zeta. rewrite <- E in *.
  assert (Hin : In (choice env c pool e0) pool)
    by (apply choice_in_pool; rewrite E; discriminate).
  set (e := choice env c pool e0) in *.
  destruct (get_member env (Entry.id e)) as [m|] eqn:Hm.
  - intros H. inversion H; subst w c'. clear H.
    assert (He : In e (raffle_entries g (s c)))
      by (apply Hl; [exact Hin | congruence]).
    split; [apply draw_frame_won|].
    change (s (won e c)) with (mark_winner e (s c)).
    rewrite raffle_entries_mark. split; [|split].
    + rewrite map_map. intros i Hi. apply in_map_iff in Hi.
      destruct Hi as (x & <- & Hx).
      replace (Entry.id (if Entry.same_key x e
                         then Entry.with_winner true x else x))
        with (Entry.id x) by (destruct (Entry.same_key x e); reflexivity).
      apply in_map. exact Hx.
    + exists e. auto.
    + exists (Entry.with_winner true e). split; [|exact Hm].
      apply in_map_iff. exists e. rewrite same_key_refl. auto.
  - intros H.
    destruct (IH (dropped e c) w c' (loaded_dropped env g pool e c Hl Hm) H)
      as (Hfr & Hids & Hw).
    assert (Hsub : forall x, In x (raffle_entries g (s (dropped e c))) ->
                             In x (raffle_entries g (s c))).
    { intros x. change (s (dropped e c)) with (delete_entry e (s c)).
      rewrite raffle_entries_delete, filter_In. tauto. }
    split; [eapply draw_frame_trans; [apply draw_frame_dropped | exact Hfr]|].
    split.
    + intros i Hi. apply Hids in Hi. apply in_map_iff in Hi.
      destruct Hi as (x & <- & Hx). apply in_map. auto.
    + destruct w as [m|].
      * destruct Hw as [(x & Hx & Hxm) Hafter]. split; [|exact Hafter].
        exists x. auto.
      * destruct Hw as [Hnil _]. rewrite E in Hnil. discriminate.
Qed.

(** What [get_winner] has done when it returns. *)
Lemma get_winner_post env g r c w c' :
  raffle c = Some g -> find_giveaway g (s c) = Some r ->
  get_winner env c = Ok w c' ->
  winner_post env g c w c'.
Proof.
  intros Hr Hf. rewrite (get_winner_eq env c g r Hr Hf). intros H.
  apply (get_winner_loop_post env g _ _ c w c' (loaded_refl env g (s c)) H).
Qed.

(** [get_winner] returns at the first round when the entry chosen is of a
    member of the guild, and at once when the giveaway has no entry. *)
Lemma get_winner_returns env g r c :
  raffle c = Some g -> find_giveaway g (s c) = Some r ->
  (forall x, In x (raffle_entries g (s c)) ->
             get_member env (Entry.id x) <> None) ->
  (1 <= fuel env)%nat ->
  exists w c', get_winner env c = Ok w c'.
Proof.
  intros Hr Hf Hall Hfuel. rewrite (get_winner_eq env c g r Hr Hf).
  rewrite get_winner_loop_eq.
  destruct (raffle_entries g (s c)) as [|e0 rest] eqn:E; [eauto|].
  destruct (fuel env) as [|n]; [lia|]. cbv zeta.
  assert (Hin : In (choice env c (e0 :: rest) e0) (e0 :: rest))
    by (apply choice_in_pool; discriminate).
  specialize (Hall _ Hin).
  destruct (get_member env _); [eauto | congruence].
Qed.

(** [get_winner] does not return when the giveaway has entries, none of them
    of a member of the guild, however many rounds it is followed for. *)
Lemma get_winner_loop_never env pool rounds :
  forall c,
    pool <> [] ->
    (forall x, In x pool -> get_member env (Entry.id x) = None) ->
    get_winner_loop env pool rounds c = Never.
Proof.
  induction rounds as [|rounds IH]; intros c Hne Hall;
    rewrite get_winner_loop_eq; destruct pool as [|e0 rest] eqn:E;
    try congruence.
  cbv zeta. rewrite <- E in *.
  rewrite (Hall (choice env c pool e0))
    by (apply choice_in_pool; rewrite E; discriminate).
  apply IH; assumption.
Qed.

(** The loop returns or is still running: it raises nothing. *)
Lemma get_winner_loop_total env pool rounds :
  forall c,
    (exists w c', get_winner_loop env pool rounds c = Ok w c') \/
    get_winner_loop env pool rounds c = Never.
Proof.
  induction rounds as [|rounds IH]; intros c; rewrite get_winner_loop_eq;
    destruct pool as [|e0 rest]; eauto.
  cbv zeta. destruct (get_member env _); eauto.
Qed.

(** ** The draw *)

Lemma bind_inv {A B} (m : M A) (k : A -> M B) c b c' :
  bind m k c = Ok b c' -> exists a c1, m c = Ok a c1 /\ k a c1 = Ok b c'.
Proof.
  unfold bind. destruct (m c) as [a c1| |]; try discriminate. eauto.
Qed.

Lemma draw_inv env n c ws c' :
  draw env (S n) c = Ok ws c' ->
  exists w c1 ws1,
    get_winner env c = Ok w c1 /\ draw env n c1 = Ok ws1 c' /\ ws = w :: ws1.
Proof.
  cbn [draw]. intros H.
  apply bind_inv in H. destruct H as (w & c1 & Hw & H).
  apply bind_inv in H. destruct H as (ws1 & c2 & Hd & H).
  inversion H; subst. eauto 6.
Qed.

Lemma entry_of_id g (c c' : Cog) i :
  incl (map Entry.id (raffle_entries g (s c')))
       (map Entry.id (raffle_entries g (s c))) ->
  (exists e, In e (raffle_entries g (s c')) /\ Entry.id e = i) ->
  exists e, In e (raffle_entries g (s c)) /\ Entry.id e = i.
Proof.
  intros Hincl (e & He & <-).
  assert (H : In (Entry.id e) (map Entry.id (raffle_entries g (s c)))).
  { apply Hincl. apply in_map. exact He. }
  apply in_map_iff in H. destruct H as (e0 & H0 & Hin). eauto.
Qed.

(** What the loop of [finish] has done when it returns, whatever the
    count and the generator. *)
Lemma draw_post_holds env g r n :
  forall c ws c',
    raffle c = Some g -> find_giveaway g (s c) = Some r ->
    draw env n c = Ok ws c' ->
    draw_post env g n c ws c'.
Proof.
  induction n as [|n IH]; intros c ws c' Hr Hf Hd.
  - inversion Hd; subst. unfold draw_post. simpl.
    repeat split; auto using draw_frame_refl. intros m [].
  - apply draw_inv in Hd. destruct Hd as (w & c1 & ws1 & Hw & Hd & ->).
    destruct (get_winner_post env g r c w c1 Hr Hf Hw)
      as (Hfr1 & Hids & Hpost).
    assert (Hr1 : raffle c1 = Some g) by (destruct Hfr1 as (H & _); congruence).
    assert (Hf1 : find_giveaway g (s c1) = Some r)
      by (rewrite (draw_frame_find g c c1 Hfr1); exact Hf).
    destruct (IH c1 ws1 c' Hr1 Hf1 Hd) as (Hfr2 & Hlen & Hfrom & Hfull & Hnone).
    assert (Hback : forall m,
              (exists e, In e (raffle_entries g (s c1)) /\
                         get_member env (Entry.id e) = Some m) ->
              exists e, In e (raffle_entries g (s c)) /\
                        get_member env (Entry.id e) = Some m).
    { intros m (e & He & Hm).
      destruct (entry_of_id g c c1 (Entry.id e) Hids) as (e0 & He0 & Hid); eauto.
      exists e0. rewrite Hid. auto. }
    split; [eapply draw_frame_trans; eauto|].
    split; [simpl; congruence|].
    destruct w as [m0|]; simpl.
    + destruct Hpost as [Hin0 Hstill]. split; [|split].
      * intros m [<-|Hm]; [exact Hin0 | apply Hback, Hfrom, Hm].
      * intros _. f_equal. apply Hfull.
        destruct Hstill as (e & He & Hm). exists e. split; congruence.
      * intros Hall. destruct Hin0 as (e & He & Hm). apply Hall in He. congruence.
    + destruct Hpost as [Hnil ->]. split; [|split].
      * intros m Hm. apply Hfrom, Hm.
      * intros (e & He & Hm). rewrite Hnil in He. destruct He.
      * intros _. apply Hnone. rewrite Hnil. intros x [].
Qed.

(** The loop of [finish] returns when every entry of the giveaway is of a
    member of the guild, given one round for each call of [get_winner]. *)
Lemma draw_returns env g r n :
  forall c,
    raffle c = Some g -> find_giveaway g (s c) = Some r ->
    (forall x, In x (raffle_entries g (s c)) ->
               get_member env (Entry.id x) <> None) ->
    (1 <= fuel env)%nat ->
    exists ws c', draw env n c = Ok ws c'.
Proof.
  induction n as [|n IH]; intros c Hr Hf Hall Hfuel.
  - exists [], c. reflexivity.
  - destruct (get_winner_returns env g r c Hr Hf Hall Hfuel) as (w & c1 & Hw).
    destruct (get_winner_post env g r c w c1 Hr Hf Hw)
      as (Hfr1 & Hids & _).
    assert (Hr1 : raffle c1 = Some g) by (destruct Hfr1 as (H & _); congruence).
    assert (Hf1 : find_giveaway g (s c1) = Some r)
      by (rewrite (draw_frame_find g c c1 Hfr1); exact Hf).
    destruct (IH c1 Hr1 Hf1) as (ws & c2 & Hd); [|exact Hfuel|].
    { intros x Hx.
      destruct (entry_of_id g c c1 (Entry.id x) Hids) as (y & Hy & Hid); eauto.
      rewrite <- Hid. auto. }
    exists (w :: ws), c2. cbn [draw]. unfold bind. rewrite Hw, Hd. reflexivity.
Qed.

(** The draw returns no more winners than rounds. *)
Lemma resolved_length ws : (length (resolved ws) <= length ws)%nat.
Proof.
  induction ws as [|[m|] ws IH]; simpl; lia.
Qed.

(** ** Stepping through a command *)

Lemma bind_ok {A B} (m : M A) (k : A -> M B) c a c' :
  m c = Ok a c' -> bind m k c = k a c'.
Proof. intros H. unfold bind. rewrite H. reflexivity. Qed.

Lemma bind_bind {A B C} (m : M A) (k1 : A -> M B) (k2 : B -> M C) c :
  bind (bind m k1) k2 c = bind m (fun a => bind (k1 a) k2) c.
Proof. unfold bind. destruct (m c); reflexivity. Qed.

Lemma bind_raise {A B} (m : M A) (k : A -> M B) c e c' :
  m c = Raise e c' -> bind m k c = Raise e c'.
Proof. intros H. unfold bind. rewrite H. reflexivity. Qed.

(** A primitive step, run by computation. *)
Ltac prim := erewrite bind_ok by reflexivity.

Lemma ongoing_raffle_ok c g r :
  raffle c = Some g -> find_giveaway g (s c) = Some r ->
  Giveaway.ongoing r = true -> ongoing_raffle c = Ok tt c.
Proof.
  intros Hr Hf Ho. unfold ongoing_raffle. prim. rewrite Hr.
  rewrite (bind_ok _ _ _ _ _ (the_raffle_ok c g r Hr Hf)). rewrite Ho. reflexivity.
Qed.

Lemma commit_int_ok v c :
  fits v = true -> commit_int v c = Ok tt (set_db (s c) c).
Proof. intros H. unfold commit_int. rewrite H. reflexivity. Qed.

Lemma commit_int_fails v c :
  fits v = false -> commit_int v c = Raise OverflowError (set_s (db c) c).
Proof. intros H. unfold commit_int. rewrite H. reflexivity. Qed.

Lemma ongoing_raffle_cases c :
  (exists e, ongoing_raffle c = Raise e c) \/
  (ongoing_raffle c = Ok tt c /\ exists g, is_open c g).
Proof.
  destruct (raffle c) as [g|] eqn:Hr.
  2:{ left. exists NoOnGoingRaffle. unfold ongoing_raffle. prim. rewrite Hr.
      reflexivity. }
  destruct (find_giveaway g (s c)) as [r|] eqn:E.
  2:{ left. exists ObjectDeletedError. unfold ongoing_raffle. prim. rewrite Hr.
      apply bind_raise. unfold the_raffle. prim. rewrite Hr. prim. rewrite E.
      reflexivity. }
  destruct (Giveaway.ongoing r) eqn:O.
  - right. split; [apply (ongoing_raffle_ok c g r); assumption|].
    exists g. split; [exact Hr|]. exists r. auto.
  - left. exists NoOnGoingRaffle. unfold ongoing_raffle. prim. rewrite Hr.
    rewrite (bind_ok _ _ _ _ _ (the_raffle_ok c g r Hr E)). rewrite O. reflexivity.
Qed.

Lemma ongoing_raffle_not_fatal c e c1 :
  ongoing_raffle c = Raise e c1 -> fatal e = false.
Proof.
  intros H. unfold ongoing_raffle in H. erewrite bind_ok in H by reflexivity.
  destruct (raffle c) as [g|] eqn:Hr; [|inversion H; reflexivity].
  destruct (find_giveaway g (s c)) as [r|] eqn:Hf.
  - rewrite (bind_ok _ _ _ _ _ (the_raffle_ok c g r Hr Hf)) in H.
    destruct (Giveaway.ongoing r); inversion H; reflexivity.
  - assert (Hg : the_raffle c = Raise ObjectDeletedError c).
    { unfold the_raffle. prim. rewrite Hr. prim. rewrite Hf. reflexivity. }
    rewrite (bind_raise _ _ _ _ _ Hg) in H. inversion H; reflexivity.
Qed.

(** [winner_count] with a value sqlite cannot hold writes nothing: it is
    refused by the check, or ends in the failed commit. *)
Lemma winner_count_unfit value c :
  fits value = false ->
  (exists e, winner_count value c = Raise e c /\ fatal e = false) \/
  winner_count value c = Raise OverflowError (set_s (db c) c).
Proof.
  intros Hv. unfold winner_count.
  destruct (ongoing_raffle_cases c) as [(e & He)|(Hok & g & Hr & r & Hf & Ho)].
  - left. exists e. split; [apply bind_raise; exact He|].
    apply (ongoing_raffle_not_fatal c e c He).
  - right. rewrite (bind_ok _ _ _ _ _ Hok).
    rewrite (bind_ok _ _ _ _ _ (the_raffle_ok c g r Hr Hf)). prim.
    rewrite (bind_raise _ _ _ _ _ (commit_int_fails value _ Hv)). reflexivity.
Qed.

Lemma set_ongoing_ok b c g r :
  raffle c = Some g -> find_giveaway g (s c) = Some r ->
  set_ongoing b c =
  Ok tt (set_s (update_giveaway g (Giveaway.with_ongoing b) (s c)) c).
Proof.
  intros Hr Hf. unfold set_ongoing.
  rewrite (bind_ok _ _ _ _ _ (the_raffle_ok c g r Hr Hf)).
  rewrite (find_giveaway_id _ _ _ Hf). reflexivity.
Qed.

Lemma silent_refl c : silent c c.
Proof. unfold silent. repeat split; reflexivity. Qed.

Lemma silent_trans a b c : silent a b -> silent b c -> silent a c.
Proof.
  unfold silent. intros (?&?&?&?&?&?&?) (?&?&?&?&?&?&?).
  repeat split; congruence.
Qed.

Lemma silent_send r c : silent c (set_sent (sent c ++ [r]) c).
Proof. unfold silent. repeat split; reflexivity. Qed.

Lemma for_each_silent {A} (body : A -> M unit) :
  (forall x c, returns (body x) c (fun _ c' => silent c c')) ->
  forall xs c, returns (for_each xs body) c (fun _ c' => silent c c').
Proof.
  intros Hb. induction xs as [|x xs IH]; intros c; simpl.
  - exists tt, c. split; [reflexivity | apply silent_refl].
  - apply returns_bind. destruct (Hb x c) as ([] & c1 & H1 & S1).
    exists tt, c1. split; [exact H1|].
    destruct (IH c1) as ([] & c2 & H2 & S2).
    exists tt, c2. split; [exact H2 | eapply silent_trans; eauto].
Qed.

(** ** [finish] *)

Lemma ongoing_flag_update g b l r :
  find_giveaway g l = Some r ->
  ongoing_flag g (update_giveaway g (Giveaway.with_ongoing b) l) = Some b.
Proof.
  intros Hf. unfold ongoing_flag. rewrite find_update_giveaway by reflexivity.
  rewrite Hf. reflexivity.
Qed.

(** The part of [finish] after the draw: it keeps the giveaway in the slot
    and raises its flag again when there is no winner for a positive count,
    and commits and empties the slot otherwise. *)
Lemma report_returns env ws c g r :
  raffle c = Some g -> find_giveaway g (s c) = Some r ->
  returns (report env ws) c (fun _ c' =>
    if (Z.of_nat (length ws) <? Giveaway.win_count r) && is_nil ws
    then raffle c' = Some g /\ ongoing_flag g (s c') = Some true /\
         db c' = db c /\ queue c' = queue c /\ roles c' = roles c /\
         s c' = update_giveaway g (Giveaway.with_ongoing true) (s c)
    else raffle c' = None /\ s c' = s c /\ db c' = s c /\
         queue c' = queue c /\ roles c' = roles c).
Proof.
  intros Hr Hf. unfold returns, report.
  rewrite (bind_ok _ _ _ _ _ (the_raffle_ok c g r Hr Hf)). cbv zeta.
  set (short := Z.of_nat (length ws) <? Giveaway.win_count r).
  assert (Hwhen : returns (when short (send NotEnough)) c
                    (fun _ c' => silent c c')).
  { destruct short; simpl.
    - exists tt, (set_sent (sent c ++ [NotEnough]) c).
      split; [reflexivity | apply silent_send].
    - exists tt, c. split; [reflexivity | apply silent_refl]. }
  destruct Hwhen as ([] & c1 & H1 & S1). rewrite (bind_ok _ _ _ _ _ H1).
  assert (Hr1 : raffle c1 = Some g) by (destruct S1 as (?&?&?&?); congruence).
  assert (Hs1 : s c1 = s c) by (destruct S1 as (?&?&?); congruence).
  assert (Hf1 : find_giveaway g (s c1) = Some r) by (rewrite Hs1; exact Hf).
  destruct (short && is_nil ws).
  - prim. rewrite (set_ongoing_ok true _ g r) by (simpl; auto).
    eexists _, _. split; [reflexivity|]. simpl.
    destruct S1 as (?&?&?&?&?&?&?).
    repeat split; auto. 2: congruence.
    rewrite Hs1. eapply ongoing_flag_update; eauto.
  - prim.
    destruct (for_each_silent (fun user => send (Mention user))
                (fun x c0 => ex_intro _ tt (ex_intro _ _ (conj eq_refl (silent_send _ c0))))
                ws (set_sent (sent c1 ++ [AndTheWinnerIs]) c1))
      as ([] & c2 & H2 & S2).
    rewrite (bind_ok _ _ _ _ _ H2). prim.
    set (c3 := set_sent (sent c2 ++ [Congratulations]) c2).
    assert (Hdm : forall x c0,
               returns ((fun user => if dm_ok env user then ret tt
                                     else send (FailedDM user)) x) c0
                       (fun _ c' => silent c0 c')).
    { intros x c0. simpl. destruct (dm_ok env x).
      - exists tt, c0. split; [reflexivity | apply silent_refl].
      - eexists tt, _. split; [reflexivity | apply silent_send]. }
    destruct (for_each_silent _ Hdm ws c3) as ([] & c4 & H4 & S4).
    rewrite (bind_ok _ _ _ _ _ H4). prim.
    assert (S14 : silent c c4).
    { eapply silent_trans; [exact S1|]. eapply silent_trans; [|exact S4].
      eapply silent_trans; [|apply silent_send].
      eapply silent_trans; [|exact S2]. apply silent_send. }
    destruct S14 as (?&Hs4&Hr4&?&?&?&?).
    rewrite (bind_ok _ _ _ _ _ (the_raffle_ok (set_db (s c4) c4) g r
               ltac:(simpl; congruence) ltac:(simpl; congruence))).
    prim. prim.
    eexists _, _. split; [reflexivity|]. simpl. repeat split; congruence.
Qed.

(** [finish] up to the draw, on an open giveaway and an empty queue: the
    draw is made in the state [closed g c]. *)
Lemma close_and_draw_eq env c g r :
  raffle c = Some g -> find_giveaway g (s c) = Some r ->
  Giveaway.ongoing r = true -> queue c = [] ->
  close_and_draw env c =
  bind (draw env (Z.to_nat (Giveaway.win_count r)))
       (fun drawn => ret (resolved drawn)) (closed g c).
Proof.
  intros Hr Hf Ho Hq. unfold close_and_draw.
  rewrite (bind_ok _ _ _ _ _ (ongoing_raffle_ok c g r Hr Hf Ho)).
  rewrite (bind_ok _ _ _ _ _ (set_ongoing_ok false c g r Hr Hf)).
  prim. fold (closed g c).
  assert (Hq' : queue_empty (closed g c) = Ok tt (closed g c)).
  { unfold queue_empty. simpl. rewrite Hq. reflexivity. }
  rewrite (bind_ok _ _ _ _ _ Hq').
  assert (Hr' : raffle (closed g c) = Some g) by exact Hr.
  assert (Hf' : find_giveaway g (s (closed g c)) =
                Some (Giveaway.with_ongoing false r)).
  { unfold closed. simpl. rewrite find_update_giveaway by reflexivity.
    rewrite Hf. reflexivity. }
  rewrite (bind_ok _ _ _ _ _ (the_raffle_ok _ g _ Hr' Hf')).
  reflexivity.
Qed.

Lemma find_closed g c r :
  find_giveaway g (s c) = Some r ->
  find_giveaway g (s (closed g c)) = Some (Giveaway.with_ongoing false r).
Proof.
  intros Hf. unfold closed. simpl. rewrite find_update_giveaway by reflexivity.
  rewrite Hf. reflexivity.
Qed.

(** When [finish] gets past the draw, its winners are those of a draw made
    in the state [closed g c]. *)
Lemma close_and_draw_post env c g r ws c1 :
  raffle c = Some g -> find_giveaway g (s c) = Some r ->
  Giveaway.ongoing r = true -> queue c = [] ->
  close_and_draw env c = Ok ws c1 ->
  exists drawn,
    ws = resolved drawn /\
    draw env (Z.to_nat (Giveaway.win_count r)) (closed g c) = Ok drawn c1 /\
    draw_post env g (Z.to_nat (Giveaway.win_count r)) (closed g c) drawn c1 /\
    raffle c1 = Some g /\
    find_giveaway g (s c1) = Some (Giveaway.with_ongoing false r).
Proof.
  intros Hr Hf Ho Hq. rewrite (close_and_draw_eq env c g r Hr Hf Ho Hq).
  intros H. apply bind_inv in H. destruct H as (drawn & c2 & Hd & H).
  inversion H; subst ws c2. clear H.
  pose proof (find_closed g c r Hf) as Hf'.
  pose proof (draw_post_holds env g _ _ (closed g c) drawn c1 Hr Hf' Hd) as Hpost.
  exists drawn. repeat split; auto; try apply Hpost.
  - destruct Hpost as ((H & _) & _). rewrite H. exact Hr.
  - destruct Hpost as (Hfr & _). rewrite (draw_frame_find g _ _ Hfr). exact Hf'.
Qed.

(** [finish] gets past the draw when every entry of the giveaway is of a
    member of the guild. *)
Lemma close_and_draw_returns env c g r :
  raffle c = Some g -> find_giveaway g (s c) = Some r ->
  Giveaway.ongoing r = true -> queue c = [] ->
  (forall x, In x (raffle_entries g (s c)) ->
             get_member env (Entry.id x) <> None) ->
  (1 <= fuel env)%nat ->
  exists ws c1, close_and_draw env c = Ok ws c1.
Proof.
  intros Hr Hf Ho Hq Hall Hfuel.
  rewrite (close_and_draw_eq env c g r Hr Hf Ho Hq).
  destruct (draw_returns env g _ (Z.to_nat (Giveaway.win_count r)) (closed g c)
              Hr (find_closed g c r Hf) Hall Hfuel) as (drawn & c1 & Hd).
  exists (resolved drawn), c1. unfold bind. rewrite Hd. reflexivity.
Qed.

(** The draw returns or is still running: it raises nothing. *)
Lemma draw_total env g r n :
  forall c,
    raffle c = Some g -> find_giveaway g (s c) = Some r ->
    (exists ws c', draw env n c = Ok ws c') \/ draw env n c = Never.
Proof.
  induction n as [|n IH]; intros c Hr Hf; [left; exists [], c; reflexivity|].
  cbn [draw].
  pose proof (get_winner_loop_total env (raffle_entries g (s c)) (fuel env) c) as Hw.
  rewrite <- (get_winner_eq env c g r Hr Hf) in Hw.
  destruct Hw as [(w & c1 & Hw)|Hw];
    [|right; unfold bind; rewrite Hw; reflexivity].
  rewrite (bind_ok _ _ _ _ _ Hw).
  destruct (get_winner_post env g r c w c1 Hr Hf Hw) as (Hfr & _).
  assert (Hr1 : raffle c1 = Some g) by (destruct Hfr as (H & _); congruence).
  assert (Hf1 : find_giveaway g (s c1) = Some r)
    by (rewrite (draw_frame_find g c c1 Hfr); exact Hf).
  destruct (IH c1 Hr1 Hf1) as [(ws & c2 & Hd)|Hd].
  - left. exists (w :: ws), c2. rewrite (bind_ok _ _ _ _ _ Hd). reflexivity.
  - right. unfold bind. rewrite Hd. reflexivity.
Qed.

Lemma close_and_draw_total env c g r :
  raffle c = Some g -> find_giveaway g (s c) = Some r ->
  Giveaway.ongoing r = true -> queue c = [] ->
  (exists ws c1, close_and_draw env c = Ok ws c1) \/
  close_and_draw env c = Never.
Proof.
  intros Hr Hf Ho Hq. rewrite (close_and_draw_eq env c g r Hr Hf Ho Hq).
  unfold bind.
  destruct (draw_total env g _ (Z.to_nat (Giveaway.win_count r)) (closed g c)
              Hr (find_closed g c r Hf)) as [(ws & c1 & Hd)|Hd];
    rewrite Hd; eauto.
Qed.

(** [finish] on an open giveaway and an empty queue returns or is still in
    the draw: it raises nothing. *)
Lemma finish_total env c g :
  is_open c g -> queue c = [] ->
  (exists c', finish env c = Ok tt c') \/ finish env c = Never.
Proof.
  intros (Hr & r & Hf & Ho) Hq. unfold finish. unfold bind.
  destruct (close_and_draw_total env c g r Hr Hf Ho Hq) as [(ws & c1 & Hcd)|Hcd];
    rewrite Hcd; [|right; reflexivity].
  destruct (close_and_draw_post env c g r ws c1 Hr Hf Ho Hq Hcd)
    as (_ & _ & _ & _ & Hr1 & Hf1).
  destruct (report_returns env ws c1 g _ Hr1 Hf1) as ([] & c' & Hrep & _).
  left. exists c'. exact Hrep.
Qed.

(** [finish] is its two parts. *)
Lemma finish_inv env c c' :
  finish env c = Ok tt c' ->
  exists ws c1, close_and_draw env c = Ok ws c1 /\ report env ws c1 = Ok tt c'.
Proof. unfold finish. apply bind_inv. Qed.

(** [finish] returns when every entry of the giveaway is of a member of the
    guild. *)
Lemma finish_returns env c g :
  is_open c g -> queue c = [] ->
  (forall x, In x (raffle_entries g (s c)) ->
             get_member env (Entry.id x) <> None) ->
  (1 <= fuel env)%nat ->
  exists c', finish env c = Ok tt c'.
Proof.
  intros (Hr & r & Hf & Ho) Hq Hall Hfuel.
  destruct (close_and_draw_returns env c g r Hr Hf Ho Hq Hall Hfuel)
    as (ws & c1 & Hcd).
  destruct (close_and_draw_post env c g r ws c1 Hr Hf Ho Hq Hcd)
    as (_ & _ & _ & _ & Hr1 & Hf1).
  destruct (report_returns env ws c1 g _ Hr1 Hf1) as ([] & c' & Hrep & _).
  exists c'. unfold finish. rewrite (bind_ok _ _ _ _ _ Hcd). exact Hrep.
Qed.

(** [finish] does not return when the giveaway has entries, none of them of
    a member of the guild, and a positive count. *)
Lemma close_and_draw_never env c g r :
  raffle c = Some g -> find_giveaway g (s c) = Some r ->
  Giveaway.ongoing r = true -> queue c = [] ->
  0 < Giveaway.win_count r ->
  raffle_entries g (s c) <> [] ->
  (forall x, In x (raffle_entries g (s c)) -> get_member env (Entry.id x) = None) ->
  close_and_draw env c = Never.
Proof.
  intros Hr Hf Ho Hq Hk Hne Hall.
  rewrite (close_and_draw_eq env c g r Hr Hf Ho Hq).
  destruct (Z.to_nat (Giveaway.win_count r)) as [|n] eqn:E; [lia|].
  unfold bind at 1. cbn [draw]. unfold bind at 1.
  rewrite (get_winner_eq env (closed g c) g _ Hr (find_closed g c r Hf)).
  change (raffle_entries g (s (closed g c))) with (raffle_entries g (s c)).
  rewrite get_winner_loop_never by assumption. reflexivity.
Qed.

Lemma reachable_runs P env cmds :
  Forall P cmds ->
  forall c c', reachable_by P c -> runs env cmds c = Some c' -> reachable_by P c'.
Proof.
  induction 1 as [|cmd rest Hcmd _ IH]; simpl; intros c c' Hc Hruns.
  - inversion Hruns; subst; exact Hc.
  - destruct (proceeds (run env cmd c)) as [c1|] eqn:E; [|discriminate].
    apply (IH c1); auto. eapply reach_run; eauto.
Qed.

Lemma reachable_installed P : reachable_by P installed.
Proof. apply (reach_install P guild). reflexivity. Qed.

Lemma is_open_spring k ids : is_open (spring k ids) 1.
Proof. split; [reflexivity|]. eexists. split; reflexivity. Qed.

(** C2, as amended.  When [finish] on an OPEN giveaway with an empty queue
    returns, the state is NONE if the draw resolved a winner or the winner
    count is not positive: the slot is cleared and the ongoing flag is false,
    in the session and in the file.  If the winner count is positive and the
    draw resolved no winner, the giveaway stays in the slot with its ongoing
    flag set back to true: the state is OPEN again.  And [finish] does
    return when every entry of the giveaway is of a member of the guild. *)
Theorem finish_lifecycle env c g k :
  is_open c g -> win_count_of g (s c) = Some k -> queue c = [] ->
  (forall c',
     finish env c = Ok tt c' ->
     exists winners c1,
       close_and_draw env c = Ok winners c1 /\
       (winners <> [] \/ k <= 0 -> is_none_after c' g) /\
       (winners = [] -> 0 < k -> is_open c' g)) /\
  ((forall x, In x (raffle_entries g (s c)) ->
              get_member env (Entry.id x) <> None) ->
   (1 <= fuel env)%nat ->
   exists c', finish env c = Ok tt c').
Proof.
  intros Hopen Hk Hq. split; [|intros; eapply finish_returns; eauto].
  destruct Hopen as (Hr & r & Hf & Ho).
  unfold win_count_of in Hk. rewrite Hf in Hk. simpl in Hk.
  injection Hk as Hk.
  intros c' Hfin.
  destruct (finish_inv env c c' Hfin) as (ws & c1 & Hcd & Hrep0).
  destruct (close_and_draw_post env c g r ws c1 Hr Hf Ho Hq Hcd)
    as (drawn & Hws & _ & _ & Hr1 & Hf1).
  destruct (report_returns env ws c1 g _ Hr1 Hf1) as ([] & c2 & Hrep & Hpost).
  rewrite Hrep0 in Hrep. inversion Hrep; subst c2. clear Hrep.
  exists ws, c1. split; [exact Hcd|].
  change (Giveaway.win_count (Giveaway.with_ongoing false r))
    with (Giveaway.win_count r) in Hpost. rewrite Hk in Hpost.
  destruct ws as [|w ws']; simpl in Hpost.
  - destruct (0 <? k) eqn:E; simpl in Hpost.
    + apply Z.ltb_lt in E. split.
      * intros [H|H]; [congruence | lia].
      * intros _ _. destruct Hpost as (Hr' & Hflag & _). split; [exact Hr'|].
        unfold ongoing_flag in Hflag.
        destruct (find_giveaway g (s c')) as [r'|]; [|discriminate].
        exists r'. split; [reflexivity|]. simpl in Hflag. congruence.
    + apply Z.ltb_ge in E. split; [|intros _ H; lia].
      intros _. destruct Hpost as (Hr' & Hs & Hd & _).
      unfold is_none_after, ongoing_flag. rewrite Hd, Hs, Hf1. auto.
  - rewrite andb_false_r in Hpost. split; [|discriminate].
    intros _. destruct Hpost as (Hr' & Hs & Hd & _).
    unfold is_none_after, ongoing_flag. rewrite Hd, Hs, Hf1. auto.
Qed.

(** An instance: giveaway "Spring" for two winners with three entries. *)
Lemma finish_lifecycle_witness :
  exists c' winners c1,
    finish guild (spring 2 [100; 101; 102]) = Ok tt c' /\
    close_and_draw guild (spring 2 [100; 101; 102]) = Ok winners c1 /\
    (winners <> [] \/ 2 <= 0 -> is_none_after c' 1) /\
    (winners = [] -> 0 < 2 -> is_open c' 1).
Proof.
  destruct (finish_lifecycle guild (spring 2 [100; 101; 102]) 1 2
              (is_open_spring _ _) eq_refl eq_refl) as [Hpost Hret].
  destruct Hret as (c' & Hfin); [intros x _; discriminate | apply le_n|].
  destruct (Hpost c' Hfin) as (ws & c1 & Hcd & Hnone & Hopen).
  exists c', ws, c1. auto.
Defined.

(** C2 as stated fails: a giveaway for one winner that nobody joined is
    still in the slot after [finish], with its ongoing flag true. *)
Lemma finish_without_entries_stays_open :
  reachable (spring 1 []) /\ is_open (spring 1 []) 1 /\
  queue (spring 1 []) = [] /\
  exists c', finish guild (spring 1 []) = Ok tt c' /\
             raffle c' = Some 1 /\ ongoing_flag 1 (s c') = Some true /\
             ~ is_none_after c' 1.
Proof.
  split; [|split; [apply is_open_spring | split; [reflexivity|]]].
  - apply (reachable_runs _ guild [Create "Spring" 1 [] true] (Forall_cons _ I (Forall_nil _))
             installed); [apply reachable_installed | reflexivity].
  - eexists. split; [vm_compute; reflexivity|].
    split; [reflexivity|]. split; [reflexivity|].
    intros (H & _). discriminate.
Qed.

(** ** The draw repeats winners *)

Lemma reachable_spring k ids : 
  runs guild (Create "Spring" k [] true :: map (fun i => Join (request i)) ids)
       installed = Some (spring k ids) ->
  reachable (spring k ids).
Proof.
  intros H. apply (reachable_runs _ guild _ (proj2 (Forall_forall _ _) (fun _ _ => I))
                     installed _ (reachable_installed _) H).
Qed.

(** C1 fails on the code.  Giveaway "Spring" for two winners, joined by member
    100 alone: [get_winner] marks the entry it chose and leaves it among the
    entries, so the second round chooses it again and the winners of the one
    draw are member 100 twice. *)
Theorem draw_repeats_winner :
  reachable (spring 2 [100]) /\
  (exists c1,
     close_and_draw guild (spring 2 [100]) = Ok [member 100; member 100] c1 /\
     ~ NoDup (map member_id [member 100; member 100]) /\
     raffle_entries 1 (s c1) = [Entry.mk 100 1 true]) /\
  (exists c',
     finish guild (spring 2 [100]) = Ok tt c' /\
     sent c' = sent (spring 2 [100]) ++
               [AndTheWinnerIs; Mention (member 100); Mention (member 100);
                Congratulations; Finished 1]).
Proof.
  split; [apply reachable_spring; reflexivity|]. split.
  - eexists. split; [vm_compute; reflexivity|]. split; [|reflexivity].
    intros H. inversion H as [|x l Hin _]; subst. apply Hin. left. reflexivity.
  - eexists. split; [vm_compute; reflexivity|]. reflexivity.
Qed.

(** C6 fails on the code, on both counts.  Two members joined and one of
    them, 200, has left the guild.  When the first choice falls on the entry
    of 200 and the later ones on the entry of 100, the draw for three winners
    returns three winners from the one entry that resolves.  And on a
    giveaway whose entrants have all left the guild the draw does not return,
    whatever the generator and however long it is followed: the entry
    [get_winner] deletes stays in the list it chooses from. *)
Theorem draw_exceeds_resolvable_entries :
  reachable (spring 3 [100; 200]) /\
  length (resolvable guild_without_200 1 (s (spring 3 [100; 200]))) = 1%nat /\
  (exists winners c1,
     close_and_draw guild_without_200 (spring 3 [100; 200]) = Ok winners c1 /\
     length winners = 3%nat /\
     Nat.lt (length (resolvable guild_without_200 1 (s (spring 3 [100; 200]))))
            (length winners) /\
     raffle_entries 1 (s c1) = [Entry.mk 100 1 true]) /\
  (forall env,
     (forall i, get_member env i = None) ->
     close_and_draw env (spring 3 [100; 200]) = Never).
Proof.
  split; [apply reachable_spring; reflexivity|].
  split; [reflexivity|]. split.
  - eexists _, _. split; [vm_compute; reflexivity|].
    split; [reflexivity|]. split; [vm_compute; lia | reflexivity].
  - intros env Hnone.
    apply (close_and_draw_never env (spring 3 [100; 200]) 1
             (Giveaway.mk 1 "Spring" 3 true)); try reflexivity.
    + discriminate.
    + intros x _. apply Hnone.
Qed.

(** What does hold of the draw of [finish] when it returns: no more winners
    than the count asked for, each of them the member behind an entry of the
    giveaway; and the winners are either none or as many as asked for. *)
Lemma draw_of_finish env c g k winners c1 :
  is_open c g -> win_count_of g (s c) = Some k -> queue c = [] ->
  close_and_draw env c = Ok winners c1 ->
  (length winners <= Z.to_nat k)%nat /\
  (forall m, In m winners ->
     exists e, In e (raffle_entries g (s c)) /\
               get_member env (Entry.id e) = Some m) /\
  (winners = [] \/ length winners = Z.to_nat k).
Proof.
  intros (Hr & r & Hf & Ho) Hk Hq Hcd.
  unfold win_count_of in Hk. rewrite Hf in Hk. injection Hk as Hk.
  destruct (close_and_draw_post env c g r winners c1 Hr Hf Ho Hq Hcd)
    as (drawn & -> & _ & Hpost & _).
  rewrite Hk in Hpost. destruct Hpost as (_ & Hlen & Hfrom & Hfull & Hnone).
  split; [|split].
  - rewrite <- Hlen. apply resolved_length.
  - intros m Hm. destruct (Hfrom m Hm) as (e & He & Hg). exists e. split; auto.
  - destruct (resolved drawn) as [|m rest] eqn:E; [left; reflexivity|right].
    apply Hfull.
    destruct (Hfrom m) as (e & He & Hg); [left; reflexivity|].
    exists e. split; [exact He | congruence].
Qed.

(** ** [create] *)

(** C3 fails on the code.  [create] with a role, confirmed, from state NONE:
    [create_raffle] commits the Giveaway row and the role row, then reads
    [self.raffle.roles] while the slot is still empty, which raises; the
    slot stays empty, the state NONE, and no start is announced. *)
Theorem create_with_roles_raises :
  reachable installed /\
  run guild (Create "A" 1 [helpers] true) installed = Raise AttributeError stranded /\
  raffle stranded = None /\
  ongoing_giveaways (db stranded) = [Giveaway.mk 1 "A" 1 true] /\
  giveaway_roles (db stranded) = [GiveawayRole.mk 5 1] /\
  ~ In (Started "A" 1) (sent stranded).
Proof.
  split; [apply reachable_installed|]. split; [reflexivity|].
  repeat split. simpl. intros [H|[]]. discriminate.
Qed.

(** The same for every name, count that fits and non-empty list of roles,
    from every state with an empty slot: [create] raises and leaves the slot empty,
    with the new Giveaway row committed. *)
Lemma add_all_roles_eq rows c :
  add_all_roles rows c =
  if distinct_keys (giveaway_roles (s c) ++ rows)
  then Ok tt (set_db (with_giveaway_roles (fun rs => rs ++ rows) (s c))
                (set_s (with_giveaway_roles (fun rs => rs ++ rows) (s c)) c))
  else Raise IntegrityError (set_s (db c) c).
Proof.
  unfold add_all_roles. prim. cbv beta.
  destruct (distinct_keys (giveaway_roles (s c) ++ rows)); reflexivity.
Qed.

Lemma create_raffle_with_roles_raises env name k ids c :
  raffle c = None -> ids <> [] -> fits k = true ->
  exists e c',
    create_raffle env name k ids c = Raise e c' /\
    raffle c' = None /\
    In (Giveaway.mk (next_id (s c)) name k true) (giveaways (db c')).
Proof.
  intros Hr Hids Hk. unfold create_raffle. prim. prim.
  rewrite (bind_ok _ _ _ _ _ (commit_int_ok k _ Hk)).
  destruct ids as [|i ids]; [congruence|].
  cbn [map is_nil].
  match goal with |- context [add_all_roles ?rows] =>
    pose proof (add_all_roles_eq rows) as Hadd end.
  match goal with |- context [bind (bind (add_all_roles ?rows) ?k1) ?k2 ?c0] =>
    specialize (Hadd c0);
    destruct (distinct_keys (giveaway_roles (s c0) ++ rows))
  end.
  - eexists _, _. split.
    + apply bind_raise. rewrite (bind_ok _ _ _ _ _ Hadd).
      apply bind_raise. apply the_raffle_none. exact Hr.
    + split; [exact Hr|]. simpl. apply in_or_app. right. left. reflexivity.
  - eexists _, _. split.
    + apply bind_raise. apply bind_raise. exact Hadd.
    + split; [exact Hr|]. simpl. apply in_or_app. right. left. reflexivity.
Qed.

Lemma create_with_roles_never_opens env name k rs c :
  raffle c = None -> rs <> [] -> fits k = true ->
  exists e c',
    create env name k rs true c = Raise e c' /\
    raffle c' = None /\
    In (Giveaway.mk (next_id (s c)) name k true) (giveaways (db c')).
Proof.
  intros Hr Hrs Hk. unfold create. prim. rewrite Hr. prim.
  destruct (create_raffle_with_roles_raises env name k (map role_id rs)
              (set_sent (sent c ++ [Proposed name k rs]) c) Hr)
    as (e & c' & H & Hr' & Hin); [|exact Hk|].
  { destruct rs; [congruence | discriminate]. }
  exists e, c'. split; [apply bind_raise; exact H | auto].
Qed.

(** [create] with a count sqlite cannot hold, confirmed: the first commit
    fails, nothing is written and no start is announced. *)
Lemma create_overflow env name k rs c :
  raffle c = None -> fits k = false ->
  create env name k rs true c =
  Raise OverflowError
    (set_s (db c) (set_sent (sent c ++ [Proposed name k rs]) c)).
Proof.
  intros Hr Hk. unfold create. prim. rewrite Hr. prim.
  apply bind_raise. unfold create_raffle. prim. prim.
  rewrite (bind_raise _ _ _ _ _ (commit_int_fails k _ Hk)). reflexivity.
Qed.

(** With a giveaway in the slot [create] answers that one is already
    ongoing and changes nothing else. *)
Lemma create_while_open env name k rs answer c g :
  raffle c = Some g ->
  create env name k rs answer c = Ok tt (set_sent (sent c ++ [AlreadyOngoing]) c).
Proof. intros Hr. unfold create. prim. rewrite Hr. reflexivity. Qed.

(** C7 fails on the code, by the defect of [create_raffle] with roles.  The
    first [create] committed its Giveaway with the ongoing flag true and left
    the slot empty, so a second [create] passes the guard: two Giveaways are
    in the file with the ongoing flag true, and the next start of the cog
    fails on them. *)
Theorem two_ongoing_giveaways :
  exists c,
    runs guild [Create "A" 1 [helpers] true; Create "B" 1 [] true] installed
      = Some c /\
    reachable c /\
    ongoing_giveaways (db c) =
      [Giveaway.mk 1 "A" 1 true; Giveaway.mk 2 "B" 1 true] /\
    startup guild (db c) =
      Raise MultipleResultsFound (mkCog (db c) (db c) None [] [] O [] O).
Proof.
  eexists. split; [reflexivity|]. split; [|split; reflexivity].
  apply (reachable_runs _ guild
           [Create "A" 1 [helpers] true; Create "B" 1 [] true]
           (proj2 (Forall_forall _ _) (fun _ _ => I))
           installed _ (reachable_installed _)).
  reflexivity.
Qed.

(** ** Any winner count is taken *)

(** C9 as stated fails: [create] takes the count 0 and commits it, so a
    state the cog reaches has a persisted Giveaway whose target winner count
    is not positive; and [winner_count] takes a negative count. *)
Lemma create_accepts_zero_winners :
  reachable (spring 0 []) /\
  ~ (forall r, In r (giveaways (db (spring 0 []))) -> 0 < Giveaway.win_count r) /\
  exists c,
    run guild (WinnerCount (-3)) (spring 2 []) = Ok tt c /\
    win_count_of 1 (db c) = Some (-3).
Proof.
  split; [apply reachable_spring; reflexivity|]. split.
  - intros H. specialize (H _ (or_introl eq_refl)). simpl in H. lia.
  - eexists. split; reflexivity.
Qed.

(** ** What every command keeps *)

Section Stable.
Variable I : Cog -> Prop.
Hypothesis HI : stable I.

Lemma keeps_send r : keeps I (send r).
Proof. apply keeps_update. intros c. apply (st_sent I HI). Qed.

Lemma keeps_commit : keeps I commit.
Proof. apply keeps_update. apply (st_commit I HI). Qed.

Lemma keeps_the_raffle : keeps I the_raffle.
Proof.
  unfold the_raffle. apply keeps_bind; [apply keeps_gets|].
  intros [g|]; [|apply keeps_raise].
  apply keeps_bind; [apply keeps_gets|].
  intros [x|]; [apply keeps_ret | apply keeps_raise].
Qed.

Lemma keeps_ongoing_raffle : keeps I ongoing_raffle.
Proof.
  unfold ongoing_raffle. apply keeps_bind; [apply keeps_gets|].
  intros [g|]; [|apply keeps_raise].
  apply keeps_bind; [apply keeps_the_raffle|].
  intros x. destruct (Giveaway.ongoing x); [apply keeps_ret | apply keeps_raise].
Qed.

Lemma keeps_set_ongoing b : keeps I (set_ongoing b).
Proof.
  unfold set_ongoing. apply keeps_bind; [apply keeps_the_raffle|].
  intros g. apply keeps_update. intros c. apply (st_ongoing I HI).
Qed.

Lemma keeps_task_done : keeps I task_done.
Proof.
  intros c c' Hc. unfold task_done. destruct (unfinished c); simpl;
    intros H; inversion H; subst; auto. apply (st_unfinished I HI). exact Hc.
Qed.

Lemma keeps_queue_empty : keeps I queue_empty.
Proof.
  intros c c' Hc. unfold queue_empty. destruct (queue c); simpl;
    intros H; inversion H; subst; auto.
Qed.

Lemma keeps_get_winner_loop env pool rounds :
  keeps I (get_winner_loop env pool rounds).
Proof.
  induction rounds as [|rounds IH]; destruct pool as [|e0 rest];
    cbn [get_winner_loop]; try apply keeps_ret.
  - apply keeps_never.
  - apply keeps_bind; [apply keeps_gets|]. intros n.
    apply keeps_bind; [apply keeps_update; intros c; apply (st_rolls I HI)|].
    intros _. cbv zeta. destruct (get_member env _).
    + apply keeps_bind;
        [apply keeps_update; intros c; apply (st_entries I HI)|].
      intros _. apply keeps_bind; [apply keeps_commit | intros _; apply keeps_ret].
    + apply keeps_bind;
        [apply keeps_update; intros c; apply (st_entries I HI) | intros _; exact IH].
Qed.

Lemma keeps_get_winner env : keeps I (get_winner env).
Proof.
  unfold get_winner. apply keeps_bind; [apply keeps_the_raffle | intros g].
  apply keeps_bind; [apply keeps_gets | intros pool].
  apply keeps_get_winner_loop.
Qed.

Lemma keeps_draw env n : keeps I (draw env n).
Proof.
  induction n as [|n IH]; simpl; [apply keeps_ret|].
  apply keeps_bind; [apply keeps_get_winner|]. intros w.
  apply keeps_bind; [exact IH | intros ws; apply keeps_ret].
Qed.

Lemma keeps_close_and_draw env : keeps I (close_and_draw env).
Proof.
  unfold close_and_draw.
  apply keeps_bind; [apply keeps_ongoing_raffle | intros _].
  apply keeps_bind; [apply keeps_set_ongoing | intros _].
  apply keeps_bind; [apply keeps_commit | intros _].
  apply keeps_bind; [apply keeps_queue_empty | intros _].
  apply keeps_bind; [apply keeps_the_raffle | intros g].
  apply keeps_bind; [apply keeps_draw | intros ws; apply keeps_ret].
Qed.

Lemma keeps_report env ws : keeps I (report env ws).
Proof.
  unfold report. apply keeps_bind; [apply keeps_the_raffle | intros g].
  cbv zeta. apply keeps_bind; [apply keeps_when, keeps_send | intros _].
  destruct (_ && _).
  - apply keeps_bind; [apply keeps_send | intros _; apply keeps_set_ongoing].
  - apply keeps_bind; [apply keeps_send | intros _].
    apply keeps_bind; [apply keeps_for_each; intros x; apply keeps_send | intros _].
    apply keeps_bind; [apply keeps_send | intros _].
    apply keeps_bind.
    { apply keeps_for_each. intros x.
      destruct (dm_ok env x); [apply keeps_ret | apply keeps_send]. }
    intros _. apply keeps_bind; [apply keeps_commit | intros _].
    apply keeps_bind; [apply keeps_the_raffle | intros g'].
    apply keeps_bind; [apply keeps_gets | intros n].
    apply keeps_bind; [apply keeps_send | intros _].
    apply keeps_update. apply (st_slot_none I HI).
Qed.

Lemma keeps_finish env : keeps I (finish env).
Proof.
  unfold finish. apply keeps_bind; [apply keeps_close_and_draw|].
  intros ws. apply keeps_report.
Qed.

Lemma keeps_cancel answer : keeps I (cancel answer).
Proof.
  unfold cancel. apply keeps_bind; [apply keeps_ongoing_raffle | intros _].
  apply keeps_bind; [apply keeps_send | intros _].
  destruct answer; [|apply keeps_send].
  apply keeps_bind; [apply keeps_set_ongoing | intros _].
  apply keeps_bind; [apply keeps_update, (st_slot_none I HI) | intros _].
  apply keeps_bind; [apply keeps_commit | intros _; apply keeps_send].
Qed.

Lemma keeps_blacklist_add member : keeps I (blacklist_add member).
Proof.
  unfold blacklist_add. apply keeps_bind; [apply keeps_gets|].
  intros [|]; [apply keeps_send|].
  apply keeps_bind;
    [apply keeps_update; intros c; apply (st_blacklist I HI) | intros _].
  apply keeps_bind; [apply keeps_commit | intros _; apply keeps_send].
Qed.

Lemma keeps_blacklist_remove member : keeps I (blacklist_remove member).
Proof.
  unfold blacklist_remove. apply keeps_bind; [apply keeps_gets|].
  intros [|]; [|apply keeps_send].
  apply keeps_bind;
    [apply keeps_update; intros c; apply (st_blacklist I HI) | intros _].
  apply keeps_bind; [apply keeps_commit | intros _; apply keeps_send].
Qed.

Lemma keeps_enter env ctx : keeps I (enter env ctx).
Proof.
  unfold enter. apply keeps_bind; [apply keeps_the_raffle | intros g].
  apply keeps_bind; [apply keeps_gets | intros declared].
  apply keeps_bind; [apply keeps_gets | intros cached].
  destruct (_ && _); [apply keeps_send|]. cbv zeta.
  apply keeps_bind; [apply keeps_the_raffle | intros g'].
  apply keeps_bind; [apply keeps_gets | intros [e|]]; [apply keeps_send|].
  apply keeps_bind;
    [apply keeps_update; intros c; apply (st_entries I HI) | intros _].
  apply keeps_bind; [apply keeps_commit | intros _].
  apply keeps_bind; [apply keeps_send | intros _; apply keeps_task_done].
Qed.

(** [winner_count] of a value sqlite can hold, when [I] bears it. *)
Lemma keeps_winner_count_fits value :
  fits value = true ->
  (forall c g, I c ->
     I (set_s (update_giveaway g (Giveaway.with_win_count value) (s c)) c)) ->
  keeps I (winner_count value).
Proof.
  intros Hfit Hv. unfold winner_count, commit_int. rewrite Hfit.
  apply keeps_bind; [apply keeps_ongoing_raffle | intros _].
  apply keeps_bind; [apply keeps_the_raffle | intros g].
  apply keeps_bind; [apply keeps_update; intros c; apply Hv | intros _].
  apply keeps_bind; [apply keeps_commit | intros _; apply keeps_send].
Qed.
End Stable.

Section Plain.
Variable I : Cog -> Prop.
Hypothesis HI : plain I.

Let HS : stable I := pl_stable I HI.

Lemma keeps_join env ctx : keeps I (join env ctx).
Proof.
  unfold join. apply keeps_bind; [apply keeps_ongoing_raffle | intros _].
  apply keeps_bind; [destruct (not_new ctx); [apply keeps_ret | apply keeps_raise]|].
  intros _.
  apply keeps_bind;
    [destruct (not_blacklisted ctx); [apply keeps_ret | apply keeps_raise]|].
  intros _.
  apply keeps_bind; [apply keeps_update; intros c; apply (pl_queue I HI) | intros _].
  unfold process_entry. apply keeps_bind; [|intros x; apply keeps_enter, HS].
  intros c c' Hc. unfold queue_get. destruct (queue c); simpl; intros H;
    inversion H; subst. apply (pl_queue I HI). exact Hc.
Qed.

Lemma keeps_failed_commit {A} e : keeps I (@failed_commit A e).
Proof.
  unfold failed_commit.
  apply keeps_bind; [apply keeps_update, (pl_rollback I HI) | intros _].
  apply keeps_raise.
Qed.

Lemma keeps_commit_int v : keeps I (commit_int v).
Proof.
  unfold commit_int.
  destruct (fits v); [apply keeps_commit, HS | apply keeps_failed_commit].
Qed.

(** [winner_count], when [I] bears the new count. *)
Lemma keeps_winner_count value :
  (forall c g, I c ->
     I (set_s (update_giveaway g (Giveaway.with_win_count value) (s c)) c)) ->
  keeps I (winner_count value).
Proof.
  intros Hv. unfold winner_count.
  apply keeps_bind; [apply keeps_ongoing_raffle | intros _].
  apply keeps_bind; [apply keeps_the_raffle | intros g].
  apply keeps_bind; [apply keeps_update; intros c; apply Hv | intros _].
  apply keeps_bind; [apply keeps_commit_int | intros _; apply keeps_send, HS].
Qed.

(** [add_all_roles], when [I] bears the new rows. *)
Lemma keeps_add_all_roles rows :
  (forall c, I c ->
     I (set_s (with_giveaway_roles (fun rs => rs ++ rows) (s c)) c)) ->
  keeps I (add_all_roles rows).
Proof.
  intros Hrows. unfold add_all_roles.
  apply keeps_bind; [apply keeps_gets | intros table].
  destruct (distinct_keys _).
  - apply keeps_bind;
      [apply keeps_update; exact Hrows | intros _; apply keeps_commit, HS].
  - apply keeps_failed_commit.
Qed.

(** [create], when [I] bears the new Giveaway row and new role rows. *)
Lemma keeps_create env name k rs answer :
  (forall c i, I c ->
     I (set_s (with_giveaways
                 (fun gs => gs ++ [Giveaway.mk i name k default_ongoing])
                 (s c)) c)) ->
  (forall c rows, I c ->
     I (set_s (with_giveaway_roles (fun rs => rs ++ rows) (s c)) c)) ->
  keeps I (create env name k rs answer).
Proof.
  intros Hnew Hrows. unfold create. apply keeps_bind; [apply keeps_gets|].
  intros [g|]; [apply keeps_send, HS|].
  apply keeps_bind; [apply keeps_send, HS | intros _].
  destruct answer; [|apply keeps_send, HS].
  apply keeps_bind.
  - unfold create_raffle. apply keeps_bind; [apply keeps_gets | intros i].
    apply keeps_bind; [apply keeps_update; intros c; apply Hnew | intros _].
    apply keeps_bind; [apply keeps_commit_int | intros _].
    apply keeps_bind; [|intros _; apply keeps_ret].
    destruct (is_nil _); [apply keeps_ret|].
    apply keeps_bind;
      [apply keeps_add_all_roles; intros c; apply Hrows | intros _].
    apply keeps_bind; [apply keeps_the_raffle | intros g].
    apply keeps_bind; [apply keeps_gets | intros rows].
    apply keeps_update. intros c. apply (pl_roles I HI).
  - intros i. apply keeps_bind; [|intros _; apply keeps_send, HS].
    apply keeps_update. intros c. apply (pl_raffle I HI).
Qed.

Lemma keeps_init env : keeps I (init env).
Proof.
  unfold init. apply keeps_bind; [apply keeps_gets | intros found].
  apply keeps_bind.
  { destruct found as [|g [|g' rest]];
      [apply keeps_update; intros c; apply (pl_raffle I HI)
      |apply keeps_update; intros c; apply (pl_raffle I HI)
      |apply keeps_raise]. }
  intros _. apply keeps_bind;
    [apply keeps_update; intros c; apply (pl_roles I HI) | intros _].
  apply keeps_bind; [apply keeps_gets | intros r].
  apply keeps_bind;
    [|intros _; apply keeps_update; intros c; apply (pl_queue I HI)].
  destruct r as [g|]; [|apply keeps_ret].
  apply keeps_bind; [apply keeps_gets | intros rows].
  apply keeps_for_each. intros role. unfold reconcile.
  destruct (utils_get _ _).
  - apply keeps_update. intros c. apply (pl_roles I HI).
  - apply keeps_bind; [apply keeps_gets | intros [x|]]; [|apply keeps_raise].
    apply keeps_bind;
      [apply keeps_update; intros c; apply (pl_row_delete I HI)
      | intros _; apply keeps_commit, HS].
Qed.
End Plain.

(** ** The winner count *)

Lemma counts_positive_plain : plain counts_positive.
Proof.
  split; [split|..]; unfold counts_positive; simpl; intros; try tauto.
  destruct H as [Hs Hd]. split; auto. intros r Hr.
  apply in_map_iff in Hr. destruct Hr as (r0 & <- & Hr0).
  destruct (Giveaway.id r0 =? g); simpl; auto.
Qed.

Lemma counts_positive_create c i name k :
  0 < k -> counts_positive c ->
  counts_positive
    (set_s (with_giveaways (fun gs => gs ++ [Giveaway.mk i name k default_ongoing])
                           (s c)) c).
Proof.
  intros Hk [Hs Hd]. split; simpl; auto. intros r Hr.
  apply in_app_or in Hr. destruct Hr as [Hr|[<-|[]]]; auto.
Qed.

Lemma counts_positive_modify c g value :
  0 < value -> counts_positive c ->
  counts_positive
    (set_s (update_giveaway g (Giveaway.with_win_count value) (s c)) c).
Proof.
  intros Hv [Hs Hd]. split; simpl; auto. intros r Hr.
  apply in_map_iff in Hr. destruct Hr as (r0 & <- & Hr0).
  destruct (Giveaway.id r0 =? g); simpl; auto.
Qed.

Lemma keeps_run_positive env cmd :
  positive_count cmd -> keeps counts_positive (run env cmd).
Proof.
  pose proof counts_positive_plain as HP.
  pose proof (pl_stable _ HP) as HS.
  destruct cmd; simpl; intros Hp.
  - apply keeps_join, HP.
  - apply keeps_create; [exact HP| |].
    + intros c i. apply counts_positive_create, Hp.
    + intros c rows H. exact H.
  - apply keeps_cancel, HS.
  - apply keeps_finish, HS.
  - apply keeps_blacklist_add, HS.
  - apply keeps_blacklist_remove, HS.
  - apply keeps_winner_count; [exact HP|]. intros c g.
    apply counts_positive_modify, Hp.
Qed.

Lemma startup_keeps I env l c :
  plain I -> I (mkCog l l None [] [] O [] O) ->
  startup env l = Ok tt c -> I c.
Proof.
  intros HP H0 H. unfold startup in H.
  apply (keeps_init I HP env _ c H0). rewrite H. reflexivity.
Qed.

(** [create] stores the count it is given, whatever its sign, when sqlite
    can hold it. *)
Lemma create_stores_count env name k c :
  raffle c = None -> fits k = true ->
  exists c',
    create env name k [] true c = Ok tt c' /\
    raffle c' = Some (next_id (s c)) /\
    giveaways (db c') =
      giveaways (s c) ++ [Giveaway.mk (next_id (s c)) name k true] /\
    s c' = db c'.
Proof.
  intros Hr Hk. unfold create. prim. rewrite Hr. prim.
  unfold create_raffle. rewrite !bind_bind. prim. rewrite bind_bind. prim.
  rewrite bind_bind. rewrite (bind_ok _ _ _ _ _ (commit_int_ok k _ Hk)).
  eexists. split; [reflexivity|]. repeat split; reflexivity.
Qed.

(** [winner_count] stores the value it is given, whatever its sign, when
    sqlite can hold it. *)
Lemma winner_count_stores_value value c g :
  is_open c g -> fits value = true ->
  exists c',
    winner_count value c = Ok tt c' /\ win_count_of g (db c') = Some value.
Proof.
  intros (Hr & r & Hf & Ho) Hv. unfold winner_count.
  rewrite (bind_ok _ _ _ _ _ (ongoing_raffle_ok c g r Hr Hf Ho)).
  rewrite (bind_ok _ _ _ _ _ (the_raffle_ok c g r Hr Hf)).
  prim. rewrite (bind_ok _ _ _ _ _ (commit_int_ok value _ Hv)).
  eexists. split; [reflexivity|].
  simpl. unfold win_count_of. rewrite (find_giveaway_id _ _ _ Hf).
  rewrite find_update_giveaway by reflexivity. rewrite Hf. reflexivity.
Qed.

(** C9, as amended.  [create] and [winner_count] store the integer they are
    given, of either sign, whenever sqlite can hold it (signed, 64 bits); in
    every state reached by commands whose winner counts are positive, each
    persisted Giveaway's target winner count is positive, in the file and in
    the session. *)
Theorem positive_counts_are_kept :
  (forall env name k c,
     raffle c = None -> fits k = true ->
     exists c',
       create env name k [] true c = Ok tt c' /\
       giveaways (db c') =
         giveaways (s c) ++ [Giveaway.mk (next_id (s c)) name k true]) /\
  (forall value c g,
     is_open c g -> fits value = true ->
     exists c',
       winner_count value c = Ok tt c' /\ win_count_of g (db c') = Some value) /\
  (forall c,
     reachable_by positive_count c ->
     (forall r, In r (giveaways (db c)) -> 0 < Giveaway.win_count r) /\
     (forall r, In r (giveaways (s c)) -> 0 < Giveaway.win_count r)).
Proof.
  split; [|split].
  - intros env name k c Hr Hk.
    destruct (create_stores_count env name k c Hr Hk) as (c' & H & _ & Hg & _).
    eauto.
  - apply winner_count_stores_value.
  - intros c H.
    enough (counts_positive c) by (unfold counts_positive in *; tauto).
    induction H as [env c H | env cmd c c' _ IH Hp Hrun | env c c' _ IH H
                   | env env' cmd e c c1 c' _ IH Hp Hrun _ H].
    + apply (startup_keeps _ env empty_ledger c counts_positive_plain); auto.
      split; intros r [].
    + exact (keeps_run_positive env cmd Hp c c' IH (proceeds_after _ _ Hrun)).
    + apply (startup_keeps _ env (db c) c' counts_positive_plain); auto.
      destruct IH as [_ Hd]. split; exact Hd.
    + apply (startup_keeps _ env' (db c1) c' counts_positive_plain); auto.
      assert (Hc1 : counts_positive c1).
      { apply (keeps_run_positive env cmd Hp c c1 IH). rewrite Hrun. reflexivity. }
      destruct Hc1 as [_ Hd]. split; exact Hd.
Qed.

(** An instance: a giveaway created for no winner, a count set to -3, and a
    giveaway for two winners, created and joined. *)
Lemma positive_counts_are_kept_witness :
  (exists c',
     create guild "Spring" 0 [] true installed = Ok tt c' /\
     giveaways (db c') =
       giveaways (s installed) ++
       [Giveaway.mk (next_id (s installed)) "Spring" 0 true]) /\
  (exists c',
     winner_count (-3) (spring 2 []) = Ok tt c' /\
     win_count_of 1 (db c') = Some (-3)) /\
  (forall r, In r (giveaways (db (spring 2 [100]))) -> 0 < Giveaway.win_count r) /\
  (forall r, In r (giveaways (s (spring 2 [100]))) -> 0 < Giveaway.win_count r).
Proof.
  destruct positive_counts_are_kept as (Hcreate & Hmodify & Hkept).
  split; [apply (Hcreate guild "Spring"%string 0 installed); reflexivity|].
  split; [apply (Hmodify (-3) (spring 2 []) 1);
          [apply is_open_spring | reflexivity]|].
  apply (Hkept (spring 2 [100])).
  apply (reachable_runs positive_count guild
           [Create "Spring" 2 [] true; Join (request 100)]) with (c := installed).
  - repeat constructor.
  - apply reachable_installed.
  - reflexivity.
Defined.

(** ** Startup reconciliation *)

Lemma has_key_eq r x :
  GiveawayRole.has_key (GiveawayRole.id r) (GiveawayRole.giveaway r) x = true
  <-> x = r.
Proof.
  unfold GiveawayRole.has_key. rewrite andb_true_iff, !Z.eqb_eq.
  destruct r as [i g], x as [i' g']; simpl. split.
  - intros [-> ->]. reflexivity.
  - intros H. inversion H. auto.
Qed.

Lemma has_key_sym r x :
  GiveawayRole.has_key (GiveawayRole.id r) (GiveawayRole.giveaway r) x =
  GiveawayRole.has_key (GiveawayRole.id x) (GiveawayRole.giveaway x) r.
Proof.
  unfold GiveawayRole.has_key.
  rewrite (Z.eqb_sym (GiveawayRole.id x)), (Z.eqb_sym (GiveawayRole.giveaway x)).
  reflexivity.
Qed.

Lemma among_In rows x : among rows x = true <-> In x rows.
Proof.
  unfold among. rewrite existsb_exists. split.
  - intros (r & Hr & Hk). apply has_key_eq in Hk. subst. exact Hr.
  - intros H. exists x. split; [exact H | apply has_key_eq; reflexivity].
Qed.

Lemma filter_twice {A} (f g : A -> bool) (l : list A) :
  filter f (filter g l) = filter (fun x => g x && f x) l.
Proof.
  induction l as [|x xs IH]; simpl; [reflexivity|].
  destruct (g x); simpl; [destruct (f x)|]; rewrite IH; reflexivity.
Qed.

Lemma get_role_found r g l :
  In r (giveaway_roles l) -> GiveawayRole.giveaway r = g ->
  get_role (GiveawayRole.id r) g l = Some r.
Proof.
  intros Hin <-. unfold get_role.
  destruct (find _ _) as [x|] eqn:E.
  - apply find_some in E. destruct E as [_ E]. apply has_key_eq in E.
    subst. reflexivity.
  - exfalso. eapply find_none in E; [|exact Hin].
    assert (H : GiveawayRole.has_key (GiveawayRole.id r)
                  (GiveawayRole.giveaway r) r = true)
      by (apply has_key_eq; reflexivity).
    congruence.
Qed.

(** The loop of [__init__] returns, on rows that are in the table once
    each. *)
Lemma reconcile_loop env g rows :
  forall c,
    NoDup rows ->
    (forall r, In r rows ->
       In r (giveaway_roles (s c)) /\ GiveawayRole.giveaway r = g) ->
    returns (for_each rows (reconcile env g)) c (fun _ c' => reconciled env rows c c').
Proof.
  unfold returns.
  induction rows as [|r rest IH]; intros c Hnd Hin.
  - exists tt, c. split; [reflexivity|]. unfold reconciled. simpl.
    rewrite app_nil_r. repeat split; auto.
    symmetry. apply forallb_filter_id. apply forallb_forall. reflexivity.
  - inversion Hnd as [|? ? Hnot Hnd']; subst.
    destruct (Hin r (or_introl eq_refl)) as [Hr Hg].
    cbn [for_each]. unfold reconcile at 1.
    destruct (utils_get (guild_roles env) (GiveawayRole.id r)) as [drole|] eqn:E.
    + prim.
      destruct (IH (set_roles (roles c ++ [Some drole]) c) Hnd') as ([] & c' & Hrun & Hrec).
      { intros r' Hr'. apply (Hin r'). right. exact Hr'. }
      exists tt, c'. split; [exact Hrun|].
      destruct Hrec as (H1 & H2 & H3 & H4 & H5 & H6 & H7 & H8 & H9 & H10 & H11).
      simpl in *. unfold reconciled. repeat split; auto.
      * rewrite H1. apply filter_ext. intros x. cbn [among existsb].
        fold (among rest x).
        destruct (GiveawayRole.has_key _ _ r) eqn:K; [|reflexivity].
        rewrite <- has_key_sym in K. apply has_key_eq in K. subst x.
        unfold stale. rewrite E. rewrite !andb_false_r. reflexivity.
      * rewrite H2. unfold resolved_roles. cbn [flat_map].
        rewrite E, <- app_assoc. reflexivity.
    + rewrite bind_bind. prim. rewrite (get_role_found r g (s c) Hr Hg).
      rewrite bind_bind. prim. prim.
      match goal with |- exists _ _, for_each _ _ ?c1 = _ /\ _ =>
        destruct (IH c1 Hnd') as ([] & c' & Hrun & Hrec) end.
      { intros r' Hr'. destruct (Hin r' (or_intror Hr')) as [H1 H2].
        split; [|exact H2]. simpl. apply filter_In. split; [exact H1|].
        destruct (GiveawayRole.has_key _ _ r') eqn:K; [|reflexivity].
        apply has_key_eq in K. subst. contradiction. }
      exists tt, c'. split; [exact Hrun|].
      destruct Hrec as (H1 & H2 & H3 & H4 & H5 & H6 & H7 & H8 & H9 & H10 & H11).
      simpl in *. unfold reconciled. repeat split; auto.
      * rewrite H1, filter_twice. apply filter_ext. intros x.
        cbn [among existsb]. fold (among rest x).
        rewrite (has_key_sym r x).
        destruct (GiveawayRole.has_key _ _ r) eqn:K; simpl; [|reflexivity].
        apply has_key_eq in K. subst x. unfold stale. rewrite E. reflexivity.
      * rewrite H2. unfold resolved_roles. cbn [flat_map].
        rewrite E. reflexivity.
Qed.

(** Loading the cog on a database with one ongoing giveaway [g]. *)
Lemma startup_returns env l g :
  NoDup (giveaway_roles l) -> ongoing_giveaways l = [g] ->
  exists c,
    startup env l = Ok tt c /\
    raffle c = Some (Giveaway.id g) /\
    giveaway_roles (db c) =
      filter (fun x => negb (among (raffle_roles (Giveaway.id g) l) x
                             && stale env x)) (giveaway_roles l) /\
    giveaways (db c) = giveaways l /\ entries (db c) = entries l /\
    blacklist (db c) = blacklist l /\
    roles c = resolved_roles env (raffle_roles (Giveaway.id g) l) /\
    s c = db c /\ queue c = [].
Proof.
  intros Hnd Hg. unfold startup, init. prim. cbn [s]. rewrite Hg.
  prim. prim. prim. cbn [raffle set_roles set_raffle].
  rewrite bind_bind. prim.
  set (c0 := set_roles [] (set_raffle (Some (Giveaway.id g))
                             (mkCog l l None [] [] O [] O))).
  change (s c0) with l.
  destruct (reconcile_loop env (Giveaway.id g) (raffle_roles (Giveaway.id g) l) c0)
    as ([] & c' & Hrun & Hrec).
  { apply NoDup_filter. exact Hnd. }
  { intros r Hr. apply filter_In in Hr. destruct Hr as [Hin Hk].
    apply Z.eqb_eq in Hk. split; assumption. }
  rewrite (bind_ok _ _ _ _ _ Hrun).
  destruct Hrec as (H1 & H2 & H3 & H4 & H5 & H6 & H7 & H8 & H9 & H10 & H11).
  specialize (H11 eq_refl).
  eexists. split; [reflexivity|]. simpl. rewrite H11.
  repeat split; auto.
Qed.

(** C4.  On a database whose one ongoing giveaway is [g] (the role table
    holding no row twice), loading the cog returns normally with [g] in the
    slot; the role rows left in the file are those of before except the rows
    of [g] whose role the guild no longer has; the other tables are as
    before, and the rows of [g] that resolve are the cog's resolved roles. *)
Theorem startup_removes_stale_roles env l g :
  NoDup (giveaway_roles l) -> ongoing_giveaways l = [g] ->
  exists c,
    startup env l = Ok tt c /\
    raffle c = Some (Giveaway.id g) /\
    (forall r, In r (giveaway_roles (db c)) <->
       In r (giveaway_roles l) /\
       ~ (GiveawayRole.giveaway r = Giveaway.id g /\
          utils_get (guild_roles env) (GiveawayRole.id r) = None)) /\
    giveaways (db c) = giveaways l /\ entries (db c) = entries l /\
    blacklist (db c) = blacklist l /\
    roles c = resolved_roles env (raffle_roles (Giveaway.id g) l) /\
    s c = db c /\ queue c = [].
Proof.
  intros Hnd Hg.
  destruct (startup_returns env l g Hnd Hg)
    as (c & Hs & Hr & H1 & H2 & H3 & H4 & H5 & H6 & H7).
  exists c. repeat split; auto.
  - rewrite H1 in H. apply filter_In in H. tauto.
  - rewrite H1 in H. apply filter_In in H. destruct H as [Hin Hf].
    intros [Hgr Hst]. apply negb_true_iff in Hf.
    assert (Ha : among (raffle_roles (Giveaway.id g) l) r = true).
    { apply among_In. apply filter_In. split; [exact Hin|].
      apply Z.eqb_eq. exact Hgr. }
    unfold stale in Hf. rewrite Ha, Hst in Hf. discriminate.
  - intros [Hin Hnot]. rewrite H1. apply filter_In. split; [exact Hin|].
    apply negb_true_iff. apply andb_false_iff.
    destruct (among (raffle_roles (Giveaway.id g) l) r) eqn:Ha; [|left; reflexivity].
    right. apply among_In in Ha. apply filter_In in Ha. destruct Ha as [_ Hk].
    apply Z.eqb_eq in Hk. unfold stale.
    destruct (utils_get (guild_roles env) (GiveawayRole.id r)); [reflexivity|].
    exfalso. apply Hnot. split; auto.
Qed.

(** An instance: the sample database with a stale role row. *)
Lemma startup_removes_stale_roles_witness :
  exists c,
    startup guild stale_ledger = Ok tt c /\
    raffle c = Some 1 /\
    (forall r, In r (giveaway_roles (db c)) <->
       In r (giveaway_roles stale_ledger) /\
       ~ (GiveawayRole.giveaway r = 1 /\
          utils_get (guild_roles guild) (GiveawayRole.id r) = None)) /\
    giveaways (db c) = giveaways stale_ledger /\
    entries (db c) = entries stale_ledger /\
    blacklist (db c) = blacklist stale_ledger /\
    roles c = resolved_roles guild (raffle_roles 1 stale_ledger) /\
    s c = db c /\ queue c = [].
Proof.
  apply (startup_removes_stale_roles guild stale_ledger (Giveaway.mk 1 "A" 1 true)).
  - repeat constructor; simpl; intuition discriminate.
  - reflexivity.
Defined.

(** On the sample database the stale row 6 goes and the row 5 stays. *)
Example startup_on_stale_ledger :
  exists c, startup guild stale_ledger = Ok tt c /\
            giveaway_roles (db c) = [GiveawayRole.mk 5 1] /\
            roles c = [Some helpers].
Proof. eexists. split; [reflexivity|]. split; reflexivity. Qed.

(** ** [join] *)

Lemma join_as_enter env ctx c g r :
  raffle c = Some g -> find_giveaway g (s c) = Some r ->
  Giveaway.ongoing r = true -> queue c = [] ->
  not_new ctx = true -> not_blacklisted ctx = true ->
  join env ctx c = enter env ctx (waiting c).
Proof.
  intros Hr Hf Ho Hq Hn Hb. unfold join.
  rewrite (bind_ok _ _ _ _ _ (ongoing_raffle_ok c g r Hr Hf Ho)).
  rewrite Hn, Hb. prim. prim. prim. unfold process_entry.
  apply bind_ok. unfold queue_get. cbn [queue set_queue]. rewrite Hq. reflexivity.
Qed.

(** What [join] does for a request past the checks, on an open giveaway and
    an empty queue. *)
Lemma join_outcome env c g ctx :
  is_open c g -> queue c = [] ->
  not_new ctx = true -> not_blacklisted ctx = true ->
  exists c',
    join env ctx c = Ok tt c' /\
    raffle c' = raffle c /\ roles c' = roles c /\ queue c' = [] /\
    giveaways (s c') = giveaways (s c) /\
    giveaway_roles (s c') = giveaway_roles (s c) /\
    if turned_away env c g (author ctx)
    then sent c' = sent c ++ [NotAllowed] /\ s c' = s c /\ db c' = db c
    else match get_entry (member_id (author ctx)) g (s c) with
         | Some _ =>
             sent c' = sent c ++ [AlreadyParticipating] /\
             s c' = s c /\ db c' = db c
         | None =>
             sent c' = sent c ++ [NowParticipating (author ctx)] /\
             entries (s c') =
               entries (s c) ++ [Entry.mk (member_id (author ctx)) g false] /\
             db c' = s c'
         end.
Proof.
  intros (Hr & r & Hf & Ho) Hq Hn Hb.
  rewrite (join_as_enter env ctx c g r Hr Hf Ho Hq Hn Hb).
  assert (Hw : the_raffle (waiting c) = Ok r (waiting c))
    by (apply (the_raffle_ok _ g); assumption).
  unfold enter. rewrite (bind_ok _ _ _ _ _ Hw). prim. prim.
  rewrite (find_giveaway_id _ _ _ Hf).
  change (s (waiting c)) with (s c). change (roles (waiting c)) with (roles c).
  fold (turned_away env c g (author ctx)).
  destruct (turned_away env c g (author ctx)).
  - eexists. split; [reflexivity|]. simpl. repeat split; reflexivity.
  - cbv zeta. rewrite (bind_ok _ _ _ _ _ Hw). prim.
    rewrite (find_giveaway_id _ _ _ Hf).
    change (s (waiting c)) with (s c).
    destruct (get_entry (member_id (author ctx)) g (s c)).
    + eexists. split; [reflexivity|]. simpl. repeat split; reflexivity.
    + prim. prim. prim. eexists. split; [reflexivity|].
      simpl. repeat split; reflexivity.
Qed.

(** ** The invariant of the cog *)

Lemma ledger_ok_update_giveaway g f l :
  (forall r, Giveaway.id (f r) = Giveaway.id r) ->
  ledger_ok l -> ledger_ok (update_giveaway g f l).
Proof.
  intros Hf [Hnd Hb]. split; [exact Hnd|]. intros r Hr.
  rewrite next_id_update_giveaway by exact Hf. apply Hb. exact Hr.
Qed.

Lemma ledger_ok_row_delete x l : ledger_ok l -> ledger_ok (row_delete x l).
Proof.
  intros [Hnd Hb]. split; simpl.
  - apply NoDup_filter. exact Hnd.
  - intros r Hr. apply filter_In in Hr. apply Hb. tauto.
Qed.

Lemma ledgers_ok_plain : plain ledgers_ok.
Proof.
  split; [split|..]; unfold ledgers_ok; simpl; intros; try tauto.
  - destruct H as [Hs Hd]. split; [|exact Hd].
    apply ledger_ok_update_giveaway; [reflexivity | exact Hs].
  - destruct H as [Hs Hd]. split; [|exact Hd].
    apply ledger_ok_row_delete. exact Hs.
Qed.

Lemma ledgers_ok_modify c g value :
  ledgers_ok c ->
  ledgers_ok (set_s (update_giveaway g (Giveaway.with_win_count value) (s c)) c).
Proof.
  intros [Hs Hd]. split; [|exact Hd]. simpl.
  apply ledger_ok_update_giveaway; [reflexivity | exact Hs].
Qed.

Lemma role_frame_refl c : role_frame c c.
Proof. unfold role_frame. auto. Qed.

Lemma role_frame_stable c0 : stable (role_frame c0).
Proof.
  split; unfold role_frame; simpl; intros; try tauto.
Qed.

Lemma role_frame_modify c0 c g value :
  role_frame c0 c ->
  role_frame c0 (set_s (update_giveaway g (Giveaway.with_win_count value) (s c)) c).
Proof. unfold role_frame. simpl. tauto. Qed.

(** A frame of a command, from its being kept. *)
Lemma framed {A} (m : M A) c c' :
  keeps (role_frame c) m -> after (m c) = Some c' -> role_frame c c'.
Proof. intros H Ha. exact (H c c' (role_frame_refl c) Ha). Qed.

Lemma join_tail env ctx c :
  queue c = [] ->
  bind (queue_put ctx) (fun _ => process_entry env) c = enter env ctx (waiting c).
Proof.
  intros Hq. prim. unfold process_entry. apply bind_ok.
  unfold queue_get. cbn [queue set_queue]. rewrite Hq. reflexivity.
Qed.

Lemma keeps_join_frame env ctx c0 :
  queue c0 = [] -> keeps (role_frame c0) (join env ctx).
Proof.
  intros Hq. unfold join.
  apply keeps_bind; [apply keeps_ongoing_raffle | intros _].
  apply keeps_bind; [destruct (not_new ctx); [apply keeps_ret | apply keeps_raise]|].
  intros _.
  apply keeps_bind;
    [destruct (not_blacklisted ctx); [apply keeps_ret | apply keeps_raise]|].
  intros _ c c' Hc. rewrite join_tail by (destruct Hc as (H & _); congruence).
  apply (keeps_enter _ (role_frame_stable c0)).
  destruct Hc as (H1 & H2 & H3 & H4). unfold role_frame, waiting. simpl.
  repeat split; auto; congruence.
Qed.

(** The commands other than [create] leave the queue, the resolved roles
    and the role table alone, and the slot as it is or empty. *)
Lemma run_frame env cmd c c' :
  (forall name k rs answer, cmd <> Create name k rs answer) ->
  queue c = [] ->
  proceeds (run env cmd c) = Some c' -> role_frame c c'.
Proof.
  intros Hcmd Hq Hrun.
  pose proof (role_frame_stable c) as HS.
  destruct cmd as [ctx|name k rs answer|answer| |member|member|value];
    cbn [run] in Hrun.
  - apply proceeds_after in Hrun. revert Hrun. apply framed.
    apply keeps_join_frame, Hq.
  - exfalso. eapply Hcmd. reflexivity.
  - apply proceeds_after in Hrun. revert Hrun. apply framed.
    apply keeps_cancel, HS.
  - apply proceeds_after in Hrun. revert Hrun. apply framed.
    apply keeps_finish, HS.
  - apply proceeds_after in Hrun. revert Hrun. apply framed.
    apply keeps_blacklist_add, HS.
  - apply proceeds_after in Hrun. revert Hrun. apply framed.
    apply keeps_blacklist_remove, HS.
  - destruct (fits value) eqn:Hv.
    + apply proceeds_after in Hrun. revert Hrun. apply framed.
      apply keeps_winner_count_fits; [exact HS | exact Hv|].
      intros c1 g. apply role_frame_modify.
    + destruct (winner_count_unfit value c Hv) as [(e & He & Hnf)|He];
        rewrite He in Hrun; simpl in Hrun.
      * rewrite Hnf in Hrun. inversion Hrun; subst. apply role_frame_refl.
      * discriminate.
Qed.

Lemma run_ledgers_ok env cmd c c' :
  (forall name k rs answer, cmd <> Create name k rs answer) ->
  ledgers_ok c -> after (run env cmd c) = Some c' -> ledgers_ok c'.
Proof.
  intros Hcmd Hc Ha. revert c c' Hc Ha. fold (keeps ledgers_ok (run env cmd)).
  pose proof ledgers_ok_plain as HP. pose proof (pl_stable _ HP) as HS.
  destruct cmd; simpl.
  - apply keeps_join, HP.
  - exfalso. eapply Hcmd. reflexivity.
  - apply keeps_cancel, HS.
  - apply keeps_finish, HS.
  - apply keeps_blacklist_add, HS.
  - apply keeps_blacklist_remove, HS.
  - apply keeps_winner_count; [exact HP|]. intros c1 g. apply ledgers_ok_modify.
Qed.

Lemma cache_ok_frame c c' : role_frame c c' -> cache_ok c -> cache_ok c'.
Proof.
  intros (Hq & Hroles & Htable & Hslot) Hc g Hg Hrows.
  unfold raffle_roles in *. rewrite Hroles, Htable in *.
  destruct Hslot as [Hslot|Hslot]; [|congruence].
  apply Hc; [congruence | exact Hrows].
Qed.

Lemma max_app xs x :
  fold_right Z.max 0 xs <= fold_right Z.max 0 (xs ++ [x]) /\
  x <= fold_right Z.max 0 (xs ++ [x]).
Proof.
  induction xs as [|y ys IH]; cbn [fold_right app]; lia.
Qed.

Lemma next_id_new_giveaway l row :
  next_id l <= next_id (with_giveaways (fun gs => gs ++ [row]) l) /\
  Giveaway.id row < next_id (with_giveaways (fun gs => gs ++ [row]) l).
Proof.
  unfold next_id. cbn [giveaways with_giveaways]. rewrite map_app. cbn [map].
  pose proof (max_app (map Giveaway.id (giveaways l)) (Giveaway.id row)). lia.
Qed.

Lemma ledger_ok_new_giveaway l row :
  ledger_ok l -> ledger_ok (with_giveaways (fun gs => gs ++ [row]) l).
Proof.
  intros [Hnd Hb]. split; [exact Hnd|]. intros r Hr.
  pose proof (next_id_new_giveaway l row). specialize (Hb r Hr). lia.
Qed.

Lemma distinct_keys_NoDup rows : distinct_keys rows = true -> NoDup rows.
Proof.
  induction rows as [|r rest IH]; simpl; intros H; constructor.
  - apply andb_true_iff in H. destruct H as [H _]. apply negb_true_iff in H.
    intros Hin. apply among_In in Hin. unfold among in Hin. congruence.
  - apply IH. apply andb_true_iff in H. tauto.
Qed.

Lemma ledger_ok_new_roles l rows :
  ledger_ok l -> distinct_keys (giveaway_roles l ++ rows) = true ->
  (forall r, In r rows -> GiveawayRole.giveaway r < next_id l) ->
  ledger_ok (with_giveaway_roles (fun rs => rs ++ rows) l).
Proof.
  intros [Hnd Hb] Hd Hrows. split; simpl.
  - apply distinct_keys_NoDup. exact Hd.
  - intros r Hr. apply in_app_or in Hr. destruct Hr; auto.
Qed.

Lemma no_rows_of_new_giveaway l f :
  ledger_ok l -> raffle_roles (next_id l) (with_giveaways f l) = [].
Proof.
  intros [_ Hb]. unfold raffle_roles. simpl.
  induction (giveaway_roles l) as [|r rs IH]; simpl; [reflexivity|].
  destruct (GiveawayRole.giveaway r =? next_id l) eqn:E.
  - apply Z.eqb_eq in E. specialize (Hb r (or_introl eq_refl)). lia.
  - apply IH. intros r' Hr'. apply Hb. right. exact Hr'.
Qed.

Lemma inv_sent c m : inv c -> inv (set_sent m c).
Proof. unfold inv, ledgers_ok, cache_ok. simpl. tauto. Qed.

(** [create] keeps the invariant, however it ends. *)
Lemma create_inv env name k rs answer c c' :
  inv c -> after (create env name k rs answer c) = Some c' -> inv c'.
Proof.
  intros Hinv. destruct (raffle c) as [g|] eqn:Hr.
  - rewrite (create_while_open env name k rs answer c g Hr). simpl.
    intros H. inversion H; subst. apply inv_sent, Hinv.
  - unfold create. prim. rewrite Hr. prim. destruct answer.
    2:{ simpl. intros H. inversion H; subst. apply inv_sent, inv_sent, Hinv. }
    destruct Hinv as ([Hs Hd] & Hq & Hc).
    set (new_id := next_id (s c)).
    set (row := Giveaway.mk new_id name k default_ongoing).
    pose proof (ledger_ok_new_giveaway (s c) row Hs) as Hs1.
    pose proof (next_id_new_giveaway (s c) row) as [_ Hlt].
    unfold create_raffle. rewrite !bind_bind. prim. rewrite bind_bind. prim.
    rewrite bind_bind. destruct (fits k) eqn:Hk.
    2:{ rewrite (bind_raise _ _ _ _ _ (commit_int_fails k _ Hk)). simpl.
        intros H. inversion H; subst c'. clear H.
        unfold inv, ledgers_ok, cache_ok. simpl.
        repeat split; try apply Hd; auto; intros g Hg; congruence. }
    rewrite (bind_ok _ _ _ _ _ (commit_int_ok k _ Hk)).
    cbn [s set_sent set_s set_db]. fold new_id row.
    destruct rs as [|r0 rs].
    + cbn [map is_nil]. rewrite bind_bind. prim. prim. prim. simpl.
      intros H. inversion H; subst c'. clear H.
      unfold inv, ledgers_ok, cache_ok. simpl. repeat split; try apply Hs1; auto.
      intros g Hg Hrows. inversion Hg; subst g. exfalso. apply Hrows.
      apply (no_rows_of_new_giveaway (s c)). exact Hs.
    + cbn [map is_nil]. rewrite !bind_bind.
      match goal with |- context [add_all_roles ?rows] =>
        set (new_rows := rows) end.
      match goal with |- after (bind (add_all_roles _) ?k ?c2) = _ -> _ =>
        pose proof (add_all_roles_eq new_rows c2) as Hadd;
        cbn [s db set_s set_db set_sent] in Hadd;
        destruct (distinct_keys (giveaway_roles
                    (with_giveaways (fun gs => gs ++ [row]) (s c)) ++ new_rows))
          eqn:Hdk
      end.
      * rewrite (bind_ok _ _ _ _ _ Hadd). rewrite bind_bind.
        erewrite bind_raise by (apply the_raffle_none; exact Hr).
        simpl. intros H. inversion H; subst c'. clear H.
        assert (Hs2 : ledger_ok (with_giveaway_roles (fun rs0 => rs0 ++ new_rows)
                         (with_giveaways (fun gs => gs ++ [row]) (s c)))).
        { apply ledger_ok_new_roles; auto. intros r Hin.
          unfold new_rows in Hin. destruct Hin as [<-|Hin]; [exact Hlt|].
          apply in_map_iff in Hin. destruct Hin as (i & <- & _). exact Hlt. }
        unfold inv, ledgers_ok, cache_ok. simpl.
        repeat split; try apply Hs2; auto; intros g Hg; congruence.
      * rewrite (bind_raise _ _ _ _ _ Hadd).
        simpl. intros H. inversion H; subst c'. clear H.
        unfold inv, ledgers_ok, cache_ok. simpl.
        repeat split; try apply Hs1; auto; intros g Hg; congruence.
Qed.

Lemma utils_get_id rs i d : utils_get rs i = Some d -> role_id d = i.
Proof.
  unfold utils_get. intros H. apply find_some in H. destruct H as [_ H].
  apply Z.eqb_eq. exact H.
Qed.

Lemma cache_ids_resolved env rows :
  cache_ids (resolved_roles env rows) =
  map (fun r => Some (GiveawayRole.id r))
      (filter (fun x => negb (stale env x)) rows).
Proof.
  unfold cache_ids, resolved_roles, stale.
  induction rows as [|r rest IH]; cbn [flat_map filter map]; [reflexivity|].
  destruct (utils_get (guild_roles env) (GiveawayRole.id r)) as [d|] eqn:E;
    cbn [negb app map option_map].
  - rewrite IH, (utils_get_id _ _ _ E). reflexivity.
  - exact IH.
Qed.

Lemma rows_after_startup env g l :
  filter (fun r => GiveawayRole.giveaway r =? g)
    (filter (fun x => negb (among (raffle_roles g l) x && stale env x))
            (giveaway_roles l)) =
  filter (fun x => negb (stale env x)) (raffle_roles g l).
Proof.
  unfold raffle_roles at 2. rewrite !filter_twice. apply filter_ext_in.
  intros x Hx. destruct (GiveawayRole.giveaway x =? g) eqn:E.
  - assert (Ha : among (raffle_roles g l) x = true).
    { apply among_In. apply filter_In. auto. }
    rewrite Ha. simpl. rewrite andb_true_r. reflexivity.
  - rewrite andb_false_r. reflexivity.
Qed.

(** Loading the cog on a sound database gives the invariant. *)
Lemma inv_startup env l c :
  ledger_ok l -> startup env l = Ok tt c -> inv c.
Proof.
  intros Hl Hs. split.
  { apply (startup_keeps ledgers_ok env l c ledgers_ok_plain); auto.
    split; exact Hl. }
  destruct (ongoing_giveaways l) as [|g [|g' rest]] eqn:E.
  - unfold startup, init in Hs.
    erewrite bind_ok in Hs by reflexivity. cbn [s] in Hs. rewrite E in Hs.
    simpl in Hs. inversion Hs; subst c. simpl. split; [reflexivity|].
    intros g Hg. discriminate.
  - destruct (startup_returns env l g (proj1 Hl) E)
      as (c1 & Hs1 & Hr & Ht & _ & _ & _ & Hroles & Hsd & Hq).
    rewrite Hs in Hs1. inversion Hs1; subst c1. split; [exact Hq|].
    intros g0 Hg0 _. rewrite Hr in Hg0. inversion Hg0; subst g0.
    unfold raffle_roles at 1. rewrite Hsd, Ht, Hroles.
    rewrite rows_after_startup. apply cache_ids_resolved.
  - unfold startup, init in Hs.
    erewrite bind_ok in Hs by reflexivity. cbn [s] in Hs. rewrite E in Hs.
    simpl in Hs. discriminate.
Qed.

Lemma ledger_ok_empty : ledger_ok empty_ledger.
Proof. split; [constructor | intros r []]. Qed.

(** Whatever way a command ends, the ledgers stay sound. *)
Lemma run_inv_ledgers env cmd c c1 :
  inv c -> after (run env cmd c) = Some c1 -> ledgers_ok c1.
Proof.
  intros IH Hafter.
  destruct cmd as [ctx|name k rs answer|answer| |member|member|value];
    try (eapply run_ledgers_ok; [|apply IH | exact Hafter]; discriminate).
  apply (create_inv env name k rs answer c c1 IH Hafter).
Qed.

(** The invariant holds in every state the cog reaches. *)
Lemma reachable_inv P c : reachable_by P c -> inv c.
Proof.
  induction 1 as [env c H | env cmd c c' _ IH _ Hrun | env c c' _ IH H
                 | env env' cmd e c c1 c' _ IH _ Hrun _ H].
  - apply (inv_startup env empty_ledger c ledger_ok_empty H).
  - pose proof (proceeds_after _ _ Hrun) as Hafter.
    destruct cmd as [ctx|name k rs answer|answer| |member|member|value];
      try (destruct IH as (Hl & Hq & Hc);
           assert (Hf : role_frame c c')
             by (eapply run_frame; [|exact Hq | exact Hrun]; discriminate);
           split; [eapply run_ledgers_ok; [|exact Hl | exact Hafter]; discriminate|];
           split; [destruct Hf as (Hf & _); congruence
                  | apply (cache_ok_frame c c' Hf Hc)]).
    apply (create_inv env name k rs answer c c' IH Hafter).
  - apply (inv_startup env (db c) c'); [|exact H].
    destruct IH as ((_ & Hd) & _). exact Hd.
  - apply (inv_startup env' (db c1) c'); [|exact H].
    assert (Hafter : after (run env cmd c) = Some c1)
      by (rewrite Hrun; reflexivity).
    apply (run_inv_ledgers env cmd c c1 IH Hafter).
Qed.

(** ** The role gate *)








(** Scenario C of the spec, and its converse: with the role [helpers]
    allowed, member 7 without it is turned away and member 8 with it is
    entered. *)
Example scenario_c :
  (exists c', join guild (request 7) restarted = Ok tt c' /\
              sent c' = [NotAllowed] /\ entries (db c') = []) /\
  (exists c', join guild (helper_request 8) restarted = Ok tt c' /\
              sent c' = [NowParticipating (author (helper_request 8))] /\
              entries (db c') = [Entry.mk 8 1 false]).
Proof.
  split; eexists; (split; [vm_compute; reflexivity|]); split; reflexivity.
Qed.

(** A default role opens the gate: on the giveaway that allows the role
    [helpers], a member who holds role 9 alone is entered where role 9 is a
    default role, and turned away where it is not. *)
Example default_role_admits :
  (exists c', join guild_with_default (veteran_request 8) restarted = Ok tt c' /\
              sent c' = [NowParticipating (author (veteran_request 8))] /\
              entries (db c') = [Entry.mk 8 1 false]) /\
  (exists c', join guild (veteran_request 8) restarted = Ok tt c' /\
              sent c' = [NotAllowed] /\ entries (db c') = []).
Proof.
  split; eexists; (split; [vm_compute; reflexivity|]); split; reflexivity.
Qed.

(** ** Joining twice *)

Lemma entries_of_none user g l :
  get_entry user g l = None -> entries_of user g l = [].
Proof.
  unfold get_entry, entries_of. intros H.
  induction (entries l) as [|e es IH]; simpl in *; [reflexivity|].
  destruct ((Entry.id e =? user) && (Entry.giveaway e =? g)); [discriminate|].
  apply IH. exact H.
Qed.




(** ** The queue at closing time *)

(** Between two commands the queue holds no request. *)
Lemma queue_empty_between_commands c : reachable c -> queue c = [].
Proof. intros H. apply (reachable_inv _ c H). Qed.

(** [finish] draws on an empty queue only: with a request pending the loop
    of [queue_empty] does not end, and no draw is made. *)
Lemma finish_never_draws_on_pending env c g :
  is_open c g -> queue c <> [] ->
  close_and_draw env c = Never /\ finish env c = Never.
Proof.
  intros (Hr & r & Hf & Ho) Hq.
  assert (H : close_and_draw env c = Never).
  { unfold close_and_draw.
    rewrite (bind_ok _ _ _ _ _ (ongoing_raffle_ok c g r Hr Hf Ho)).
    rewrite (bind_ok _ _ _ _ _ (set_ongoing_ok false c g r Hr Hf)).
    prim. unfold bind, queue_empty. cbn [queue set_db set_s].
    destruct (queue c); [congruence | reflexivity]. }
  split; [exact H|]. unfold finish, bind. rewrite H. reflexivity.
Qed.

(** ** One ongoing giveaway *)

Lemma filter_at_most_one {A} (f : A -> Z) (p : A -> bool) (l : list A) :
  NoDup (map f l) ->
  (forall x y, In x l -> In y l -> p x = true -> p y = true -> f x = f y) ->
  (length (filter p l) <= 1)%nat.
Proof.
  induction l as [|x xs IH]; simpl; intros Hnd Hsame; [lia|].
  inversion Hnd as [|? ? Hnot Hnd']; subst.
  destruct (p x) eqn:Px.
  - assert (Hnil : filter p xs = []).
    { destruct (filter p xs) as [|y ys] eqn:E; [reflexivity|]. exfalso.
      assert (Hy : In y (filter p xs)) by (rewrite E; left; reflexivity).
      apply filter_In in Hy. destruct Hy as [Hy Py].
      apply Hnot. rewrite (Hsame x y); auto. apply in_map. exact Hy. }
    simpl. rewrite Hnil. simpl. lia.
  - apply IH; auto.
Qed.

Lemma single_ledger_count slot l :
  single_ledger slot l -> (length (ongoing_giveaways l) <= 1)%nat.
Proof.
  intros [Hnd Hslot]. unfold ongoing_giveaways.
  apply (filter_at_most_one Giveaway.id); [exact Hnd|].
  intros x y Hx Hy Px Py.
  pose proof (Hslot x Hx Px) as H1. pose proof (Hslot y Hy Py) as H2. congruence.
Qed.

Lemma map_id_update g f l :
  (forall r, Giveaway.id (f r) = Giveaway.id r) ->
  map Giveaway.id (giveaways (update_giveaway g f l)) = map Giveaway.id (giveaways l).
Proof.
  intros Hf. unfold update_giveaway. simpl. rewrite map_map. apply map_ext.
  intros r. destruct (Giveaway.id r =? g); auto.
Qed.

(** A change of the giveaway in the slot that keeps its key, whatever it
    does to the flag. *)
Lemma single_ledger_update g f l :
  (forall r, Giveaway.id (f r) = Giveaway.id r) ->
  single_ledger (Some g) l -> single_ledger (Some g) (update_giveaway g f l).
Proof.
  intros Hf [Hnd Hslot]. split; [rewrite map_id_update; assumption|].
  intros r Hr Ho. unfold update_giveaway in Hr. simpl in Hr.
  apply in_map_iff in Hr. destruct Hr as (r0 & <- & Hr0).
  destruct (Giveaway.id r0 =? g) eqn:E.
  - rewrite Hf. apply Z.eqb_eq in E. congruence.
  - apply Hslot; assumption.
Qed.

(** Lowering the flag of the giveaway in the slot leaves no ongoing row. *)
Lemma single_ledger_close g l slot :
  single_ledger (Some g) l ->
  single_ledger slot (update_giveaway g (Giveaway.with_ongoing false) l).
Proof.
  intros [Hnd Hslot]. split; [rewrite map_id_update; auto|].
  intros r Hr Ho. exfalso. unfold update_giveaway in Hr. simpl in Hr.
  apply in_map_iff in Hr. destruct Hr as (r0 & <- & Hr0).
  destruct (Giveaway.id r0 =? g) eqn:E; [discriminate|].
  specialize (Hslot r0 Hr0 Ho). inversion Hslot. apply Z.eqb_neq in E. congruence.
Qed.

Lemma single_ledger_same slot l l' :
  giveaways l' = giveaways l -> single_ledger slot l -> single_ledger slot l'.
Proof. unfold single_ledger. intros ->. auto. Qed.

Lemma id_lt_next_id l r : In r (giveaways l) -> Giveaway.id r < next_id l.
Proof.
  unfold next_id. induction (giveaways l) as [|x xs IH];
    cbn [map fold_right In]; [tauto|].
  intros [->|H]; [|specialize (IH H)]; lia.
Qed.

Lemma single_kept c c' :
  raffle c' = raffle c -> giveaways (s c') = giveaways (s c) ->
  (giveaways (db c') = giveaways (db c) \/ giveaways (db c') = giveaways (s c')) ->
  single c -> single c'.
Proof.
  intros Hr Hs Hd [H1 H2]. unfold single. rewrite Hr. split.
  - apply (single_ledger_same _ (s c)); assumption.
  - destruct Hd as [Hd|Hd].
    + apply (single_ledger_same _ (db c)); assumption.
    + apply (single_ledger_same _ (s c)); [congruence | assumption].
Qed.

Lemma single_join env ctx c c' :
  single c -> queue c = [] -> after (join env ctx c) = Some c' -> single c'.
Proof.
  intros Hs Hq.
  destruct (ongoing_raffle_cases c) as [(e & He)|(Hok & g & Hopen)].
  { unfold join. rewrite (bind_raise _ _ _ _ _ He). simpl.
    intros H. inversion H; subst. exact Hs. }
  destruct (not_new ctx) eqn:Hn.
  2:{ unfold join. rewrite (bind_ok _ _ _ _ _ Hok), Hn. simpl.
      intros H. inversion H; subst. exact Hs. }
  destruct (not_blacklisted ctx) eqn:Hb.
  2:{ unfold join. rewrite (bind_ok _ _ _ _ _ Hok), Hn, Hb. simpl.
      intros H. inversion H; subst. exact Hs. }
  destruct (join_outcome env c g ctx Hopen Hq Hn Hb)
    as (c1 & Hjoin & Hr & _ & _ & Hg & _ & Hout).
  rewrite Hjoin. simpl. intros H. inversion H; subst c1. clear H.
  apply (single_kept c c'); auto.
  destruct (turned_away env c g (author ctx)).
  - left. destruct Hout as (_ & _ & ->). reflexivity.
  - destruct (get_entry (member_id (author ctx)) g (s c)).
    + left. destruct Hout as (_ & _ & ->). reflexivity.
    + right. destruct Hout as (_ & _ & ->). reflexivity.
Qed.

Lemma single_blacklist env cmd c c' :
  (exists m, cmd = BlacklistAdd m \/ cmd = BlacklistRemove m) ->
  single c -> after (run env cmd c) = Some c' -> single c'.
Proof.
  intros (m & [-> | ->]) Hs; simpl;
    [unfold blacklist_add | unfold blacklist_remove]; prim;
    destruct (existsb _ _); simpl; intros H; inversion H; subst;
    apply (single_kept c); simpl; auto.
Qed.

Lemma single_winner_count value c c' :
  single c -> after (winner_count value c) = Some c' -> single c'.
Proof.
  intros Hs. unfold winner_count.
  destruct (ongoing_raffle_cases c) as [(e & He)|(Hok & g & Hr & r & Hf & Ho)].
  { rewrite (bind_raise _ _ _ _ _ He). simpl.
    intros H. inversion H; subst. exact Hs. }
  rewrite (bind_ok _ _ _ _ _ Hok).
  rewrite (bind_ok _ _ _ _ _ (the_raffle_ok c g r Hr Hf)). prim.
  destruct (fits value) eqn:Hv.
  2:{ rewrite (bind_raise _ _ _ _ _ (commit_int_fails value _ Hv)). simpl.
      intros H. inversion H; subst c'. clear H.
      destruct Hs as [_ H2]. split; exact H2. }
  rewrite (bind_ok _ _ _ _ _ (commit_int_ok value _ Hv)).
  rewrite (find_giveaway_id _ _ _ Hf). simpl.
  intros H. inversion H; subst c'. clear H.
  destruct Hs as [H1 _]. rewrite Hr in *. unfold single. simpl. rewrite Hr.
  split; apply single_ledger_update; auto.
Qed.

Lemma single_cancel answer c c' :
  single c -> after (cancel answer c) = Some c' -> single c'.
Proof.
  intros Hs. unfold cancel.
  destruct (ongoing_raffle_cases c) as [(e & He)|(Hok & g & Hr & r & Hf & Ho)].
  { rewrite (bind_raise _ _ _ _ _ He). simpl.
    intros H. inversion H; subst. exact Hs. }
  rewrite (bind_ok _ _ _ _ _ Hok). prim. destruct answer.
  - rewrite (bind_ok _ _ _ _ _
               (set_ongoing_ok false (set_sent (sent c ++ [AreYouSure]) c) g r Hr Hf)).
    prim. prim.
    simpl. intros H. inversion H; subst c'. clear H.
    destruct Hs as [H1 _]. rewrite Hr in H1. unfold single. simpl.
    split; apply single_ledger_close; exact H1.
  - simpl. intros H. inversion H; subst c'. apply (single_kept c); simpl; auto.
Qed.

Lemma single_finish env c c' :
  single c -> queue c = [] -> after (finish env c) = Some c' -> single c'.
Proof.
  intros Hs Hq.
  destruct (ongoing_raffle_cases c) as [(e & He)|(Hok & g & Hr & r & Hf & Ho)].
  { unfold finish, close_and_draw. rewrite !bind_bind.
    rewrite (bind_raise _ _ _ _ _ He). simpl.
    intros H. inversion H; subst. exact Hs. }
  assert (Hopen : is_open c g) by (split; [exact Hr | eauto]).
  destruct (finish_total env c g Hopen Hq) as [(c2 & Hfin)|Hfin];
    [|rewrite Hfin; discriminate].
  rewrite Hfin. simpl. intros H. inversion H; subst c2. clear H.
  destruct (finish_inv env c c' Hfin) as (ws & c1 & Hcd & Hrep0).
  destruct (close_and_draw_post env c g r ws c1 Hr Hf Ho Hq Hcd)
    as (drawn & _ & _ & (Hfr & _) & Hr1 & Hf1).
  destruct (report_returns env ws c1 g _ Hr1 Hf1) as ([] & c2 & Hrep & Hpost).
  rewrite Hrep0 in Hrep. inversion Hrep; subst c2. clear Hrep.
  destruct Hs as [H1 _]. rewrite Hr in H1.
  destruct Hfr as (_ & _ & _ & _ & _ & Hg1 & _ & _ & _ & Hd1).
  assert (Hs1 : forall slot, single_ledger slot (s c1)).
  { intros slot. apply (single_ledger_same _ (s (closed g c))); [exact Hg1|].
    apply single_ledger_close. exact H1. }
  assert (Hdb1 : forall slot, single_ledger slot (db c1)).
  { intros slot. destruct Hd1 as [Hd1|Hd1].
    - apply (single_ledger_same _ (db (closed g c))); [exact Hd1|].
      apply single_ledger_close. exact H1.
    - apply (single_ledger_same _ (s c1)); [exact Hd1 | apply Hs1]. }
  destruct (_ && _).
  - destruct Hpost as (Hr' & _ & Hd' & _ & _ & Hs'). unfold single.
    rewrite Hr', Hs', Hd'. split; [|apply Hdb1].
    apply single_ledger_update; [reflexivity | apply Hs1].
  - destruct Hpost as (Hr' & Hs' & Hd' & _). unfold single.
    rewrite Hr', Hs', Hd'. split; apply Hs1.
Qed.

Lemma single_create env name k answer c c' :
  single c -> after (create env name k [] answer c) = Some c' -> single c'.
Proof.
  intros Hs. destruct (raffle c) as [g|] eqn:Hr.
  { rewrite (create_while_open env name k [] answer c g Hr). simpl.
    intros H. inversion H; subst. apply (single_kept c); simpl; auto. }
  destruct answer.
  2:{ unfold create. prim. rewrite Hr. prim. simpl.
      intros H. inversion H; subst. apply (single_kept c); simpl; auto. }
  destruct (fits k) eqn:Hk.
  2:{ rewrite (create_overflow env name k [] c Hr Hk). simpl.
      intros H. inversion H; subst c'. clear H.
      destruct Hs as [_ H2]. split; exact H2. }
  destruct (create_stores_count env name k c Hr Hk) as (c1 & Hc & Hr1 & Hd & Hsd).
  rewrite Hc. simpl. intros H. inversion H; subst c1. clear H.
  destruct Hs as [[Hnd Hslot] _]. rewrite Hr in Hslot.
  assert (Hnew : single_ledger (Some (next_id (s c))) (db c')).
  { split; rewrite Hd.
    - rewrite map_app. simpl. apply NoDup_app; [exact Hnd | repeat constructor; tauto|].
      intros i Hi [<-|[]]. apply in_map_iff in Hi. destruct Hi as (r & Hid & Hin).
      pose proof (id_lt_next_id _ _ Hin). lia.
    - intros r Hin Ho. apply in_app_or in Hin. destruct Hin as [Hin|[<-|[]]].
      + specialize (Hslot r Hin Ho). discriminate.
      + reflexivity. }
  unfold single. rewrite Hr1, Hsd. split; exact Hnew.
Qed.

Lemma single_startup env l c slot :
  ledger_ok l -> single_ledger slot l -> startup env l = Ok tt c -> single c.
Proof.
  intros Hl Hsl Hs.
  pose proof (single_ledger_count slot l Hsl) as Hcount.
  destruct (ongoing_giveaways l) as [|g [|g' rest]] eqn:E; [| |simpl in Hcount; lia].
  - unfold startup, init in Hs.
    erewrite bind_ok in Hs by reflexivity. cbn [s] in Hs. rewrite E in Hs.
    simpl in Hs. inversion Hs; subst c. unfold single. simpl.
    assert (H : single_ledger None l).
    { split; [apply Hsl|]. intros r Hr Ho. exfalso.
      assert (Hin : In r (ongoing_giveaways l)) by (apply filter_In; auto).
      rewrite E in Hin. exact Hin. }
    split; exact H.
  - destruct (startup_returns env l g (proj1 Hl) E)
      as (c1 & Hs1 & Hr & _ & Hg & _ & _ & _ & Hsd & _).
    rewrite Hs in Hs1. inversion Hs1; subst c1. unfold single. rewrite Hr, Hsd.
    assert (H : single_ledger (Some (Giveaway.id g)) (db c)).
    { apply (single_ledger_same _ l); [exact Hg|].
      split; [apply Hsl|]. intros r Hr' Ho.
      assert (Hin : In r (ongoing_giveaways l)) by (apply filter_In; auto).
      rewrite E in Hin. destruct Hin as [<-|[]]. reflexivity. }
    split; exact H.
Qed.

Lemma single_run env cmd c c' :
  no_roles cmd -> single c -> queue c = [] ->
  after (run env cmd c) = Some c' -> single c'.
Proof.
  intros Hp IH Hq Hrun.
  destruct cmd as [ctx|name k rs answer|answer| |member|member|value];
    simpl in Hrun.
  - apply (single_join env ctx c c' IH Hq Hrun).
  - simpl in Hp. subst rs. apply (single_create env name k answer c c' IH Hrun).
  - apply (single_cancel answer c c' IH Hrun).
  - apply (single_finish env c c' IH Hq Hrun).
  - apply (single_blacklist env (BlacklistAdd member) c c'); eauto.
  - apply (single_blacklist env (BlacklistRemove member) c c'); eauto.
  - apply (single_winner_count value c c' IH Hrun).
Qed.

Lemma reachable_single c : reachable_by no_roles c -> single c.
Proof.
  induction 1 as [env c H | env cmd c c' Hreach IH Hp Hrun | env c c' Hreach IH H
                 | env env' cmd e c c1 c' Hreach IH Hp Hrun _ H].
  - apply (single_startup env empty_ledger c None ledger_ok_empty); [|exact H].
    split; [constructor | intros r []].
  - pose proof (reachable_inv _ c Hreach) as (_ & Hq & _).
    apply (single_run env cmd c c' Hp IH Hq (proceeds_after _ _ Hrun)).
  - pose proof (reachable_inv _ c Hreach) as ((_ & Hd) & _).
    apply (single_startup env (db c) c' (raffle c) Hd); [|exact H].
    apply IH.
  - pose proof (reachable_inv _ c Hreach) as Hinv.
    assert (Hafter : after (run env cmd c) = Some c1)
      by (rewrite Hrun; reflexivity).
    pose proof (run_inv_ledgers env cmd c c1 Hinv Hafter) as (_ & Hd).
    apply (single_startup env' (db c1) c' (raffle c1) Hd); [|exact H].
    apply (single_run env cmd c c1 Hp IH (proj1 (proj2 Hinv)) Hafter).
Qed.

(** Without the defect of [create_raffle] the invariant of the spec holds:
    in every state reached by commands that declare no allowed role, at most
    one persisted Giveaway has the ongoing flag, and it is the one in the
    slot. *)
Lemma at_most_one_ongoing_without_roles c :
  reachable_by no_roles c ->
  (length (ongoing_giveaways (db c)) <= 1)%nat /\
  forall r, In r (ongoing_giveaways (db c)) -> raffle c = Some (Giveaway.id r).
Proof.
  intros H. destruct (reachable_single c H) as [_ Hd]. split.
  - apply (single_ledger_count (raffle c)). exact Hd.
  - intros r Hr. apply filter_In in Hr. destruct Hr as [Hin Ho].
    apply (proj2 Hd); assumption.
Qed.

(** * Further properties of the commands *)

(** ** [cancel] *)

Lemma find_update_other g g' f l :
  (forall r, Giveaway.id (f r) = Giveaway.id r) -> g' <> g ->
  find_giveaway g' (update_giveaway g f l) = find_giveaway g' l.
Proof.
  intros Hf Hne. unfold find_giveaway, update_giveaway. simpl.
  induction (giveaways l) as [|r rs IH]; simpl; [reflexivity|].
  destruct (Giveaway.id r =? g) eqn:E.
  - rewrite Hf. apply Z.eqb_eq in E.
    destruct (Giveaway.id r =? g') eqn:E'; [apply Z.eqb_eq in E'; congruence|].
    exact IH.
  - destruct (Giveaway.id r =? g'); [reflexivity | exact IH].
Qed.

(** X1.  [cancel] on an open giveaway.  Answered yes, it lowers the ongoing
    flag of that giveaway, empties the slot and commits: the state is NONE;
    every other Giveaway row, the entries, the role rows and the blacklist
    are as the session had them, and the resolved roles of the cog are not
    reset.  Answered no, it changes nothing but the transcript. *)
Theorem cancel_on_open c g :
  is_open c g ->
  (exists c',
     cancel true c = Ok tt c' /\
     sent c' = sent c ++ [AreYouSure; Cancelled] /\
     is_none_after c' g /\
     db c' = s c' /\
     (forall g', g' <> g -> find_giveaway g' (s c') = find_giveaway g' (s c)) /\
     entries (s c') = entries (s c) /\
     giveaway_roles (s c') = giveaway_roles (s c) /\
     blacklist (s c') = blacklist (s c) /\
     roles c' = roles c) /\
  (exists c',
     cancel false c = Ok tt c' /\
     sent c' = sent c ++ [AreYouSure; Continues] /\
     s c' = s c /\ db c' = db c /\ raffle c' = raffle c /\ roles c' = roles c).
Proof.
  intros (Hr & r & Hf & Ho). split.
  - unfold cancel. rewrite (bind_ok _ _ _ _ _ (ongoing_raffle_ok c g r Hr Hf Ho)).
    prim.
    rewrite (bind_ok _ _ _ _ _
               (set_ongoing_ok false (set_sent (sent c ++ [AreYouSure]) c) g r Hr Hf)).
    prim. prim. eexists. split; [reflexivity|]. simpl.
    split; [rewrite <- app_assoc; reflexivity|].
    split; [|split; [reflexivity|split; [|repeat split; reflexivity]]].
    + unfold is_none_after. simpl.
      rewrite (ongoing_flag_update g false (s c) r Hf). auto.
    + intros g' Hne. apply find_update_other; [reflexivity | exact Hne].
  - unfold cancel. rewrite (bind_ok _ _ _ _ _ (ongoing_raffle_ok c g r Hr Hf Ho)).
    prim. eexists. split; [reflexivity|]. simpl.
    split; [rewrite <- app_assoc; reflexivity | repeat split; reflexivity].
Qed.

(** An instance: giveaway "Spring" with one entry. *)
Lemma cancel_on_open_witness :
  (exists c',
     cancel true (spring 2 [100]) = Ok tt c' /\
     sent c' = sent (spring 2 [100]) ++ [AreYouSure; Cancelled] /\
     is_none_after c' 1 /\
     db c' = s c' /\
     (forall g', g' <> 1 ->
        find_giveaway g' (s c') = find_giveaway g' (s (spring 2 [100]))) /\
     entries (s c') = entries (s (spring 2 [100])) /\
     giveaway_roles (s c') = giveaway_roles (s (spring 2 [100])) /\
     blacklist (s c') = blacklist (s (spring 2 [100])) /\
     roles c' = roles (spring 2 [100])) /\
  (exists c',
     cancel false (spring 2 [100]) = Ok tt c' /\
     sent c' = sent (spring 2 [100]) ++ [AreYouSure; Continues] /\
     s c' = s (spring 2 [100]) /\ db c' = db (spring 2 [100]) /\
     raffle c' = raffle (spring 2 [100]) /\ roles c' = roles (spring 2 [100])).
Proof.
  apply (cancel_on_open (spring 2 [100]) 1). apply is_open_spring.
Defined.

(** ** The check [ongoing_raffle] *)

Lemma ongoing_raffle_refuses c :
  no_ongoing c -> ongoing_raffle c = Raise NoOnGoingRaffle c.
Proof.
  intros [Hr|(g & r & Hr & Hf & Ho)]; unfold ongoing_raffle; prim; rewrite Hr.
  - reflexivity.
  - rewrite (bind_ok _ _ _ _ _ (the_raffle_ok c g r Hr Hf)). rewrite Ho.
    reflexivity.
Qed.

(** X2.  With no giveaway ongoing, the commands guarded by [ongoing_raffle]
    ([join], [cancel], [finish], [winner_count]) raise NoOnGoingRaffle and
    leave the cog as it is: nothing is queued, written or sent. *)
Theorem guarded_commands_refuse env ctx answer value c :
  no_ongoing c ->
  join env ctx c = Raise NoOnGoingRaffle c /\
  cancel answer c = Raise NoOnGoingRaffle c /\
  finish env c = Raise NoOnGoingRaffle c /\
  winner_count value c = Raise NoOnGoingRaffle c.
Proof.
  intros H. pose proof (ongoing_raffle_refuses c H) as Hc.
  repeat split.
  - unfold join. apply bind_raise. exact Hc.
  - unfold cancel. apply bind_raise. exact Hc.
  - unfold finish, close_and_draw. apply bind_raise, bind_raise. exact Hc.
  - unfold winner_count. apply bind_raise. exact Hc.
Qed.

(** An instance: the cog just installed. *)
Lemma guarded_commands_refuse_witness :
  join guild (request 100) installed = Raise NoOnGoingRaffle installed /\
  cancel true installed = Raise NoOnGoingRaffle installed /\
  finish guild installed = Raise NoOnGoingRaffle installed /\
  winner_count 3 installed = Raise NoOnGoingRaffle installed.
Proof.
  apply (guarded_commands_refuse guild (request 100) true 3 installed).
  left. reflexivity.
Defined.

(** ** [winner_count] *)

(** X3.  [winner_count] on an open giveaway, with a value sqlite can hold
    (signed, 64 bits), stores the value for that giveaway, in the session and
    in the file, and reports it; the giveaway stays ongoing and in the slot,
    and every other Giveaway row, the entries, the role rows and the
    blacklist are as the session had them.  With a value sqlite cannot hold
    the commit fails: nothing is written to the file and nothing is sent. *)
Theorem winner_count_on_open value c g :
  is_open c g ->
  (fits value = true ->
   exists c',
     winner_count value c = Ok tt c' /\
     sent c' = sent c ++ [Updated value] /\
     win_count_of g (s c') = Some value /\
     db c' = s c' /\
     is_open c' g /\
     (forall g', g' <> g -> find_giveaway g' (s c') = find_giveaway g' (s c)) /\
     entries (s c') = entries (s c) /\
     giveaway_roles (s c') = giveaway_roles (s c) /\
     blacklist (s c') = blacklist (s c)) /\
  (fits value = false ->
   exists c',
     winner_count value c = Raise OverflowError c' /\
     db c' = db c /\ sent c' = sent c).
Proof.
  intros (Hr & r & Hf & Ho). unfold winner_count.
  rewrite (bind_ok _ _ _ _ _ (ongoing_raffle_ok c g r Hr Hf Ho)).
  rewrite (bind_ok _ _ _ _ _ (the_raffle_ok c g r Hr Hf)). prim.
  rewrite (find_giveaway_id _ _ _ Hf). split; intros Hv.
  - rewrite (bind_ok _ _ _ _ _ (commit_int_ok value _ Hv)).
    eexists. split; [reflexivity|]. simpl.
    assert (Hfind : find_giveaway g
              (update_giveaway g (Giveaway.with_win_count value) (s c)) =
              Some (Giveaway.with_win_count value r)).
    { rewrite find_update_giveaway by reflexivity. rewrite Hf. reflexivity. }
    split; [reflexivity|]. split.
    { unfold win_count_of. rewrite Hfind. reflexivity. }
    split; [reflexivity|]. split.
    { split; [exact Hr|]. eexists. split; [exact Hfind | exact Ho]. }
    split; [|repeat split; reflexivity].
    intros g' Hne. apply find_update_other; [reflexivity | exact Hne].
  - rewrite (bind_raise _ _ _ _ _ (commit_int_fails value _ Hv)).
    eexists. split; [reflexivity|]. split; reflexivity.
Qed.

(** An instance: giveaway "Spring", from two winners to five, and to a
    count of 2^63. *)
Lemma winner_count_on_open_witness :
  (exists c',
     winner_count 5 (spring 2 [100]) = Ok tt c' /\
     sent c' = sent (spring 2 [100]) ++ [Updated 5] /\
     win_count_of 1 (s c') = Some 5 /\
     db c' = s c' /\
     is_open c' 1 /\
     (forall g', g' <> 1 ->
        find_giveaway g' (s c') = find_giveaway g' (s (spring 2 [100]))) /\
     entries (s c') = entries (s (spring 2 [100])) /\
     giveaway_roles (s c') = giveaway_roles (s (spring 2 [100])) /\
     blacklist (s c') = blacklist (s (spring 2 [100]))) /\
  (exists c',
     winner_count (2 ^ 63) (spring 2 [100]) = Raise OverflowError c' /\
     db c' = db (spring 2 [100]) /\ sent c' = sent (spring 2 [100])).
Proof.
  split.
  - apply (winner_count_on_open 5 (spring 2 [100]) 1);
      [apply is_open_spring | reflexivity].
  - apply (winner_count_on_open (2 ^ 63) (spring 2 [100]) 1);
      [apply is_open_spring | reflexivity].
Defined.

(** ** The blacklist *)

Lemma listed_In m l : listed m l = true <-> In (member_id m) (blacklist l).
Proof.
  unfold listed. rewrite existsb_exists. split.
  - intros (x & Hx & E). apply Z.eqb_eq in E. subst. exact Hx.
  - intros H. exists (member_id m). split; [exact H | apply Z.eqb_refl].
Qed.

Lemma filter_out_absent i l :
  ~ In i l -> filter (fun j => negb (j =? i)) l = l.
Proof.
  induction l as [|x xs IH]; simpl; intros H; [reflexivity|].
  destruct (x =? i) eqn:E.
  - apply Z.eqb_eq in E. subst. tauto.
  - simpl. rewrite IH; tauto.
Qed.

(** X4.  [blacklist add] then [blacklist remove] of a member who was not
    listed: the member is listed in the file in between, and the blacklist
    is afterwards what it was, in the session and in the file. *)
Theorem blacklist_add_then_remove m c :
  listed m (s c) = false ->
  exists c1 c2,
    blacklist_add m c = Ok tt c1 /\
    In (member_id m) (blacklist (db c1)) /\
    blacklist_remove m c1 = Ok tt c2 /\
    blacklist (s c2) = blacklist (s c) /\
    blacklist (db c2) = blacklist (s c) /\
    sent c2 = sent c ++ [BlacklistAdded m; BlacklistRemoved m].
Proof.
  intros Hl. unfold blacklist_add. prim. fold (listed m (s c)). rewrite Hl.
  prim. prim. eexists _, _. split; [reflexivity|]. split.
  { simpl. apply in_or_app. right. left. reflexivity. }
  unfold blacklist_remove. prim. cbn [s set_sent set_db set_s].
  assert (Hin : existsb (Z.eqb (member_id m))
                  (blacklist (with_blacklist (fun b => b ++ [member_id m]) (s c)))
                = true).
  { apply existsb_exists. exists (member_id m). split; [|apply Z.eqb_refl].
    simpl. apply in_or_app. right. left. reflexivity. }
  rewrite Hin. prim. prim. split; [reflexivity|]. simpl.
  assert (Hback : filter (fun i => negb (i =? member_id m))
                    (blacklist (s c) ++ [member_id m]) = blacklist (s c)).
  { rewrite filter_app. simpl. rewrite Z.eqb_refl. simpl. rewrite app_nil_r.
    apply filter_out_absent. intros H. apply listed_In in H. congruence. }
  rewrite Hback, <- app_assoc. auto.
Qed.

(** An instance: member 7 on the sample blacklist. *)
Lemma blacklist_add_then_remove_witness :
  exists c1 c2,
    blacklist_add (member 7) spring_with_blacklist = Ok tt c1 /\
    In (member_id (member 7)) (blacklist (db c1)) /\
    blacklist_remove (member 7) c1 = Ok tt c2 /\
    blacklist (s c2) = blacklist (s spring_with_blacklist) /\
    blacklist (db c2) = blacklist (s spring_with_blacklist) /\
    sent c2 = sent spring_with_blacklist ++
              [BlacklistAdded (member 7); BlacklistRemoved (member 7)].
Proof.
  apply (blacklist_add_then_remove (member 7) spring_with_blacklist).
  reflexivity.
Defined.

(** X5.  [blacklist add] is idempotent: after it the member is listed, and
    a second [blacklist add] of the member answers that the member is
    already listed and writes nothing. *)
Theorem blacklist_add_twice m c :
  exists c1 c2,
    blacklist_add m c = Ok tt c1 /\
    In (member_id m) (blacklist (s c1)) /\
    blacklist_add m c1 = Ok tt c2 /\
    s c2 = s c1 /\ db c2 = db c1 /\
    sent c2 = sent c1 ++ [BlacklistAlready m].
Proof.
  assert (Hagain : forall c1,
            In (member_id m) (blacklist (s c1)) ->
            exists c2, blacklist_add m c1 = Ok tt c2 /\
                       s c2 = s c1 /\ db c2 = db c1 /\
                       sent c2 = sent c1 ++ [BlacklistAlready m]).
  { intros c1 Hin. unfold blacklist_add. prim. fold (listed m (s c1)).
    rewrite (proj2 (listed_In m (s c1)) Hin).
    eexists. split; [reflexivity|]. simpl. auto. }
  destruct (listed m (s c)) eqn:Hl.
  - assert (Hin : In (member_id m) (blacklist (s c))) by (apply listed_In; exact Hl).
    destruct (Hagain c Hin) as (c1 & H1 & Hs1 & _ & _).
    assert (Hin1 : In (member_id m) (blacklist (s c1))) by (rewrite Hs1; exact Hin).
    destruct (Hagain c1 Hin1) as (c2 & H2 & Hrest).
    exists c1, c2. auto.
  - set (l1 := with_blacklist (fun b => b ++ [member_id m]) (s c)).
    set (c1 := set_sent (sent c ++ [BlacklistAdded m]) (set_db l1 (set_s l1 c))).
    assert (H1 : blacklist_add m c = Ok tt c1).
    { unfold blacklist_add. prim. fold (listed m (s c)). rewrite Hl.
      prim. prim. reflexivity. }
    assert (Hin1 : In (member_id m) (blacklist (s c1)))
      by (simpl; apply in_or_app; right; left; reflexivity).
    destruct (Hagain c1 Hin1) as (c2 & H2 & Hrest).
    exists c1, c2. auto.
Qed.

(** X6.  After [blacklist remove] the member is not listed, whether or not
    the member was, and the other members are listed as before. *)
Theorem blacklist_remove_unlists m c :
  exists c1,
    blacklist_remove m c = Ok tt c1 /\
    ~ In (member_id m) (blacklist (s c1)) /\
    (forall i, i <> member_id m ->
       (In i (blacklist (s c1)) <-> In i (blacklist (s c)))) /\
    (listed m (s c) = false -> s c1 = s c /\ db c1 = db c).
Proof.
  unfold blacklist_remove. prim. fold (listed m (s c)).
  destruct (listed m (s c)) eqn:Hl.
  - prim. prim. eexists. split; [reflexivity|]. simpl. split; [|split].
    + intros H. apply filter_In in H. destruct H as [_ H].
      rewrite Z.eqb_refl in H. discriminate.
    + intros i Hne. rewrite filter_In. split; [tauto|]. intros H.
      split; [exact H|]. apply negb_true_iff. apply Z.eqb_neq. exact Hne.
    + discriminate.
  - eexists. split; [reflexivity|]. simpl. split; [|split].
    + intros H. apply listed_In in H. congruence.
    + tauto.
    + auto.
Qed.

(** ** The queue of [join] *)

(** X7.  [join] past the checks, on an open giveaway and an empty queue,
    takes its own request back from the queue, which is empty again when it
    returns.  It calls [task_done] only when it enters the member: after a
    request that is turned away or finds the entry there is, the count of
    unfinished tasks of the queue is one more than before. *)
Theorem join_settles_the_queue env c g ctx :
  is_open c g -> queue c = [] ->
  not_new ctx = true -> not_blacklisted ctx = true ->
  exists c',
    join env ctx c = Ok tt c' /\ queue c' = [] /\
    ((sent c' = sent c ++ [NowParticipating (author ctx)] /\
      unfinished c' = unfinished c) \/
     ((sent c' = sent c ++ [NotAllowed] \/
       sent c' = sent c ++ [AlreadyParticipating]) /\
      unfinished c' = S (unfinished c))).
Proof.
  intros (Hr & r & Hf & Ho) Hq Hn Hb.
  rewrite (join_as_enter env ctx c g r Hr Hf Ho Hq Hn Hb).
  assert (Hw : the_raffle (waiting c) = Ok r (waiting c))
    by (apply (the_raffle_ok _ g); assumption).
  unfold enter. rewrite (bind_ok _ _ _ _ _ Hw). prim. prim.
  destruct (_ && _).
  - eexists. split; [reflexivity|]. simpl. auto.
  - cbv zeta. rewrite (bind_ok _ _ _ _ _ Hw). prim.
    destruct (get_entry _ _ _).
    + eexists. split; [reflexivity|]. simpl. auto.
    + prim. prim. prim. eexists. split; [reflexivity|]. simpl. auto.
Qed.

(** An instance: member 100 joins giveaway "Spring" a second time. *)
Lemma join_settles_the_queue_witness :
  exists c',
    join guild (request 100) (spring 2 [100]) = Ok tt c' /\ queue c' = [] /\
    ((sent c' = sent (spring 2 [100]) ++ [NowParticipating (author (request 100))] /\
      unfinished c' = unfinished (spring 2 [100])) \/
     ((sent c' = sent (spring 2 [100]) ++ [NotAllowed] \/
       sent c' = sent (spring 2 [100]) ++ [AlreadyParticipating]) /\
      unfinished c' = S (unfinished (spring 2 [100])))).
Proof.
  apply (join_settles_the_queue guild (spring 2 [100]) 1 (request 100)).
  - apply is_open_spring.
  - reflexivity.
  - reflexivity.
  - reflexivity.
Defined.

(** * What the writes of the cog keep *)

Lemma ledger_ext l l' :
  giveaways l' = giveaways l -> entries l' = entries l ->
  giveaway_roles l' = giveaway_roles l -> blacklist l' = blacklist l ->
  l' = l.
Proof. destruct l, l'. simpl. intros -> -> -> ->. reflexivity. Qed.

Lemma find_giveaway_In g l r :
  find_giveaway g l = Some r -> In g (map Giveaway.id (giveaways l)).
Proof.
  intros H. pose proof (find_giveaway_id _ _ _ H) as <-.
  unfold find_giveaway in H. apply find_some in H. apply in_map. tauto.
Qed.

(** What [join] writes, for a request past the checks. *)
Lemma join_writes env c g ctx :
  is_open c g -> queue c = [] ->
  not_new ctx = true -> not_blacklisted ctx = true ->
  exists c',
    join env ctx c = Ok tt c' /\
    ((s c' = s c /\ db c' = db c) \/
     (get_entry (member_id (author ctx)) g (s c) = None /\
      s c' = with_entries
               (fun es => es ++ [Entry.mk (member_id (author ctx)) g default_winner])
               (s c) /\
      db c' = s c')).
Proof.
  intros (Hr & r & Hf & Ho) Hq Hn Hb.
  rewrite (join_as_enter env ctx c g r Hr Hf Ho Hq Hn Hb).
  assert (Hw : the_raffle (waiting c) = Ok r (waiting c))
    by (apply (the_raffle_ok _ g); assumption).
  unfold enter. rewrite (bind_ok _ _ _ _ _ Hw). prim. prim.
  destruct (_ && _).
  - eexists. split; [reflexivity|]. simpl. auto.
  - cbv zeta. rewrite (bind_ok _ _ _ _ _ Hw). prim.
    rewrite (find_giveaway_id _ _ _ Hf). change (s (waiting c)) with (s c).
    destruct (get_entry (member_id (author ctx)) g (s c)) eqn:E.
    + eexists. split; [reflexivity|]. simpl. auto.
    + prim. prim. prim. eexists. split; [reflexivity|]. simpl. auto.
Qed.

Section Written.
Variable P : Ledger -> Prop.
Hypothesis HP : written P.

Lemma both_same c c' : s c' = s c -> db c' = db c -> both P c -> both P c'.
Proof. unfold both. intros -> ->. auto. Qed.

Lemma written_join env ctx c c' :
  both P c -> queue c = [] -> after (join env ctx c) = Some c' -> both P c'.
Proof.
  intros Hc Hq.
  destruct (ongoing_raffle_cases c) as [(e & He)|(Hok & g & Hopen)].
  { unfold join. rewrite (bind_raise _ _ _ _ _ He). simpl.
    intros H. inversion H; subst. exact Hc. }
  destruct (not_new ctx) eqn:Hn.
  2:{ unfold join. rewrite (bind_ok _ _ _ _ _ Hok), Hn. simpl.
      intros H. inversion H; subst. exact Hc. }
  destruct (not_blacklisted ctx) eqn:Hb.
  2:{ unfold join. rewrite (bind_ok _ _ _ _ _ Hok), Hn, Hb. simpl.
      intros H. inversion H; subst. exact Hc. }
  destruct (join_writes env c g ctx Hopen Hq Hn Hb) as (c1 & Hjoin & Hout).
  rewrite Hjoin. simpl. intros H. inversion H; subst c1. clear H.
  destruct Hout as [[Hs Hd]|(Hnone & Hs & Hd)].
  - apply (both_same c); assumption.
  - destruct Hopen as (_ & r & Hf & _).
    assert (Hnew : P (s c')).
    { rewrite Hs. apply (wr_entry P HP); [apply Hc | exact Hnone|].
      apply (find_giveaway_In g (s c) r Hf). }
    split; [exact Hnew | rewrite Hd; exact Hnew].
Qed.

Lemma written_blacklist_add m c c' :
  both P c -> after (blacklist_add m c) = Some c' -> both P c'.
Proof.
  intros Hc. unfold blacklist_add. prim.
  destruct (existsb _ _) eqn:E.
  - simpl. intros H. inversion H; subst. apply (both_same c); auto.
  - prim. prim. simpl. intros H. inversion H; subst c'. unfold both. simpl.
    split; apply (wr_blacklist_add P HP); try exact E; apply Hc.
Qed.

Lemma written_blacklist_remove m c c' :
  both P c -> after (blacklist_remove m c) = Some c' -> both P c'.
Proof.
  intros Hc. unfold blacklist_remove. prim.
  destruct (existsb _ _) eqn:E.
  - prim. prim. simpl. intros H. inversion H; subst c'. unfold both. simpl.
    split; apply (wr_blacklist_remove P HP); apply Hc.
  - simpl. intros H. inversion H; subst. apply (both_same c); auto.
Qed.

Lemma written_winner_count value c c' :
  both P c -> after (winner_count value c) = Some c' -> both P c'.
Proof.
  intros Hc. unfold winner_count.
  destruct (ongoing_raffle_cases c) as [(e & He)|(Hok & g & Hr & r & Hf & Ho)].
  { rewrite (bind_raise _ _ _ _ _ He). simpl.
    intros H. inversion H; subst. exact Hc. }
  rewrite (bind_ok _ _ _ _ _ Hok).
  rewrite (bind_ok _ _ _ _ _ (the_raffle_ok c g r Hr Hf)). prim.
  destruct (fits value) eqn:Hv.
  2:{ rewrite (bind_raise _ _ _ _ _ (commit_int_fails value _ Hv)). simpl.
      intros H. inversion H; subst c'. split; apply Hc. }
  rewrite (bind_ok _ _ _ _ _ (commit_int_ok value _ Hv)).
  simpl. intros H. inversion H; subst c'. clear H. unfold both. simpl.
  split; apply (wr_giveaway P HP); try reflexivity; apply Hc.
Qed.

Lemma written_cancel answer c c' :
  both P c -> after (cancel answer c) = Some c' -> both P c'.
Proof.
  intros Hc. unfold cancel.
  destruct (ongoing_raffle_cases c) as [(e & He)|(Hok & g & Hr & r & Hf & Ho)].
  { rewrite (bind_raise _ _ _ _ _ He). simpl.
    intros H. inversion H; subst. exact Hc. }
  rewrite (bind_ok _ _ _ _ _ Hok). prim. destruct answer.
  - rewrite (bind_ok _ _ _ _ _
               (set_ongoing_ok false (set_sent (sent c ++ [AreYouSure]) c) g r Hr Hf)).
    prim. prim. simpl. intros H. inversion H; subst c'. clear H.
    unfold both. simpl.
    split; apply (wr_giveaway P HP); try reflexivity; apply Hc.
  - simpl. intros H. inversion H; subst c'. apply (both_same c); auto.
Qed.

Lemma written_get_winner_loop env pool rounds :
  forall c w c',
    both P c -> get_winner_loop env pool rounds c = Ok w c' -> both P c'.
Proof.
  induction rounds as [|rounds IH]; intros c w c' Hc;
    rewrite get_winner_loop_eq; destruct pool as [|e0 rest] eqn:E;
    try (intros H; inversion H; subst; exact Hc); try discriminate.
  cbv zeta. rewrite <- E in *. set (e := choice env c pool e0).
  destruct (get_member env (Entry.id e)).
  - intros H. inversion H; subst. unfold both, won. simpl.
    split; apply (wr_mark P HP); apply Hc.
  - apply IH; auto. unfold both, dropped. simpl.
    split; [apply (wr_delete P HP)|]; apply Hc.
Qed.

Lemma written_draw env g r n :
  forall c ws c',
    raffle c = Some g -> find_giveaway g (s c) = Some r -> both P c ->
    draw env n c = Ok ws c' -> both P c'.
Proof.
  induction n as [|n IH]; intros c ws c' Hr Hf Hc Hd.
  - inversion Hd; subst. exact Hc.
  - apply draw_inv in Hd. destruct Hd as (w & c1 & ws1 & Hw & Hd & ->).
    destruct (get_winner_post env g r c w c1 Hr Hf Hw) as (Hfr & _).
    assert (Hc1 : both P c1).
    { rewrite (get_winner_eq env c g r Hr Hf) in Hw.
      apply (written_get_winner_loop env _ _ c w c1 Hc Hw). }
    assert (Hr1 : raffle c1 = Some g) by (destruct Hfr as (H & _); congruence).
    assert (Hf1 : find_giveaway g (s c1) = Some r)
      by (rewrite (draw_frame_find g c c1 Hfr); exact Hf).
    apply (IH c1 ws1 c' Hr1 Hf1 Hc1 Hd).
Qed.

Lemma written_finish env c c' :
  both P c -> queue c = [] -> after (finish env c) = Some c' -> both P c'.
Proof.
  intros Hc Hq.
  destruct (ongoing_raffle_cases c) as [(e & He)|(Hok & g & Hr & r & Hf & Ho)].
  { unfold finish, close_and_draw. rewrite !bind_bind.
    rewrite (bind_raise _ _ _ _ _ He). simpl.
    intros H. inversion H; subst. exact Hc. }
  assert (Hopen : is_open c g) by (split; [exact Hr | eauto]).
  destruct (finish_total env c g Hopen Hq) as [(c2 & Hfin)|Hfin];
    [|rewrite Hfin; discriminate].
  rewrite Hfin. simpl. intros H. inversion H; subst c2. clear H.
  destruct (finish_inv env c c' Hfin) as (ws & c1 & Hcd & Hrep0).
  destruct (close_and_draw_post env c g r ws c1 Hr Hf Ho Hq Hcd)
    as (drawn & _ & Hdraw & _ & Hr1 & Hf1).
  destruct (report_returns env ws c1 g _ Hr1 Hf1) as ([] & c2 & Hrep & Hpost).
  rewrite Hrep0 in Hrep. inversion Hrep; subst c2. clear Hrep.
  assert (Hclosed : both P (closed g c)).
  { unfold both, closed. simpl.
    split; apply (wr_giveaway P HP); try reflexivity; apply Hc. }
  assert (Hc1 : both P c1).
  { apply (written_draw env g (Giveaway.with_ongoing false r)
             (Z.to_nat (Giveaway.win_count r)) (closed g c) drawn c1); auto.
    apply find_closed. exact Hf. }
  destruct (_ && _).
  - destruct Hpost as (_ & _ & Hd' & _ & _ & Hs'). unfold both.
    rewrite Hs', Hd'. split; [|apply Hc1].
    apply (wr_giveaway P HP); [reflexivity | apply Hc1].
  - destruct Hpost as (_ & Hs' & Hd' & _). unfold both.
    rewrite Hs', Hd'. split; apply Hc1.
Qed.

Lemma written_create env name k rs answer c c' :
  both P c -> after (create env name k rs answer c) = Some c' -> both P c'.
Proof.
  intros Hc. destruct (raffle c) as [g|] eqn:Hr.
  { rewrite (create_while_open env name k rs answer c g Hr). simpl.
    intros H. inversion H; subst. apply (both_same c); auto. }
  unfold create. prim. rewrite Hr. prim. destruct answer.
  2:{ simpl. intros H. inversion H; subst. apply (both_same c); auto. }
  set (new_id := next_id (s c)).
  set (row := Giveaway.mk new_id name k default_ongoing).
  set (l1 := with_giveaways (fun gs => gs ++ [row]) (s c)).
  assert (H1 : P l1) by (apply (wr_create P HP); apply Hc).
  unfold create_raffle. rewrite !bind_bind. prim. rewrite bind_bind. prim.
  rewrite bind_bind. destruct (fits k) eqn:Hk.
  2:{ rewrite (bind_raise _ _ _ _ _ (commit_int_fails k _ Hk)). simpl.
      intros H. inversion H; subst c'. split; apply Hc. }
  rewrite (bind_ok _ _ _ _ _ (commit_int_ok k _ Hk)).
  cbn [s set_sent set_s set_db]. fold new_id row l1.
  destruct rs as [|r0 rs].
  - cbn [map is_nil]. rewrite bind_bind. prim. prim. prim. simpl.
    intros H. inversion H; subst c'. split; exact H1.
  - cbn [map is_nil]. rewrite !bind_bind.
    match goal with |- context [add_all_roles ?rows] =>
      set (new_rows := rows) end.
    match goal with |- after (bind (add_all_roles _) ?k ?c2) = _ -> _ =>
      pose proof (add_all_roles_eq new_rows c2) as Hadd;
      cbn [s db set_s set_db set_sent] in Hadd;
      destruct (distinct_keys (giveaway_roles l1 ++ new_rows)) eqn:Hdk
    end.
    + rewrite (bind_ok _ _ _ _ _ Hadd). rewrite bind_bind.
      erewrite bind_raise by (apply the_raffle_none; exact Hr).
      simpl. intros H. inversion H; subst c'. clear H.
      assert (H2 : P (with_giveaway_roles (fun rs0 => rs0 ++ new_rows) l1)).
      { apply (wr_roles P HP); auto. intros x Hin.
        assert (Hg : GiveawayRole.giveaway x = new_id).
        { unfold new_rows in Hin. destruct Hin as [<-|Hin]; [reflexivity|].
          apply in_map_iff in Hin. destruct Hin as (i & <- & _). reflexivity. }
        rewrite Hg. unfold l1. simpl. rewrite map_app. apply in_or_app.
        right. left. reflexivity. }
      split; exact H2.
    + rewrite (bind_raise _ _ _ _ _ Hadd).
      simpl. intros H. inversion H; subst c'. split; exact H1.
Qed.

Lemma written_startup env l c :
  NoDup (giveaway_roles l) -> P l -> startup env l = Ok tt c -> both P c.
Proof.
  intros Hnd Hl Hs.
  destruct (ongoing_giveaways l) as [|g [|g' rest]] eqn:E.
  - unfold startup, init in Hs.
    erewrite bind_ok in Hs by reflexivity. cbn [s] in Hs. rewrite E in Hs.
    simpl in Hs. inversion Hs; subst c. split; exact Hl.
  - destruct (startup_returns env l g Hnd E)
      as (c1 & Hs1 & _ & Ht & Hg & He & Hb & _ & Hsd & _).
    rewrite Hs in Hs1. inversion Hs1; subst c1.
    assert (Hdb : db c = with_giveaway_roles
                (filter (fun x => negb (among (raffle_roles (Giveaway.id g) l) x
                                        && stale env x))) l).
    { apply ledger_ext; simpl; assumption. }
    unfold both. rewrite Hsd, Hdb.
    split; apply (wr_roles_filter P HP); exact Hl.
  - unfold startup, init in Hs.
    erewrite bind_ok in Hs by reflexivity. cbn [s] in Hs. rewrite E in Hs.
    simpl in Hs. discriminate.
Qed.

(** In every state the cog reaches, a property that its writes keep and that
    the empty database has holds of the session and of the file. *)
Lemma written_reachable Q c :
  P empty_ledger -> reachable_by Q c -> both P c.
Proof.
  intros H0.
  assert (Hrun : forall env cmd c c',
            both P c -> queue c = [] ->
            after (run env cmd c) = Some c' -> both P c').
  { intros env cmd c0 c' IH Hq Hrun.
    destruct cmd as [ctx|name k rs answer|answer| |member|member|value];
      simpl in Hrun.
    + apply (written_join env ctx c0 c' IH Hq Hrun).
    + apply (written_create env name k rs answer c0 c' IH Hrun).
    + apply (written_cancel answer c0 c' IH Hrun).
    + apply (written_finish env c0 c' IH Hq Hrun).
    + apply (written_blacklist_add member c0 c' IH Hrun).
    + apply (written_blacklist_remove member c0 c' IH Hrun).
    + apply (written_winner_count value c0 c' IH Hrun). }
  induction 1 as [env c H | env cmd c c' Hreach IH _ Hc | env c c' Hreach IH H
                 | env env' cmd e c c1 c' Hreach IH _ Hc _ H].
  - apply (written_startup env empty_ledger c); auto. constructor.
  - pose proof (reachable_inv _ c Hreach) as (_ & Hq & _).
    apply (Hrun env cmd c c' IH Hq (proceeds_after _ _ Hc)).
  - pose proof (reachable_inv _ c Hreach) as ((_ & (Hnd & _)) & _).
    apply (written_startup env (db c) c'); auto. apply IH.
  - pose proof (reachable_inv _ c Hreach) as Hinv.
    assert (Hafter : after (run env cmd c) = Some c1)
      by (rewrite Hc; reflexivity).
    pose proof (run_inv_ledgers env cmd c c1 Hinv Hafter) as (_ & (Hnd & _)).
    apply (written_startup env' (db c1) c'); auto.
    apply (Hrun env cmd c c1 IH (proj1 (proj2 Hinv)) Hafter).
Qed.
End Written.

(** * Invariants of the ledger *)

Lemma filter_filter_length {A} (p q : A -> bool) (l : list A) :
  (length (filter p (filter q l)) <= length (filter p l))%nat.
Proof.
  induction l as [|x xs IH]; simpl; [lia|].
  destruct (q x); simpl; destruct (p x); simpl; lia.
Qed.

Lemma entries_of_mark user g e l :
  length (entries_of user g (mark_winner e l)) = length (entries_of user g l).
Proof.
  unfold entries_of, mark_winner. simpl.
  induction (entries l) as [|x xs IH]; simpl; [reflexivity|].
  destruct (Entry.same_key x e); simpl;
    destruct ((Entry.id x =? user) && (Entry.giveaway x =? g)); simpl;
    rewrite IH; reflexivity.
Qed.

Lemma entries_unique_written : written entries_unique.
Proof.
  split; unfold entries_unique; intros; try (apply H); try (apply H0).
  - (* an entry added *)
    unfold entries_of. simpl. rewrite filter_app, length_app. simpl.
    destruct ((user =? user0) && (g =? g0)) eqn:E.
    + apply andb_true_iff in E. destruct E as [E1 E2].
      apply Z.eqb_eq in E1, E2. subst.
      fold (entries_of user0 g0 l). rewrite (entries_of_none _ _ _ H0). simpl. lia.
    + simpl. rewrite Nat.add_0_r. apply H.
  - (* an entry marked *)
    rewrite entries_of_mark. apply H.
  - (* an entry deleted *)
    unfold entries_of, delete_entry. simpl.
    etransitivity; [apply filter_filter_length | apply H].
Qed.

(** X8.  In every state the cog reaches, a member has at most one entry in a
    giveaway, in the file and in the session: [process_entry] adds an entry
    only when it finds none, and [get_winner] only marks or deletes. *)
Theorem one_entry_per_member c user g :
  reachable c ->
  (length (entries_of user g (db c)) <= 1)%nat /\
  (length (entries_of user g (s c)) <= 1)%nat.
Proof.
  intros H.
  destruct (written_reachable entries_unique entries_unique_written (fun _ => True) c) as [Hs Hd];
    [intros u g'; simpl; lia | exact H |].
  split; [apply Hd | apply Hs].
Qed.

(** An instance: member 100 in giveaway "Spring". *)
Lemma one_entry_per_member_witness :
  le (length (entries_of 100 1 (db (spring 2 [100])))) 1 /\
  le (length (entries_of 100 1 (s (spring 2 [100])))) 1.
Proof.
  apply (one_entry_per_member (spring 2 [100]) 100 1).
  apply reachable_spring. reflexivity.
Defined.

Lemma blacklist_distinct_written : written blacklist_distinct.
Proof.
  split; unfold blacklist_distinct; intros; try assumption; simpl.
  - apply NoDup_app; [assumption | repeat constructor; tauto|].
    intros j Hj [<-|[]].
    assert (E : existsb (Z.eqb i) (blacklist l) = true).
    { apply existsb_exists. exists i. split; [exact Hj | apply Z.eqb_refl]. }
    congruence.
  - apply NoDup_filter. assumption.
Qed.

(** X9.  In every state the cog reaches, no member is on the blacklist
    twice: [blacklist add] writes only when it finds the member not
    listed. *)
Theorem blacklist_has_no_duplicates c :
  reachable c -> NoDup (blacklist (db c)) /\ NoDup (blacklist (s c)).
Proof.
  intros H.
  destruct (written_reachable blacklist_distinct blacklist_distinct_written (fun _ => True) c)
    as [Hs Hd]; [constructor | exact H |].
  split; assumption.
Qed.

Lemma reachable_spring_blacklisted : reachable spring_blacklisted.
Proof.
  apply (reachable_runs _ guild
           [Create "Spring" 2 [] true; Join (request 100); BlacklistAdd (member 3)]
           (proj2 (Forall_forall _ _) (fun _ _ => I))
           installed _ (reachable_installed _)).
  reflexivity.
Qed.

(** An instance: the cog after member 3 was blacklisted. *)
Lemma blacklist_has_no_duplicates_witness :
  NoDup (blacklist (db spring_blacklisted)) /\
  NoDup (blacklist (s spring_blacklisted)).
Proof.
  apply (blacklist_has_no_duplicates spring_blacklisted).
  apply reachable_spring_blacklisted.
Defined.

Lemma keys_distinct_written : written keys_distinct.
Proof.
  split; unfold keys_distinct; intros; try assumption.
  - rewrite map_id_update; assumption.
  - simpl. rewrite map_app. simpl.
    apply NoDup_app; [assumption | repeat constructor; tauto|].
    intros i Hi [<-|[]]. apply in_map_iff in Hi. destruct Hi as (r & Hid & Hin).
    pose proof (id_lt_next_id _ _ Hin). lia.
Qed.

Lemma rows_refer_written : written rows_refer.
Proof.
  split; unfold rows_refer; intros.
  - destruct H as [He Hr]. split; [|exact Hr]. simpl. intros e Hin.
    apply in_app_or in Hin. destruct Hin as [Hin|[<-|[]]]; auto.
  - destruct H as [He Hr]. split; [|exact Hr]. simpl. intros x Hin.
    apply in_map_iff in Hin. destruct Hin as (x0 & <- & Hin).
    specialize (He x0 Hin). destruct (Entry.same_key x0 e); exact He.
  - destruct H as [He Hr]. split; [|exact Hr]. simpl. intros x Hin.
    apply filter_In in Hin. apply He. tauto.
  - destruct H0 as [He Hr]. rewrite map_id_update by assumption.
    split; assumption.
  - destruct H as [He Hr]. simpl. rewrite map_app.
    split; intros x Hin; apply in_or_app; left; auto.
  - destruct H as [He Hr]. split; [exact He|]. simpl. intros x Hin.
    apply in_app_or in Hin. destruct Hin; auto.
  - destruct H as [He Hr]. split; [exact He|]. simpl. intros x Hin.
    apply filter_In in Hin. apply Hr. tauto.
  - assumption.
  - assumption.
Qed.

(** X10.  In every state the cog reaches, the Giveaway rows have distinct
    keys, and every entry and every role row is of a giveaway that has a
    row, in the file and in the session: no command deletes a Giveaway or
    changes its key. *)
Theorem ledger_is_consistent c :
  reachable c ->
  NoDup (map Giveaway.id (giveaways (db c))) /\
  NoDup (map Giveaway.id (giveaways (s c))) /\
  (forall e, In e (entries (db c)) ->
     exists r, find_giveaway (Entry.giveaway e) (db c) = Some r) /\
  (forall e, In e (entries (s c)) ->
     exists r, find_giveaway (Entry.giveaway e) (s c) = Some r) /\
  (forall x, In x (giveaway_roles (db c)) ->
     exists r, find_giveaway (GiveawayRole.giveaway x) (db c) = Some r) /\
  (forall x, In x (giveaway_roles (s c)) ->
     exists r, find_giveaway (GiveawayRole.giveaway x) (s c) = Some r).
Proof.
  intros H.
  destruct (written_reachable keys_distinct keys_distinct_written (fun _ => True) c)
    as [Hks Hkd]; [constructor | exact H |].
  destruct (written_reachable rows_refer rows_refer_written (fun _ => True) c)
    as [[Hes Hrs] [Hed Hrd]]; [split; intros x [] | exact H |].
  assert (Hfind : forall l g, In g (map Giveaway.id (giveaways l)) ->
                    exists r, find_giveaway g l = Some r).
  { intros l g Hin. apply in_map_iff in Hin. destruct Hin as (r & Hid & Hin).
    unfold find_giveaway. destruct (find _ _) as [r0|] eqn:E; [eauto|].
    eapply find_none in E; [|exact Hin]. simpl in E.
    rewrite Hid, Z.eqb_refl in E. discriminate. }
  repeat split; auto.
Qed.

(** An instance: giveaway "Spring" with one entry. *)
Lemma ledger_is_consistent_witness :
  NoDup (map Giveaway.id (giveaways (db (spring 2 [100])))) /\
  NoDup (map Giveaway.id (giveaways (s (spring 2 [100])))) /\
  (forall e, In e (entries (db (spring 2 [100]))) ->
     exists r, find_giveaway (Entry.giveaway e) (db (spring 2 [100])) = Some r) /\
  (forall e, In e (entries (s (spring 2 [100]))) ->
     exists r, find_giveaway (Entry.giveaway e) (s (spring 2 [100])) = Some r) /\
  (forall x, In x (giveaway_roles (db (spring 2 [100]))) ->
     exists r, find_giveaway (GiveawayRole.giveaway x) (db (spring 2 [100])) = Some r) /\
  (forall x, In x (giveaway_roles (s (spring 2 [100]))) ->
     exists r, find_giveaway (GiveawayRole.giveaway x) (s (spring 2 [100])) = Some r).
Proof.
  apply (ledger_is_consistent (spring 2 [100])).
  apply reachable_spring. reflexivity.
Defined.

(** ** [create] without roles *)

Lemma filter_none {A} (f : A -> bool) (l : list A) :
  (forall x, In x l -> f x = false) -> filter f l = [].
Proof.
  induction l as [|x xs IH]; simpl; intros H; [reflexivity|].
  rewrite (H x (or_introl eq_refl)). apply IH. intros y Hy. apply H. right. exact Hy.
Qed.

Lemma find_giveaway_fresh l : find_giveaway (next_id l) l = None.
Proof.
  destruct (find_giveaway (next_id l) l) as [r|] eqn:E; [|reflexivity].
  pose proof (find_giveaway_id _ _ _ E) as Hid.
  unfold find_giveaway in E. apply find_some in E. destruct E as [Hin _].
  pose proof (id_lt_next_id _ _ Hin). lia.
Qed.

Lemma find_giveaway_new l row g :
  find_giveaway g (with_giveaways (fun gs => gs ++ [row]) l) =
  match find_giveaway g l with
  | Some r => Some r
  | None => if Giveaway.id row =? g then Some row else None
  end.
Proof.
  unfold find_giveaway. simpl.
  induction (giveaways l) as [|x xs IH]; simpl; [reflexivity|].
  destruct (Giveaway.id x =? g); [reflexivity | exact IH].
Qed.

(** X11.  [create] from state NONE, in a state the cog reaches.  Confirmed,
    without roles and with a count sqlite can hold (signed, 64 bits), it
    commits a Giveaway row under a key no row had, with the name and count
    given and the ongoing flag, and puts it in the slot: the state is OPEN;
    the new giveaway has no entry and no role row, and the other rows are
    untouched.  Confirmed with a count sqlite cannot hold, the commit fails:
    nothing is written to the file, no start is announced and the slot stays
    empty.  Declined, with or without roles, it writes nothing and the slot
    stays empty. *)
Theorem create_from_none env name k rs c :
  reachable c -> raffle c = None ->
  (fits k = true ->
   exists c',
     create env name k [] true c = Ok tt c' /\
     sent c' = sent c ++ [Proposed name k []; Started name k] /\
     is_open c' (next_id (s c)) /\
     find_giveaway (next_id (s c)) (s c) = None /\
     find_giveaway (next_id (s c)) (s c') =
       Some (Giveaway.mk (next_id (s c)) name k true) /\
     db c' = s c' /\
     raffle_entries (next_id (s c)) (s c') = [] /\
     raffle_roles (next_id (s c)) (s c') = [] /\
     (forall g', g' <> next_id (s c) ->
        find_giveaway g' (s c') = find_giveaway g' (s c)) /\
     entries (s c') = entries (s c) /\
     giveaway_roles (s c') = giveaway_roles (s c) /\
     blacklist (s c') = blacklist (s c)) /\
  (fits k = false ->
   exists c',
     create env name k rs true c = Raise OverflowError c' /\
     sent c' = sent c ++ [Proposed name k rs] /\
     db c' = db c /\ raffle c' = None) /\
  (exists c',
     create env name k rs false c = Ok tt c' /\
     sent c' = sent c ++ [Proposed name k rs; AlrightThen] /\
     s c' = s c /\ db c' = db c /\ raffle c' = None).
Proof.
  intros Hreach Hr. split; [|split].
  - intros Hk.
    destruct (reachable_inv _ c Hreach) as ((Hls & _) & _ & _).
    destruct (written_reachable rows_refer rows_refer_written (fun _ => True) c)
      as [[Hes _] _]; [split; intros x [] | exact Hreach |].
    unfold create. prim. rewrite Hr. prim.
    unfold create_raffle. rewrite !bind_bind. prim. rewrite bind_bind. prim.
    rewrite bind_bind. rewrite (bind_ok _ _ _ _ _ (commit_int_ok k _ Hk)).
    eexists. split; [reflexivity|]. cbn [sent s db raffle set_sent set_s set_db
                                          set_raffle].
    set (new_id := next_id (s c)).
    assert (Hfound : find_giveaway new_id
              (with_giveaways
                 (fun gs => gs ++ [Giveaway.mk new_id name k default_ongoing]) (s c))
              = Some (Giveaway.mk new_id name k true)).
    { rewrite find_giveaway_new. unfold new_id. rewrite find_giveaway_fresh.
      simpl. rewrite Z.eqb_refl. reflexivity. }
    split; [rewrite <- app_assoc; reflexivity|].
    split; [split; [reflexivity | eexists; split; [exact Hfound | reflexivity]]|].
    split; [apply find_giveaway_fresh|].
    split; [exact Hfound|]. split; [reflexivity|]. split.
    { unfold raffle_entries. simpl. apply filter_none. intros e He.
      apply Z.eqb_neq. intros Heq.
      specialize (Hes e He). apply in_map_iff in Hes.
      destruct Hes as (r & Hid & Hin).
      pose proof (id_lt_next_id _ _ Hin). unfold new_id in Heq. lia. }
    split; [apply (no_rows_of_new_giveaway (s c)); exact Hls|].
    split; [|repeat split; reflexivity].
    intros g' Hne. rewrite find_giveaway_new.
    destruct (find_giveaway g' (s c)); [reflexivity|]. simpl.
    destruct (new_id =? g') eqn:E; [apply Z.eqb_eq in E; congruence | reflexivity].
  - intros Hk. rewrite (create_overflow env name k rs c Hr Hk).
    eexists. split; [reflexivity|]. repeat split. exact Hr.
  - unfold create. prim. rewrite Hr. prim.
    eexists. split; [reflexivity|]. simpl.
    split; [rewrite <- app_assoc; reflexivity | auto].
Qed.

(** An instance: the cog just installed, a giveaway for two winners, one
    for 2^63 winners, and one that is declined. *)
Lemma create_from_none_witness :
  (exists c',
     create guild "Spring" 2 [] true installed = Ok tt c' /\
     sent c' = sent installed ++ [Proposed "Spring" 2 []; Started "Spring" 2] /\
     is_open c' (next_id (s installed)) /\
     find_giveaway (next_id (s installed)) (s installed) = None /\
     find_giveaway (next_id (s installed)) (s c') =
       Some (Giveaway.mk (next_id (s installed)) "Spring" 2 true) /\
     db c' = s c' /\
     raffle_entries (next_id (s installed)) (s c') = [] /\
     raffle_roles (next_id (s installed)) (s c') = [] /\
     (forall g', g' <> next_id (s installed) ->
        find_giveaway g' (s c') = find_giveaway g' (s installed)) /\
     entries (s c') = entries (s installed) /\
     giveaway_roles (s c') = giveaway_roles (s installed) /\
     blacklist (s c') = blacklist (s installed)) /\
  (exists c',
     create guild "Spring" (2 ^ 63) [helpers] true installed =
       Raise OverflowError c' /\
     sent c' = sent installed ++ [Proposed "Spring" (2 ^ 63) [helpers]] /\
     db c' = db installed /\ raffle c' = None) /\
  (exists c',
     create guild "Spring" 2 [helpers] false installed = Ok tt c' /\
     sent c' = sent installed ++ [Proposed "Spring" 2 [helpers]; AlrightThen] /\
     s c' = s installed /\ db c' = db installed /\ raffle c' = None).
Proof.
  split; [|split].
  - apply (create_from_none guild "Spring" 2 [helpers] installed);
      [apply reachable_installed | reflexivity | reflexivity].
  - apply (create_from_none guild "Spring" (2 ^ 63) [helpers] installed);
      [apply reachable_installed | reflexivity | reflexivity].
  - apply (create_from_none guild "Spring" 2 [helpers] installed);
      [apply reachable_installed | reflexivity].
Defined.

(** ** Starting again *)



(** * Further properties of the draw *)

Lemma resolvable_nil env g l :
  resolvable env g l = [] <->
  forall x, In x (raffle_entries g l) -> get_member env (Entry.id x) = None.
Proof.
  unfold resolvable. split.
  - intros H x Hx. destruct (get_member env (Entry.id x)) eqn:E; [|reflexivity].
    assert (Hin : In x (filter (fun e => match get_member env (Entry.id e) with
                                         | Some _ => true | None => false end)
                               (raffle_entries g l))).
    { apply filter_In. rewrite E. auto. }
    rewrite H in Hin. destruct Hin.
  - intros H. apply filter_none. intros x Hx. rewrite (H x Hx). reflexivity.
Qed.

(** What [get_winner] commits with a winner: the marked entry of the
    winner. *)
Lemma get_winner_loop_commits env g pool rounds :
  forall c m c',
    loaded env g pool (s c) ->
    get_winner_loop env pool rounds c = Ok (Some m) c' ->
    db c' = s c' /\ marked env g m (s c').
Proof.
  induction rounds as [|rounds IH]; intros c m c' Hl;
    rewrite get_winner_loop_eq; destruct pool as [|e0 rest] eqn:E;
    try discriminate.
  cbv zeta. rewrite <- E in *.
  assert (Hin : In (choice env c pool e0) pool)
    by (apply choice_in_pool; rewrite E; discriminate).
  set (e := choice env c pool e0) in *.
  destruct (get_member env (Entry.id e)) as [m'|] eqn:Hm.
  - intros H. inversion H; subst. split; [reflexivity|].
    assert (He : In e (raffle_entries g (s c)))
      by (apply Hl; [exact Hin | congruence]).
    exists (Entry.with_winner true e). split; [|split; [reflexivity | exact Hm]].
    change (s (won e c)) with (mark_winner e (s c)).
    rewrite raffle_entries_mark. apply in_map_iff. exists e.
    rewrite same_key_refl. auto.
  - intros H.
    apply (IH (dropped e c) m c' (loaded_dropped env g pool e c Hl Hm) H).
Qed.

(** [get_winner] deletes no entry of a member of the guild. *)
Lemma get_winner_loop_keeps_present env g pool rounds :
  forall c w c',
    loaded env g pool (s c) ->
    get_winner_loop env pool rounds c = Ok w c' ->
    forall x, In x pool -> get_member env (Entry.id x) <> None ->
    exists x', In x' (raffle_entries g (s c')) /\ Entry.id x' = Entry.id x.
Proof.
  induction rounds as [|rounds IH]; intros c w c' Hl;
    rewrite get_winner_loop_eq; destruct pool as [|e0 rest] eqn:E;
    try discriminate; try (intros _ x []; fail).
  cbv zeta. rewrite <- E in *.
  set (e := choice env c pool e0) in *.
  destruct (get_member env (Entry.id e)) as [m|] eqn:Hm.
  - intros H x Hx Hpresent. inversion H; subst.
    change (s (won e c)) with (mark_winner e (s c)).
    rewrite raffle_entries_mark.
    exists (if Entry.same_key x e then Entry.with_winner true x else x). split.
    + apply in_map_iff. exists x. split; [reflexivity|]. apply Hl; assumption.
    + destruct (Entry.same_key x e); reflexivity.
  - intros H.
    apply (IH (dropped e c) w c' (loaded_dropped env g pool e c Hl Hm) H).
Qed.

(** X13.  [get_winner], with a giveaway in the slot.  When the giveaway has
    no entry it returns [None] at once and changes nothing, and that is the
    only way it returns [None].  When it returns a member, an entry of that
    member is marked as winner, and committed, and every member of the guild
    who had an entry still has one: only entries of members who left are
    deleted.  When the giveaway has entries and none is of a member of the
    guild, it does not return, however long it is followed: the entry it
    deletes stays in the list it chooses from. *)
Theorem get_winner_none_iff env c g :
  in_slot c g ->
  (raffle_entries g (s c) = [] -> get_winner env c = Ok None c) /\
  (forall w c',
     get_winner env c = Ok w c' ->
     (w = None <-> raffle_entries g (s c) = []) /\
     (w = None -> c' = c) /\
     (forall m, w = Some m ->
        marked env g m (db c') /\ db c' = s c' /\
        forall x, In x (raffle_entries g (s c)) ->
                  get_member env (Entry.id x) <> None ->
                  exists x', In x' (raffle_entries g (s c')) /\
                             Entry.id x' = Entry.id x)) /\
  (raffle_entries g (s c) <> [] -> resolvable env g (s c) = [] ->
   get_winner env c = Never).
Proof.
  intros (Hr & r & Hf). rewrite (get_winner_eq env c g r Hr Hf).
  split; [|split].
  - intros ->. rewrite get_winner_loop_eq. reflexivity.
  - intros w c' Hw.
    pose proof (loaded_refl env g (s c)) as Hl.
    pose proof (get_winner_loop_post env g _ _ c w c' Hl Hw) as (_ & _ & Hpost).
    pose proof (get_winner_loop_keeps_present env g _ _ c w c' Hl Hw) as Hk.
    destruct w as [m|].
    + destruct Hpost as ((e & He & _) & _).
      destruct (get_winner_loop_commits env g _ _ c m c' Hl Hw) as [Hd Hmark].
      split; [|split]; try discriminate.
      * split; [discriminate|]. intros H. rewrite H in He. destruct He.
      * intros m' Hm'. inversion Hm'; subst m'. rewrite Hd. auto.
    + destruct Hpost as [Hnil Hsame]. split; [|split].
      * split; auto.
      * auto.
      * intros m Hm. discriminate.
  - intros Hne Hres. apply get_winner_loop_never; [exact Hne|].
    apply resolvable_nil. exact Hres.
Qed.

(** An instance: giveaway "Spring" with two entries. *)
Lemma get_winner_none_iff_witness :
  (raffle_entries 1 (s (spring 2 [100; 200])) = [] ->
   get_winner guild (spring 2 [100; 200]) = Ok None (spring 2 [100; 200])) /\
  (forall w c',
     get_winner guild (spring 2 [100; 200]) = Ok w c' ->
     (w = None <-> raffle_entries 1 (s (spring 2 [100; 200])) = []) /\
     (w = None -> c' = spring 2 [100; 200]) /\
     (forall m, w = Some m ->
        marked guild 1 m (db c') /\ db c' = s c' /\
        forall x, In x (raffle_entries 1 (s (spring 2 [100; 200]))) ->
                  get_member guild (Entry.id x) <> None ->
                  exists x', In x' (raffle_entries 1 (s c')) /\
                             Entry.id x' = Entry.id x)) /\
  (raffle_entries 1 (s (spring 2 [100; 200])) <> [] ->
   resolvable guild 1 (s (spring 2 [100; 200])) = [] ->
   get_winner guild (spring 2 [100; 200]) = Never).
Proof.
  apply (get_winner_none_iff guild (spring 2 [100; 200]) 1).
  split; [reflexivity|]. eexists. reflexivity.
Defined.

(** X14.  [finish] on an open giveaway with a positive count.  When the
    giveaway has no entry, it says that there are not enough participants
    and no users to choose, and returns with the giveaway still open in the
    slot; the flag it raises again is not committed: the file holds the
    giveaway as closed.  When the giveaway has entries, none of them of a
    member the guild still has, [finish] does not return, however long it is
    followed. *)
Theorem finish_without_members env c g k :
  is_open c g -> win_count_of g (s c) = Some k -> 0 < k -> queue c = [] ->
  (raffle_entries g (s c) = [] ->
   exists c',
     finish env c = Ok tt c' /\
     sent c' = sent c ++ [NotEnough; NoUsers] /\
     is_open c' g /\
     entries (s c') = entries (s c) /\
     db c' = update_giveaway g (Giveaway.with_ongoing false) (s c) /\
     ongoing_flag g (db c') = Some false) /\
  (raffle_entries g (s c) <> [] -> resolvable env g (s c) = [] ->
   finish env c = Never).
Proof.
  intros (Hr & r & Hf & Ho) Hk Hpos Hq.
  unfold win_count_of in Hk. rewrite Hf in Hk. injection Hk as Hk.
  split.
  - intros Hnil.
    assert (Hdraw : forall n,
              draw env n (closed g c) = Ok (repeat None n) (closed g c)).
    { induction n as [|n IH]; [reflexivity|]. cbn [draw repeat].
      assert (Hw : get_winner env (closed g c) = Ok None (closed g c)).
      { rewrite (get_winner_eq env (closed g c) g _ Hr (find_closed g c r Hf)).
        change (raffle_entries g (s (closed g c))) with (raffle_entries g (s c)).
        rewrite Hnil, get_winner_loop_eq. reflexivity. }
      rewrite (bind_ok _ _ _ _ _ Hw), (bind_ok _ _ _ _ _ IH). reflexivity. }
    assert (Hres : forall n, resolved (repeat (@None Member) n) = []).
    { induction n; [reflexivity | exact IHn]. }
    assert (Hcd : close_and_draw env c = Ok [] (closed g c)).
    { rewrite (close_and_draw_eq env c g r Hr Hf Ho Hq).
      rewrite (bind_ok _ _ _ _ _ (Hdraw _)). unfold ret. rewrite Hres.
      reflexivity. }
    unfold finish. rewrite (bind_ok _ _ _ _ _ Hcd). unfold report.
    rewrite (bind_ok _ _ _ _ _
               (the_raffle_ok (closed g c) g _ Hr (find_closed g c r Hf))).
    cbv zeta. change (Giveaway.win_count (Giveaway.with_ongoing false r))
      with (Giveaway.win_count r).
    change (Z.of_nat (length (@nil Member))) with 0.
    replace (0 <? Giveaway.win_count r) with true by (symmetry; apply Z.ltb_lt; lia).
    cbn [when andb is_nil]. prim. prim.
    match goal with |- context [set_ongoing true ?c0] =>
      rewrite (set_ongoing_ok true c0 g (Giveaway.with_ongoing false r) Hr
                 (find_closed g c r Hf))
    end.
    eexists. split; [reflexivity|].
    unfold is_open.
    cbn -[update_giveaway find_giveaway raffle_entries ongoing_flag].
    split; [rewrite <- app_assoc; reflexivity|].
    split.
    { split; [exact Hr|]. eexists. split.
      - rewrite !find_update_giveaway by reflexivity. rewrite Hf. reflexivity.
      - reflexivity. }
    split; [reflexivity|]. split; [reflexivity|].
    eapply ongoing_flag_update; eauto.
  - intros Hne Hres. unfold finish, bind.
    rewrite (close_and_draw_never env c g r Hr Hf Ho Hq); auto; [lia|].
    apply resolvable_nil. exact Hres.
Qed.

(** An instance: giveaway "Spring" for two winners, which nobody joined; and
    joined by two members who have both left the guild. *)
Lemma finish_without_members_witness :
  (exists c',
     finish deserted (spring 2 []) = Ok tt c' /\
     sent c' = sent (spring 2 []) ++ [NotEnough; NoUsers] /\
     is_open c' 1 /\
     entries (s c') = entries (s (spring 2 [])) /\
     db c' = update_giveaway 1 (Giveaway.with_ongoing false) (s (spring 2 [])) /\
     ongoing_flag 1 (db c') = Some false) /\
  finish deserted (spring 2 [100; 200]) = Never.
Proof.
  split.
  - apply (finish_without_members deserted (spring 2 []) 1 2);
      [apply is_open_spring | reflexivity | lia | reflexivity | reflexivity].
  - apply (finish_without_members deserted (spring 2 [100; 200]) 1 2);
      [apply is_open_spring | reflexivity | lia | reflexivity
      | discriminate | reflexivity].
Defined.

(** ** What the draw leaves alone, and what it leaves behind *)

Lemma same_key_giveaway a b :
  Entry.same_key a b = true -> Entry.giveaway a = Entry.giveaway b.
Proof.
  unfold Entry.same_key. intros H. apply andb_true_iff in H.
  destruct H as [_ H]. apply Z.eqb_eq in H. exact H.
Qed.

Lemma raffle_entries_giveaway g l e :
  In e (raffle_entries g l) -> Entry.giveaway e = g.
Proof.
  unfold raffle_entries. intros H. apply filter_In in H.
  destruct H as [_ H]. apply Z.eqb_eq in H. exact H.
Qed.

Lemma other_key g' l e x :
  Entry.giveaway e <> g' -> In x (raffle_entries g' l) ->
  Entry.same_key x e = false.
Proof.
  intros Hne Hx. destruct (Entry.same_key x e) eqn:K; [|reflexivity].
  apply same_key_giveaway in K.
  apply raffle_entries_giveaway in Hx. congruence.
Qed.

Lemma mark_winner_spares g' l e :
  Entry.giveaway e <> g' ->
  raffle_entries g' (mark_winner e l) = raffle_entries g' l.
Proof.
  intros Hne. rewrite raffle_entries_mark.
  rewrite <- (map_id (raffle_entries g' l)) at 2.
  apply map_ext_in. intros x Hx.
  rewrite (other_key g' l e x Hne Hx). reflexivity.
Qed.

Lemma filter_all {A} (f : A -> bool) (l : list A) :
  (forall x, In x l -> f x = true) -> filter f l = l.
Proof.
  induction l as [|x xs IH]; simpl; intros H; [reflexivity|].
  rewrite (H x) by auto. f_equal. apply IH. auto.
Qed.

Lemma delete_entry_spares g' l e :
  Entry.giveaway e <> g' ->
  raffle_entries g' (delete_entry e l) = raffle_entries g' l.
Proof.
  intros Hne. rewrite raffle_entries_delete.
  apply filter_all. intros x Hx.
  rewrite (other_key g' l e x Hne Hx). reflexivity.
Qed.

(** [get_winner] touches no entry of another giveaway. *)
Lemma get_winner_loop_spares env g' pool rounds :
  (forall x, In x pool -> Entry.giveaway x <> g') ->
  forall c w c',
    get_winner_loop env pool rounds c = Ok w c' ->
    raffle_entries g' (s c') = raffle_entries g' (s c).
Proof.
  intros Hpool.
  induction rounds as [|rounds IH]; intros c w c';
    rewrite get_winner_loop_eq; destruct pool as [|e0 rest] eqn:E;
    try (intros H; inversion H; subst; reflexivity); try discriminate.
  cbv zeta. rewrite <- E in *.
  assert (Hin : In (choice env c pool e0) pool)
    by (apply choice_in_pool; rewrite E; discriminate).
  set (e := choice env c pool e0) in *.
  destruct (get_member env (Entry.id e)) as [m|] eqn:Hm.
  - intros H. inversion H; subst.
    change (s (won e c)) with (mark_winner e (s c)).
    apply mark_winner_spares. auto.
  - intros H. rewrite (IH (dropped e c) w c' H).
    change (s (dropped e c)) with (delete_entry e (s c)).
    apply delete_entry_spares. auto.
Qed.

(** A property of two states that every call of [get_winner] in the draw
    establishes holds from the start of the draw to its end. *)
Lemma draw_steps env g r (Q : Cog -> Cog -> Prop) :
  (forall c, Q c c) ->
  (forall a b c, Q a b -> Q b c -> Q a c) ->
  (forall c w c1,
     raffle c = Some g -> find_giveaway g (s c) = Some r ->
     get_winner env c = Ok w c1 -> Q c c1) ->
  forall n c ws c',
    raffle c = Some g -> find_giveaway g (s c) = Some r ->
    draw env n c = Ok ws c' -> Q c c'.
Proof.
  intros Hrefl Htrans Hstep.
  induction n as [|n IH]; intros c ws c' Hr Hf Hd.
  - inversion Hd; subst. apply Hrefl.
  - apply draw_inv in Hd. destruct Hd as (w & c1 & ws1 & Hw & Hd & ->).
    destruct (get_winner_post env g r c w c1 Hr Hf Hw) as (Hfr & _).
    assert (Hr1 : raffle c1 = Some g) by (destruct Hfr as (H & _); congruence).
    assert (Hf1 : find_giveaway g (s c1) = Some r)
      by (rewrite (draw_frame_find g c c1 Hfr); exact Hf).
    apply (Htrans c c1 c'); [eapply Hstep; eauto | eapply IH; eauto].
Qed.

Lemma draw_spares env g r g' n :
  g' <> g ->
  forall c ws c',
    raffle c = Some g -> find_giveaway g (s c) = Some r ->
    draw env n c = Ok ws c' ->
    raffle_entries g' (s c') = raffle_entries g' (s c).
Proof.
  intros Hne.
  apply (draw_steps env g r
           (fun c c' => raffle_entries g' (s c') = raffle_entries g' (s c))).
  - reflexivity.
  - intros a b c H1 H2. congruence.
  - intros c w c1 Hr Hf Hw. rewrite (get_winner_eq env c g r Hr Hf) in Hw.
    apply (get_winner_loop_spares env g' _ _) with (w := w) (2 := Hw).
    intros x Hx. apply raffle_entries_giveaway in Hx. congruence.
Qed.

(** X15.  When [finish] on an open giveaway returns, it has touched that
    giveaway only: whatever the draw marked or deleted, the entries and the
    rows of every other giveaway are in the session as they were, and so are
    the role rows and the blacklist; the resolved roles of the cog are not
    reset. *)
Theorem finish_spares_other_giveaways env c g c' :
  is_open c g -> queue c = [] ->
  finish env c = Ok tt c' ->
  (forall g', g' <> g ->
     raffle_entries g' (s c') = raffle_entries g' (s c) /\
     find_giveaway g' (s c') = find_giveaway g' (s c)) /\
  giveaway_roles (s c') = giveaway_roles (s c) /\
  blacklist (s c') = blacklist (s c) /\
  roles c' = roles c.
Proof.
  intros (Hr & r & Hf & Ho) Hq Hfin.
  destruct (finish_inv env c c' Hfin) as (ws & c1 & Hcd & Hrep0).
  destruct (close_and_draw_post env c g r ws c1 Hr Hf Ho Hq Hcd)
    as (drawn & -> & Hd & Hpost & Hr1 & Hf1).
  pose proof (find_closed g c r Hf) as Hf0.
  destruct (report_returns env (resolved drawn) c1 g _ Hr1 Hf1)
    as ([] & c2 & Hrep & Hafter).
  rewrite Hrep0 in Hrep. inversion Hrep; subst c2. clear Hrep.
  destruct Hpost as (Hfr & _).
  destruct Hfr as (_ & Hroles & _ & _ & _ & Hgs & Hgr & Hbl & _).
  assert (Hs : s c' = s c1 \/
               s c' = update_giveaway g (Giveaway.with_ongoing true) (s c1)).
  { destruct (_ && _) in Hafter.
    - right. apply Hafter.
    - left. apply Hafter. }
  assert (Hro : roles c' = roles c1).
  { destruct (_ && _) in Hafter; apply Hafter. }
  split; [|split; [|split]].
  - intros g' Hne. split.
    + transitivity (raffle_entries g' (s c1)).
      * destruct Hs as [-> | ->]; reflexivity.
      * rewrite (draw_spares env g _ g' _ Hne (closed g c) drawn c1 Hr Hf0 Hd).
        reflexivity.
    + transitivity (find_giveaway g' (s c1)).
      * destruct Hs as [-> | ->]; [reflexivity|].
        apply find_update_other; auto.
      * unfold find_giveaway at 1. rewrite Hgs.
        change (find_giveaway g' (s (closed g c)) = find_giveaway g' (s c)).
        unfold closed. simpl. apply find_update_other; auto.
  - destruct Hs as [-> | ->]; simpl; rewrite Hgr; reflexivity.
  - destruct Hs as [-> | ->]; simpl; rewrite Hbl; reflexivity.
  - rewrite Hro, Hroles. reflexivity.
Qed.

(** An instance: finishing "Autumn" leaves the entry of "Spring" alone. *)
Lemma finish_spares_other_giveaways_witness :
  exists c',
    finish guild autumn = Ok tt c' /\
    (forall g', g' <> 2 ->
       raffle_entries g' (s c') = raffle_entries g' (s autumn) /\
       find_giveaway g' (s c') = find_giveaway g' (s autumn)) /\
    giveaway_roles (s c') = giveaway_roles (s autumn) /\
    blacklist (s c') = blacklist (s autumn) /\
    roles c' = roles autumn.
Proof.
  eexists. split; [vm_compute; reflexivity|].
  apply (finish_spares_other_giveaways guild autumn 2).
  - split; [reflexivity|]. eexists. split; reflexivity.
  - reflexivity.
  - vm_compute. reflexivity.
Defined.

(** ** The winners of [finish] *)

Lemma marked_won env g m e l :
  marked env g m l -> marked env g m (mark_winner e l).
Proof.
  intros (x & Hx & Hw & Hm).
  exists (if Entry.same_key x e then Entry.with_winner true x else x).
  split; [|split].
  - rewrite raffle_entries_mark. apply in_map_iff. exists x. auto.
  - destruct (Entry.same_key x e); [reflexivity | exact Hw].
  - destruct (Entry.same_key x e); exact Hm.
Qed.

Lemma marked_dropped env g m e l :
  get_member env (Entry.id e) = None ->
  marked env g m l -> marked env g m (delete_entry e l).
Proof.
  intros He (x & Hx & Hw & Hm). exists x. split; [|auto].
  rewrite raffle_entries_delete. apply filter_In. split; [exact Hx|].
  destruct (Entry.same_key x e) eqn:K; [|reflexivity].
  apply same_key_id in K. congruence.
Qed.

(** A marked entry of a member of the guild stays through [get_winner]. *)
Lemma get_winner_loop_keeps_marked env g m pool rounds :
  forall c w c',
    get_winner_loop env pool rounds c = Ok w c' ->
    marked env g m (s c) -> marked env g m (s c').
Proof.
  induction rounds as [|rounds IH]; intros c w c';
    rewrite get_winner_loop_eq; destruct pool as [|e0 rest] eqn:E;
    try (intros H Hmk; inversion H; subst; exact Hmk); try discriminate.
  cbv zeta. rewrite <- E in *.
  set (e := choice env c pool e0) in *.
  destruct (get_member env (Entry.id e)) as [m'|] eqn:Hm.
  - intros H Hmk. inversion H; subst.
    change (s (won e c)) with (mark_winner e (s c)). apply marked_won, Hmk.
  - intros H Hmk. apply (IH (dropped e c) w c' H).
    change (s (dropped e c)) with (delete_entry e (s c)).
    apply marked_dropped; assumption.
Qed.

Lemma draw_keeps_marked env g r m n :
  forall c ws c',
    raffle c = Some g -> find_giveaway g (s c) = Some r ->
    draw env n c = Ok ws c' ->
    marked env g m (s c) -> marked env g m (s c').
Proof.
  apply (draw_steps env g r
           (fun c c' => marked env g m (s c) -> marked env g m (s c'))).
  - auto.
  - auto.
  - intros c w c1 Hr Hf Hw. rewrite (get_winner_eq env c g r Hr Hf) in Hw.
    apply (get_winner_loop_keeps_marked env g m _ _ c w c1 Hw).
Qed.

(** After the draw every winner has a marked entry in the session. *)
Lemma draw_marks env g r n :
  forall c ws c',
    raffle c = Some g -> find_giveaway g (s c) = Some r ->
    draw env n c = Ok ws c' ->
    forall m, In m (resolved ws) -> marked env g m (s c').
Proof.
  induction n as [|n IH]; intros c ws c' Hr Hf Hd m Hm.
  - inversion Hd; subst. destruct Hm.
  - apply draw_inv in Hd. destruct Hd as (w & c1 & ws1 & Hw & Hd & ->).
    destruct (get_winner_post env g r c w c1 Hr Hf Hw) as (Hfr & _).
    assert (Hr1 : raffle c1 = Some g) by (destruct Hfr as (H & _); congruence).
    assert (Hf1 : find_giveaway g (s c1) = Some r)
      by (rewrite (draw_frame_find g c c1 Hfr); exact Hf).
    destruct w as [m0|]; simpl in Hm.
    + destruct Hm as [<- | Hm]; [|apply (IH c1 ws1 c' Hr1 Hf1 Hd m Hm)].
      apply (draw_keeps_marked env g r m0 n c1 ws1 c' Hr1 Hf1 Hd).
      rewrite (get_winner_eq env c g r Hr Hf) in Hw.
      apply (get_winner_loop_commits env g _ _ c m0 c1
               (loaded_refl env g (s c)) Hw).
    + apply (IH c1 ws1 c' Hr1 Hf1 Hd m Hm).
Qed.

Lemma mentions_sent ws :
  forall c, exists c',
    for_each ws (fun user => send (Mention user)) c = Ok tt c' /\
    silent c c' /\ sent c' = sent c ++ map Mention ws.
Proof.
  induction ws as [|w ws IH]; intros c.
  - exists c. split; [reflexivity|]. split; [apply silent_refl|].
    simpl. rewrite app_nil_r. reflexivity.
  - destruct (IH (set_sent (sent c ++ [Mention w]) c)) as (c' & H & S & Hs).
    exists c'. split; [|split].
    + simpl. prim. exact H.
    + eapply silent_trans; [apply silent_send | exact S].
    + rewrite Hs. simpl. rewrite <- app_assoc. reflexivity.
Qed.

Lemma failed_dms_sent env ws :
  forall c, exists c',
    for_each ws (fun user => if dm_ok env user then ret tt
                             else send (FailedDM user)) c = Ok tt c' /\
    silent c c' /\
    sent c' = sent c ++
              map FailedDM (filter (fun user => negb (dm_ok env user)) ws).
Proof.
  induction ws as [|w ws IH]; intros c.
  - exists c. split; [reflexivity|]. split; [apply silent_refl|].
    simpl. rewrite app_nil_r. reflexivity.
  - simpl. destruct (dm_ok env w) eqn:E; simpl.
    + destruct (IH c) as (c' & H & S & Hs). exists c'.
      split; [|split]; auto.
    + destruct (IH (set_sent (sent c ++ [FailedDM w]) c)) as (c' & H & S & Hs).
      exists c'. split; [|split].
      * prim. exact H.
      * eapply silent_trans; [apply silent_send | exact S].
      * rewrite Hs. simpl. rewrite <- app_assoc. reflexivity.
Qed.

(** The part of [finish] after the draw, when the winners are as many as
    the count. *)
Lemma report_announces env ws c g r :
  raffle c = Some g -> find_giveaway g (s c) = Some r ->
(Z.of_nat (length ws) <? Giveaway.win_count r) = false ->
  exists c',
    report env ws c = Ok tt c' /\
    raffle c' = None /\ s c' = s c /\ db c' = s c /\
    sent c' = sent c ++ announcement env ws (length (raffle_entries g (s c))).
Proof.
  intros Hr Hf Hb. unfold report.
  rewrite (bind_ok _ _ _ _ _ (the_raffle_ok c g r Hr Hf)). cbv zeta.
  rewrite Hb. cbn [when andb]. prim. prim. unfold announcement.
  destruct (mentions_sent ws (set_sent (sent c ++ [AndTheWinnerIs]) c))
    as (c2 & H2 & S2 & M2).
  rewrite (bind_ok _ _ _ _ _ H2). prim.
  destruct (failed_dms_sent env ws (set_sent (sent c2 ++ [Congratulations]) c2))
    as (c4 & H4 & S4 & M4).
  rewrite (bind_ok _ _ _ _ _ H4). prim.
  assert (S14 : silent c c4).
  { eapply silent_trans; [|exact S4].
    eapply silent_trans; [|apply silent_send].
    eapply silent_trans; [|exact S2]. apply silent_send. }
  destruct S14 as (?&Hs4&Hr4&?&?&?&?).
  rewrite (bind_ok _ _ _ _ _ (the_raffle_ok (set_db (s c4) c4) g r
             ltac:(simpl; congruence) ltac:(simpl; congruence))).
  prim. prim.
  eexists. split; [reflexivity|]. cbn -[raffle_entries].
  repeat split; try congruence.
  rewrite M4. cbn -[raffle_entries]. rewrite M2. cbn -[raffle_entries].
  rewrite Hs4. rewrite <- !app_assoc. cbn [app].
  rewrite (find_giveaway_id _ _ _ Hf). reflexivity.
Qed.

(** X16.  When [finish] on an open giveaway returns and the draw resolved a
    winner, or the count is not positive, the winners are as many as the
    count, the slot is empty, and what [finish] has sent is, in this order:
    the opening line; a mention of each winner in the order drawn; the
    congratulations; a failure notice for each winner who could not be sent
    a direct message, and for no one else; and the number of entries the
    giveaway is left with.  It never announces winners after saying that
    there are not enough participants. *)
Theorem finish_announcement env c g k c' :
  is_open c g -> win_count_of g (s c) = Some k -> queue c = [] ->
  finish env c = Ok tt c' ->
  exists winners c1,
    close_and_draw env c = Ok winners c1 /\
    (winners <> [] \/ k <= 0 ->
     length winners = Z.to_nat k /\
     raffle c' = None /\
     sent c' = sent c ++ announcement env winners
                           (length (raffle_entries g (s c'))) /\
     ~ In NotEnough (announcement env winners
                       (length (raffle_entries g (s c'))))).
Proof.
  intros (Hr & r & Hf & Ho) Hk Hq Hfin.
  unfold win_count_of in Hk. rewrite Hf in Hk. injection Hk as Hk.
  destruct (finish_inv env c c' Hfin) as (ws & c1 & Hcd & Hrep).
  destruct (close_and_draw_post env c g r ws c1 Hr Hf Ho Hq Hcd)
    as (drawn & Hws & Hd & Hpost & Hr1 & Hf1).
  exists ws, c1. split; [exact Hcd|]. intros Hann.
  rewrite Hk in Hpost. destruct Hpost as (Hfr & Hlen & Hfrom & Hfull & Hnone).
  assert (Hcount : length ws = Z.to_nat k).
  { destruct ws as [|w ws'] eqn:E.
    - destruct Hann as [H|H]; [congruence|]. simpl. lia.
    - rewrite Hws. apply Hfull.
      destruct (Hfrom w) as (e & He & Hm); [rewrite <- Hws; left; reflexivity|].
      exists e. split; [exact He | congruence]. }
  assert (Hb : (Z.of_nat (length ws) <?
                Giveaway.win_count (Giveaway.with_ongoing false r)) = false).
  { change (Giveaway.win_count (Giveaway.with_ongoing false r))
      with (Giveaway.win_count r). rewrite Hk. apply Z.ltb_ge.
    rewrite Hcount. lia. }
  destruct (report_announces env ws c1 g _ Hr1 Hf1 Hb)
    as (c2 & Hrep2 & Hn & Hs & _ & Hsent).
  rewrite Hrep in Hrep2. inversion Hrep2; subst c2.
  split; [exact Hcount|]. split; [exact Hn|]. split.
  - rewrite Hsent, Hs. destruct Hfr as (_&_&_&_&Hsent1&_).
    rewrite Hsent1. reflexivity.
  - unfold announcement. intros Hin.
    repeat (apply in_app_or in Hin; destruct Hin as [Hin|Hin]);
      try (apply in_map_iff in Hin; destruct Hin as (x & Hx & _); discriminate);
      simpl in Hin; intuition discriminate.
Qed.

(** An instance: giveaway "Spring" for two winners, joined by members 100,
    200 and 300, in a guild where member 200 takes no direct message. *)
Lemma finish_announcement_witness :
  exists c' winners c1,
    finish guild_dm_closed (spring 2 [100; 200; 300]) = Ok tt c' /\
    close_and_draw guild_dm_closed (spring 2 [100; 200; 300]) = Ok winners c1 /\
    (winners <> [] \/ 2 <= 0 ->
     length winners = Z.to_nat 2 /\
     raffle c' = None /\
     sent c' = sent (spring 2 [100; 200; 300]) ++
               announcement guild_dm_closed winners
                 (length (raffle_entries 1 (s c'))) /\
     ~ In NotEnough (announcement guild_dm_closed winners
                       (length (raffle_entries 1 (s c'))))).
Proof.
  assert (Hfin : exists c',
             finish guild_dm_closed (spring 2 [100; 200; 300]) = Ok tt c').
  { eexists. vm_compute. reflexivity. }
  destruct Hfin as (c' & Hfin).
  destruct (finish_announcement guild_dm_closed (spring 2 [100; 200; 300]) 1 2 c'
              (is_open_spring _ _) eq_refl eq_refl Hfin) as (ws & c1 & Hcd & H).
  exists c', ws, c1. auto.
Defined.

(** X17.  When [finish] on an open giveaway returns, every winner it drew
    has an entry of that giveaway marked as winner in the file, and when
    there is a winner the session has nothing pending. *)
Theorem finish_commits_winners env c g c' :
  is_open c g -> queue c = [] ->
  finish env c = Ok tt c' ->
  exists winners c1,
    close_and_draw env c = Ok winners c1 /\
    (forall m, In m winners -> marked env g m (db c')) /\
    (winners <> [] -> db c' = s c').
Proof.
  intros (Hr & r & Hf & Ho) Hq Hfin.
  destruct (finish_inv env c c' Hfin) as (ws & c1 & Hcd & Hrep0).
  destruct (close_and_draw_post env c g r ws c1 Hr Hf Ho Hq Hcd)
    as (drawn & Hws & Hd & Hpost & Hr1 & Hf1).
  pose proof (find_closed g c r Hf) as Hf0.
  destruct (report_returns env ws c1 g _ Hr1 Hf1) as ([] & c2 & Hrep & Hafter).
  rewrite Hrep0 in Hrep. inversion Hrep; subst c2. clear Hrep.
  exists ws, c1. split; [exact Hcd|].
  assert (Hne : ws <> [] -> db c' = s c1 /\ s c' = s c1).
  { intros Hne. destruct ws as [|w ws']; [congruence|].
    rewrite andb_false_r in Hafter. split; apply Hafter. }
  split.
  - intros m Hm. destruct Hne as [-> _]; [intros ->; destruct Hm|].
    subst ws. apply (draw_marks env g _ _ (closed g c) drawn c1 Hr Hf0 Hd m Hm).
  - intros H. destruct (Hne H) as [-> ->]. reflexivity.
Qed.

(** An instance: giveaway "Spring" for two winners with three entries. *)
Lemma finish_commits_winners_witness :
  exists c' winners c1,
    finish guild (spring 2 [100; 200; 300]) = Ok tt c' /\
    close_and_draw guild (spring 2 [100; 200; 300]) = Ok winners c1 /\
    (forall m, In m winners -> marked guild 1 m (db c')) /\
    (winners <> [] -> db c' = s c').
Proof.
  assert (Hfin : exists c', finish guild (spring 2 [100; 200; 300]) = Ok tt c').
  { eexists. vm_compute. reflexivity. }
  destruct Hfin as (c' & Hfin).
  destruct (finish_commits_winners guild (spring 2 [100; 200; 300]) 1 c'
              (is_open_spring _ _) eq_refl Hfin) as (ws & c1 & Hcd & H).
  exists c', ws, c1. auto.
Defined.

(** ** [winner_count], then [finish] *)

(** X18.  The draw of [finish] is made for the count as [winner_count] last
    set it, whatever the count the giveaway was created with: after
    [winner_count value] on an open giveaway, with a value sqlite can hold,
    a draw that returns has resolved [value] winners as soon as one entry is
    of a member of the guild, however few the entries, and no winner when
    none is, or when [value] is not positive; and the draw returns when
    every entry is of a member of the guild. *)
Theorem finish_draws_for_the_modified_count env value c g :
  is_open c g -> queue c = [] -> fits value = true ->
  exists c1,
    winner_count value c = Ok tt c1 /\
    (forall winners c2,
       close_and_draw env c1 = Ok winners c2 ->
       (resolvable env g (s c) <> [] -> length winners = Z.to_nat value) /\
       (resolvable env g (s c) = [] -> winners = []) /\
       (forall m, In m winners ->
          exists e, In e (raffle_entries g (s c)) /\
                    get_member env (Entry.id e) = Some m)) /\
    ((forall x, In x (raffle_entries g (s c)) ->
                get_member env (Entry.id x) <> None) ->
     (1 <= fuel env)%nat ->
     exists winners c2, close_and_draw env c1 = Ok winners c2).
Proof.
  intros (Hr & r & Hf & Ho) Hq Hv. unfold winner_count.
  rewrite (bind_ok _ _ _ _ _ (ongoing_raffle_ok c g r Hr Hf Ho)).
  rewrite (bind_ok _ _ _ _ _ (the_raffle_ok c g r Hr Hf)). prim.
  rewrite (bind_ok _ _ _ _ _ (commit_int_ok value _ Hv)).
  rewrite (find_giveaway_id _ _ _ Hf).
  match goal with |- exists c1, send ?x ?c0 = _ /\ _ =>
    exists (set_sent (sent c0 ++ [x]) c0);
    set (c1 := set_sent (sent c0 ++ [x]) c0) end.
  assert (Hr1 : raffle c1 = Some g) by exact Hr.
  assert (Hf1 : find_giveaway g (s c1) = Some (Giveaway.with_win_count value r)).
  { unfold c1. cbn -[find_giveaway update_giveaway].
    rewrite find_update_giveaway by reflexivity. rewrite Hf. reflexivity. }
  assert (Hq1 : queue c1 = []) by exact Hq.
  split; [reflexivity|]. split.
  - intros ws c2 Hcd.
    destruct (close_and_draw_post env c1 g _ ws c2 Hr1 Hf1 Ho Hq1 Hcd)
      as (drawn & -> & _ & Hpost & _).
    change (Giveaway.win_count (Giveaway.with_win_count value r))
      with value in Hpost.
    destruct Hpost as (_ & Hlen & Hfrom & Hfull & Hnone).
    change (raffle_entries g (s (closed g c1))) with (raffle_entries g (s c))
      in Hfrom, Hfull, Hnone.
    split; [|split].
    + intros Hne. apply Hfull.
      destruct (resolvable env g (s c)) as [|e rest] eqn:E; [congruence|].
      assert (He : In e (resolvable env g (s c))) by (rewrite E; left; reflexivity).
      unfold resolvable in He. apply filter_In in He. destruct He as [He Hm].
      exists e. split; [exact He|].
      destruct (get_member env (Entry.id e)); congruence.
    + intros Hnil. apply Hnone. apply resolvable_nil. exact Hnil.
    + exact Hfrom.
  - intros Hall Hfuel.
    apply (close_and_draw_returns env c1 g _ Hr1 Hf1 Ho Hq1); assumption.
Qed.

(** An instance: giveaway "Spring" created for one winner and joined by
    member 100 alone, then set to three winners. *)
Lemma finish_draws_for_the_modified_count_witness :
  exists c1,
    winner_count 3 (spring 1 [100]) = Ok tt c1 /\
    (forall winners c2,
       close_and_draw guild c1 = Ok winners c2 ->
       (resolvable guild 1 (s (spring 1 [100])) <> [] ->
        length winners = Z.to_nat 3) /\
       (resolvable guild 1 (s (spring 1 [100])) = [] -> winners = []) /\
       (forall m, In m winners ->
          exists e, In e (raffle_entries 1 (s (spring 1 [100]))) /\
                    get_member guild (Entry.id e) = Some m)) /\
    ((forall x, In x (raffle_entries 1 (s (spring 1 [100]))) ->
                get_member guild (Entry.id x) <> None) ->
     (1 <= fuel guild)%nat ->
     exists winners c2, close_and_draw guild c1 = Ok winners c2).
Proof.
  apply (finish_draws_for_the_modified_count guild 3 (spring 1 [100]) 1).
  - apply is_open_spring.
  - reflexivity.
  - reflexivity.
Defined.

(** ** Which commands can wait for ever *)

(** X19.  In a state the cog reaches, every command but [finish] returns or
    raises: the [queue.get()] of [process_entry] finds the request [join]
    has just put.  [finish] passes the wait of [queue_empty], the queue being
    empty between commands, and returns or raises when every entry of the
    giveaway in the slot is of a member of the guild and the loop of
    [get_winner] is followed for a round at least. *)
Theorem no_command_hangs env cmd c :
  reachable c ->
  (cmd <> Finish -> run env cmd c <> Never) /\
  ((forall g x, raffle c = Some g -> In x (raffle_entries g (s c)) ->
                get_member env (Entry.id x) <> None) ->
   (1 <= fuel env)%nat ->
   run env Finish c <> Never).
Proof.
  intros Hreach.
  assert (Hq : queue c = []) by apply (reachable_inv _ c Hreach).
  split.
  - intros Hcmd.
    destruct cmd as [ctx|name k rs answer|answer| |member|member|value];
      cbn [run]; [| | |congruence| | |].
    + destruct (ongoing_raffle_cases c) as [(e & He)|(Hok & g & Hopen)].
      { unfold join. rewrite (bind_raise _ _ _ _ _ He). discriminate. }
      destruct (not_new ctx) eqn:Hn.
      2:{ unfold join. rewrite (bind_ok _ _ _ _ _ Hok), Hn. discriminate. }
      destruct (not_blacklisted ctx) eqn:Hb.
      2:{ unfold join. rewrite (bind_ok _ _ _ _ _ Hok), Hn, Hb. discriminate. }
      destruct (join_outcome env c g ctx Hopen Hq Hn Hb) as (c1 & -> & _).
      discriminate.
    + destruct (raffle c) as [g|] eqn:Hr.
      { rewrite (create_while_open env name k rs answer c g Hr). discriminate. }
      destruct answer.
      2:{ unfold create. prim. rewrite Hr. prim. discriminate. }
      destruct (fits k) eqn:Hk.
      2:{ rewrite (create_overflow env name k rs c Hr Hk). discriminate. }
      unfold create. prim. rewrite Hr. prim.
      unfold create_raffle. rewrite !bind_bind. prim. rewrite bind_bind. prim.
      rewrite bind_bind. rewrite (bind_ok _ _ _ _ _ (commit_int_ok k _ Hk)).
      destruct rs as [|r0 rs].
      * cbn [map is_nil]. rewrite bind_bind. prim. prim. prim. discriminate.
      * cbn [map is_nil]. rewrite !bind_bind.
        match goal with |- bind (add_all_roles ?rows) ?k ?c2 <> _ =>
          pose proof (add_all_roles_eq rows c2) as Hadd;
          destruct (distinct_keys (giveaway_roles (s c2) ++ rows))
        end.
        -- rewrite (bind_ok _ _ _ _ _ Hadd). rewrite bind_bind.
           erewrite bind_raise by (apply the_raffle_none; exact Hr). discriminate.
        -- rewrite (bind_raise _ _ _ _ _ Hadd). discriminate.
    + unfold cancel.
      destruct (ongoing_raffle_cases c) as [(e & He)|(Hok & g & Hr & r & Hf & Ho)].
      { rewrite (bind_raise _ _ _ _ _ He). discriminate. }
      rewrite (bind_ok _ _ _ _ _ Hok). prim. destruct answer; [|discriminate].
      rewrite (bind_ok _ _ _ _ _
                 (set_ongoing_ok false (set_sent (sent c ++ [AreYouSure]) c) g r Hr Hf)).
      prim. prim. discriminate.
    + unfold blacklist_add. prim. destruct (existsb _ _); [discriminate|].
      prim. prim. discriminate.
    + unfold blacklist_remove. prim. destruct (existsb _ _); [|discriminate].
      prim. prim. discriminate.
    + destruct (fits value) eqn:Hv.
      * unfold winner_count.
        destruct (ongoing_raffle_cases c) as [(e & He)|(Hok & g & Hr & r & Hf & Ho)].
        { rewrite (bind_raise _ _ _ _ _ He). discriminate. }
        rewrite (bind_ok _ _ _ _ _ Hok).
        rewrite (bind_ok _ _ _ _ _ (the_raffle_ok c g r Hr Hf)). prim.
        rewrite (bind_ok _ _ _ _ _ (commit_int_ok value _ Hv)). discriminate.
      * destruct (winner_count_unfit value c Hv) as [(e & -> & _) | ->];
          discriminate.
  - intros Hall Hfuel. cbn [run].
    destruct (ongoing_raffle_cases c) as [(e & He)|(Hok & g & Hopen)].
    { unfold finish, close_and_draw. rewrite !bind_bind.
      rewrite (bind_raise _ _ _ _ _ He). discriminate. }
    destruct (finish_returns env c g Hopen Hq) as (c' & ->);
      [intros x Hx; apply (Hall g x); [apply Hopen | exact Hx]
      | exact Hfuel | discriminate].
Qed.

(** An instance: the commands on giveaway "Spring" with two entries. *)
Lemma no_command_hangs_witness :
  (Cancel true <> Finish -> run guild (Cancel true) (spring 2 [100; 200]) <> Never) /\
  ((forall g x, raffle (spring 2 [100; 200]) = Some g ->
                In x (raffle_entries g (s (spring 2 [100; 200]))) ->
                get_member guild (Entry.id x) <> None) ->
   (1 <= fuel guild)%nat ->
   run guild Finish (spring 2 [100; 200]) <> Never).
Proof.
  apply (no_command_hangs guild (Cancel true) (spring 2 [100; 200])).
  apply reachable_spring. reflexivity.
Defined.
